(** * Markdown utilities of prettier: [src/language-markdown/utils.js]

    A shallow embedding of [splitText], [getOrderedListItemInfo],
    [hasGitDiffFriendlyOrderedList], [mapAst] and [isAutolink], and the
    properties the specification states about them. *)

From Stdlib Require Import String Ascii DecimalString.
From Stdlib Require Import List Bool Arith NArith ZArith Lia.
Import ListNotations.
Local Open Scope list_scope.
Local Open Scope nat_scope.

Set Implicit Arguments.

(** ** JavaScript strings *)

(** A JavaScript string is a sequence of UTF-16 code units; the regular
    expressions of this file carry no [u] flag and work on code units. *)
Definition char := N.
Definition jsstring := list char.

(** An ASCII literal as a JavaScript string. *)
Definition js (s : string) : jsstring :=
  map (fun a => N.of_nat (nat_of_ascii a)) (list_ascii_of_string s).

Definition jsstring_eqb (a b : jsstring) : bool :=
  if list_eq_dec N.eq_dec a b then true else false.

Definition isEmpty (s : jsstring) : bool :=
  match s with [] => true | _ :: _ => false end.

Fixpoint takeWhile (p : char -> bool) (s : jsstring) : jsstring :=
  match s with
  | c :: rest => if p c then c :: takeWhile p rest else []
  | [] => []
  end.

Fixpoint dropWhile (p : char -> bool) (s : jsstring) : jsstring :=
  match s with
  | c :: rest => if p c then dropWhile p rest else s
  | [] => []
  end.

(** [s.at(-1)] *)
Fixpoint at_last {A : Type} (l : list A) : option A :=
  match l with
  | [] => None
  | [x] => Some x
  | _ :: tl => at_last tl
  end.

(** ** [String.prototype.split] with a one-group regular expression *)

(** A sticky match of the regular expression at the current index: the text
    of its single capture group (the whole match, for the two expressions
    used here) and what is left of the string after the match.  Neither
    expression looks behind the index, so the suffix decides the match. *)
Definition matcher := jsstring -> option (jsstring * jsstring).

(** The loop of [RegExp.prototype[Symbol.split]]: [pending] is [S[p..q)],
    [rest] is [S[q..size)].  An iteration leaves the index where it is only
    after an empty match, and then the next one advances, so twice the size
    of the string bounds the number of iterations. *)
Fixpoint splitLoop (exec : matcher) (fuel : nat) (pending rest : jsstring)
  : list jsstring :=
  match fuel with
  | O => [pending ++ rest]
  | S fuel' =>
      match rest with
      | [] => [pending]
      | c :: rest' =>
          match exec rest with
          | None => splitLoop exec fuel' (pending ++ [c]) rest'
          | Some (captured, after) =>
              if isEmpty captured && isEmpty pending
              then splitLoop exec fuel' (pending ++ [c]) rest'
              else pending :: captured :: splitLoop exec fuel' [] after
          end
      end
  end.

Definition split (exec : matcher) (str : jsstring) : list jsstring :=
  match str with
  | [] => match exec [] with Some _ => [] | None => [[]] end
  | _ :: _ => splitLoop exec (2 * length str) [] str
  end.

(** ** Text nodes *)

Inductive WordKind :=
| KIND_NON_CJK
| KIND_CJ_LETTER
| KIND_K_LETTER
| KIND_CJK_PUNCTUATION.

Definition WordKind_eqb (a b : WordKind) : bool :=
  match a, b with
  | KIND_NON_CJK, KIND_NON_CJK
  | KIND_CJ_LETTER, KIND_CJ_LETTER
  | KIND_K_LETTER, KIND_K_LETTER
  | KIND_CJK_PUNCTUATION, KIND_CJK_PUNCTUATION => true
  | _, _ => false
  end.

(** [WhitespaceNode | WordNode] *)
Inductive TextNode :=
| whitespace (value : jsstring)
| word (value : jsstring) (kind : WordKind)
       (hasLeadingPunctuation hasTrailingPunctuation : bool).

Definition value (n : TextNode) : jsstring :=
  match n with whitespace v => v | word v _ _ _ => v end.

Definition kind (n : TextNode) : option WordKind :=
  match n with whitespace _ => None | word _ k _ _ => Some k end.

Definition isWhitespaceNode (n : TextNode) : bool :=
  match n with whitespace _ => true | word _ _ _ _ => false end.

Definition isWordNode (n : TextNode) : bool :=
  match n with whitespace _ => false | word _ _ _ _ => true end.

Definition TAB : char := 9%N.
Definition NEWLINE : char := 10%N.
Definition SPACE : char := 32%N.
Definition FULL_WIDTH_SPACE : char := 12288%N.

(** The class [[\t\n ]]. *)
Definition isBlank (c : char) : bool :=
  N.eqb c TAB || N.eqb c NEWLINE || N.eqb c SPACE.

(** [/([\t\n ]+)/] at the current index: the longest run of blanks. *)
Definition whitespaceExec : matcher := fun s =>
  match takeWhile isBlank s with
  | [] => None
  | run => Some (run, dropWhile isBlank s)
  end.

(** [/\n/.test(token)] *)
Definition hasNewline (s : jsstring) : bool := existsb (N.eqb NEWLINE) s.

(** [/　/.test(value)] *)
Definition hasFullWidthSpace (s : jsstring) : bool :=
  existsb (N.eqb FULL_WIDTH_SPACE) s.

(** [String(undefined)], what [RegExp.prototype.test] sees when it is handed
    [undefined]. *)
Definition undefinedText : jsstring := js "undefined".

Section SplitText.

(** Modelled from the spec: [constants.evaluate.js], which defines
    [cjkPattern], [kRegex] and [punctuationPattern], is not part of the
    sources.  The specification describes them as static predicates on
    characters ("is CJK character", "is Korean character", "is punctuation
    character"), and [cjkPattern] as matching a single character of the CJK
    ranges. *)
Variables isCjk isK isPunctuation : char -> bool.

(** [new RegExp(`(${cjkPattern})`)] at the current index. *)
Definition cjkExec : matcher := fun s =>
  match s with
  | c :: rest => if isCjk c then Some ([c], rest) else None
  | [] => None
  end.

(** [punctuationRegex.test(s)] and [kRegex.test(s)]: some character of [s]
    is in the class. *)
Definition punctuationRegex_test (s : jsstring) : bool :=
  existsb isPunctuation s.
Definition kRegex_test (s : jsstring) : bool := existsb isK s.

(** [punctuationRegex.test(x)] for [x] a character of a string, or
    [undefined] when the string has none at that place. *)
Definition punctuationRegex_test_char (x : option char) : bool :=
  match x with
  | Some c => punctuationRegex_test [c]
  | None => punctuationRegex_test undefinedText
  end.

Definition isBetween (lastNode node : TextNode) (kind1 kind2 : WordKind)
  : bool :=
  match kind lastNode, kind node with
  | Some kl, Some kn =>
      (WordKind_eqb kl kind1 && WordKind_eqb kn kind2)
      || (WordKind_eqb kl kind2 && WordKind_eqb kn kind1)
  | _, _ => false
  end.

(** The condition of [appendNode] once [lastNode] is known. *)
Definition needsBreak (lastNode node : TextNode) : bool :=
  isWordNode lastNode
  && negb (isBetween lastNode node KIND_NON_CJK KIND_CJK_PUNCTUATION)
  && negb (existsb hasFullWidthSpace [value lastNode; value node]).

Definition appendNode (nodes : list TextNode) (node : TextNode)
  : list TextNode :=
  match at_last nodes with
  | Some lastNode =>
      if needsBreak lastNode node
      then (nodes ++ [whitespace []]) ++ [node]
      else nodes ++ [node]
  | None => nodes ++ [node]
  end.

Definition nonCjkWord (innerToken : jsstring) : TextNode :=
  word innerToken KIND_NON_CJK
       (punctuationRegex_test_char (hd_error innerToken))
       (punctuationRegex_test_char (at_last innerToken)).

Definition cjkWord (innerToken : jsstring) : TextNode :=
  if punctuationRegex_test innerToken
  then word innerToken KIND_CJK_PUNCTUATION true true
  else word innerToken
            (if kRegex_test innerToken then KIND_K_LETTER
             else KIND_CJ_LETTER)
            false false.

(** The body of the inner [for] loop. *)
Definition innerStep (len innerIndex : nat) (innerToken : jsstring)
           (nodes : list TextNode) : list TextNode :=
  if ((innerIndex =? 0) || (innerIndex =? len - 1)) && isEmpty innerToken
  then nodes
  else if Nat.even innerIndex
       then if negb (isEmpty innerToken)
            then appendNode nodes (nonCjkWord innerToken)
            else nodes
       else appendNode nodes (cjkWord innerToken).

Fixpoint innerLoop (len innerIndex : nat) (innerTokens : list jsstring)
         (nodes : list TextNode) : list TextNode :=
  match innerTokens with
  | [] => nodes
  | innerToken :: more =>
      innerLoop len (S innerIndex) more
                (innerStep len innerIndex innerToken nodes)
  end.

(** The body of the outer [for] loop. *)
Definition outerStep (len index : nat) (token : jsstring)
           (nodes : list TextNode) : list TextNode :=
  if Nat.odd index
  then nodes ++ [whitespace (if hasNewline token then [NEWLINE]
                             else [SPACE])]
  else if ((index =? 0) || (index =? len - 1)) && isEmpty token
       then nodes
       else let innerTokens := split cjkExec token in
            innerLoop (length innerTokens) 0 innerTokens nodes.

Fixpoint outerLoop (len index : nat) (tokens : list jsstring)
         (nodes : list TextNode) : list TextNode :=
  match tokens with
  | [] => nodes
  | token :: more =>
      outerLoop len (S index) more (outerStep len index token nodes)
  end.

(** The nodes [splitText] has built when it reaches its assertions. *)
Definition buildNodes (text : jsstring) : list TextNode :=
  let tokens := split whitespaceExec text in
  outerLoop (length tokens) 0 tokens [].

(** The assertion loop: [true] when no assertion fails. *)
Fixpoint assertNoConsecutiveWhitespace (nodes : list TextNode) : bool :=
  match nodes with
  | a :: ((b :: _) as tl) =>
      negb (isWhitespaceNode a && isWhitespaceNode b)
      && assertNoConsecutiveWhitespace tl
  | _ => true
  end.

(** [splitText]; [production] is [process.env.NODE_ENV === "production"],
    and [None] is a failed assertion. *)
Definition splitText (production : bool) (text : jsstring)
  : option (list TextNode) :=
  let nodes := buildNodes text in
  if negb production && negb (assertNoConsecutiveWhitespace nodes)
  then None
  else Some nodes.

End SplitText.

(** A sample of the classifier tables, for concrete runs: the CJK ranges
    hold CJK Symbols and Punctuation, Hiragana and Katakana, the Unified
    Ideographs and the Hangul Syllables. *)
Module Sample.
Definition inRange (lo hi c : N) : bool := N.leb lo c && N.leb c hi.
Definition isK (c : char) : bool := inRange 44032 55215 c.
Definition isCjk (c : char) : bool :=
  inRange 12288 12351 c || inRange 12352 12543 c
  || inRange 19968 40959 c || isK c.
Definition isPunctuation (c : char) : bool :=
  inRange 33 47 c || inRange 58 64 c || inRange 12289 12291 c
  || inRange 12296 12305 c.
Definition splitText := splitText isCjk isK isPunctuation.
End Sample.

(** "hello世界" and "foo。" *)
Definition hello_sekai : jsstring := js "hello" ++ [19990; 30028]%N.
Definition foo_stop : jsstring := js "foo" ++ [12290%N].

(** ** Automaton of well-formed outputs *)

Definition TextNode_eq_dec (a b : TextNode) : {a = b} + {a <> b}.
Proof.
  decide equality; try apply bool_dec; try apply (list_eq_dec N.eq_dec).
  decide equality.
Defined.
Arguments TextNode_eq_dec : simpl never.

Definition bothNonCjk (a b : TextNode) : bool :=
  match kind a, kind b with
  | Some KIND_NON_CJK, Some KIND_NON_CJK => true
  | _, _ => false
  end.

(** What the nodes built so far end with. *)
Inductive trail :=
| AtStart
| AfterSpace
| AfterWord (w : TextNode)
| AfterBreak (w : TextNode).

Section Automaton.

Variables isCjk isK isPunctuation : char -> bool.

(** A word node as [splitText] makes them: a non-empty run without CJK
    characters and blanks, or one CJK character, with the kind and the
    flags of its class. *)
Definition wellFormedWord (n : TextNode) : bool :=
  match n with
  | whitespace _ => false
  | word v KIND_NON_CJK _ _ =>
      negb (isEmpty v)
      && forallb (fun c => negb (isCjk c) && negb (isBlank c)) v
      && (if TextNode_eq_dec n (nonCjkWord isPunctuation v)
          then true else false)
  | word v _ _ _ =>
      match v with
      | [c] => isCjk c
               && (if TextNode_eq_dec n (cjkWord isK isPunctuation v)
                   then true else false)
      | _ => false
      end
  end.

Definition step (t : trail) (n : TextNode) : option trail :=
  match n with
  | whitespace v =>
      if isEmpty v
      then match t with AfterWord w => Some (AfterBreak w) | _ => None end
      else if jsstring_eqb v [SPACE] || jsstring_eqb v [NEWLINE]
           then match t with
                | AtStart | AfterWord _ => Some AfterSpace
                | _ => None
                end
           else None
  | word _ _ _ _ =>
      if wellFormedWord n
      then match t with
           | AtStart | AfterSpace => Some (AfterWord n)
           | AfterWord w =>
               if negb (needsBreak w n) && negb (bothNonCjk w n)
               then Some (AfterWord n) else None
           | AfterBreak w =>
               if needsBreak w n && negb (bothNonCjk w n)
               then Some (AfterWord n) else None
           end
      else None
  end.

Fixpoint run (t : trail) (nodes : list TextNode) : option trail :=
  match nodes with
  | [] => Some t
  | n :: more =>
      match step t n with
      | Some t' => run t' more
      | None => None
      end
  end.

(** The nodes are well formed and do not end with a zero-width
    whitespace. *)
Definition accepted (nodes : list TextNode) : Prop :=
  exists t, run AtStart nodes = Some t
            /\ forall w, t <> AfterBreak w.

End Automaton.

(** ** Vocabulary of the proofs *)

Definition sound (exec : matcher) : Prop :=
  forall s captured after,
    exec s = Some (captured, after) -> s = captured ++ after.

Definition noneOf (p : char -> bool) (s : jsstring) : bool :=
  forallb (fun c => negb (p c)) s.

Definition startsWith (p : char -> bool) (s : jsstring) : bool :=
  match s with c :: _ => p c | [] => false end.

(** The shape of [text.split(/([\t\n ]+)/)]: pieces without blanks
    alternate with runs of blanks, and only the first and the last piece can
    be empty. *)
Inductive blankSplit : bool -> list jsstring -> Prop :=
| blankSplit_last first w :
    noneOf isBlank w = true -> blankSplit first [w]
| blankSplit_cons first w s tl :
    noneOf isBlank w = true ->
    (first = false -> w <> []) ->
    s <> [] -> forallb isBlank s = true ->
    blankSplit false tl ->
    blankSplit first (w :: s :: tl).

(** The shape of [token.split(cjkPattern)]: runs without CJK characters
    alternate with single CJK characters. *)
Inductive cjkSplit (isCjk : char -> bool) : list jsstring -> Prop :=
| cjkSplit_last r : noneOf isCjk r = true -> cjkSplit isCjk [r]
| cjkSplit_cons r c tl :
    noneOf isCjk r = true -> isCjk c = true -> cjkSplit isCjk tl ->
    cjkSplit isCjk (r :: [c] :: tl).

(** What the outer loop does with a piece between two runs of blanks. *)
Definition chunkNodes (isCjk isK isPunctuation : char -> bool)
           (token : jsstring) (nodes : list TextNode) : list TextNode :=
  let innerTokens := split (cjkExec isCjk) token in
  innerLoop isK isPunctuation (length innerTokens) 0 innerTokens nodes.

(** The node the outer loop makes of a run of blanks. *)
Definition blankNode (token : jsstring) : TextNode :=
  whitespace (if hasNewline token then [NEWLINE] else [SPACE]).

(** The trails an even index of the inner loop can find. *)
Definition beforeRun (t : trail) : Prop :=
  t = AtStart \/ t = AfterSpace
  \/ exists w, t = AfterWord w /\ kind w <> Some KIND_NON_CJK.

(** The characters of the nodes, in order. *)
Definition textOf (nodes : list TextNode) : jsstring :=
  concat (map value nodes).

(** The characters of a string outside a class [ws] of white space. *)
Definition visible (ws : char -> bool) (s : jsstring) : jsstring :=
  filter (fun c => negb (ws c)) s.

(** A node without its flags; the kind of a whitespace node is [None]. *)
Definition shapeOf (n : TextNode) : jsstring * option WordKind :=
  (value n, kind n).

(** The condition of [appendNode] in the words of the specification: the
    unordered pair of kinds is exactly non-cjk and cjk-punctuation. *)
Definition exemptPair (k1 k2 : WordKind) : Prop :=
  (k1 = KIND_NON_CJK /\ k2 = KIND_CJK_PUNCTUATION)
  \/ (k1 = KIND_CJK_PUNCTUATION /\ k2 = KIND_NON_CJK).

Definition breakExpected (v1 : jsstring) (k1 : WordKind)
           (v2 : jsstring) (k2 : WordKind) : Prop :=
  ~ exemptPair k1 k2
  /\ ~ In FULL_WIDTH_SPACE v1 /\ ~ In FULL_WIDTH_SPACE v2.

(** The definitions under the short names the next section gives to their
    instances. *)
#[local] Abbreviation cjkWord_def := cjkWord (only parsing).
#[local] Abbreviation innerLoop_def := innerLoop (only parsing).
#[local] Abbreviation innerStep_def := innerStep (only parsing).
#[local] Abbreviation nonCjkWord_def := nonCjkWord (only parsing).
#[local] Abbreviation outerLoop_def := outerLoop (only parsing).
#[local] Abbreviation outerStep_def := outerStep (only parsing).
#[local] Abbreviation step_def := step (only parsing).
#[local] Abbreviation wellFormedWord_def := wellFormedWord (only parsing).

(** ** Outcomes *)

(** What a call gives: a value, or an exception (the [TypeError] of a
    property read on [undefined] or [null], of a failed destructuring, of a
    call to something that is not a function). *)
Inductive outcome (A : Type) : Type :=
| Returns (a : A)
| Throws.
Arguments Returns {A} a.
Arguments Throws {A}.

Definition bind {A B : Type} (x : outcome A) (f : A -> outcome B)
  : outcome B :=
  match x with
  | Returns a => f a
  | Throws => Throws
  end.

Notation "x <- e ;; k" := (bind e (fun x => k))
  (at level 61, e at next level, right associativity).

(** ** Ordered lists *)

(** Source offsets, as the parser records them: [position.start.offset] and
    [position.end.offset]. *)
Record Position := {
  start_offset : nat;
  end_offset : nat
}.

Record ListItem := {
  itemPosition : Position
}.

(** A [list] node: [ordered] is [true], [false], or absent ([None]). *)
Record ListNode := {
  ordered : option bool;
  listChildren : list ListItem
}.

Record Options := {
  originalText : jsstring
}.

Record OrderedListItemInfo := {
  numberText : jsstring;
  marker : jsstring;
  leadingSpaces : jsstring
}.

Definition inClass (lo hi : N) (c : char) : bool :=
  N.leb lo c && N.leb c hi.

(** The class [\s] of JavaScript regular expressions. *)
Definition isSpace (c : char) : bool :=
  inClass 9 13 c || N.eqb c 32 || N.eqb c 160 || N.eqb c 5760
  || inClass 8192 8202 c || N.eqb c 8232 || N.eqb c 8233
  || N.eqb c 8239 || N.eqb c 8287 || N.eqb c 12288 || N.eqb c 65279.

(** The class [\d]. *)
Definition isDigit (c : char) : bool := inClass 48 57 c.

(** [\.|\)] *)
Definition isMarker (c : char) : bool := N.eqb c 46 || N.eqb c 41.

(** [text.slice(start, end)] for offsets that are not negative. *)
Definition slice (text : jsstring) (start end_ : nat) : jsstring :=
  let len := length text in
  let from := Nat.min start len in
  let to := Nat.min end_ len in
  firstn (to - from) (skipn from text).

(** [s.match(...)] with the regular expression of the source, anchored at
    the start of [s]: any white space, then the three groups, one or more
    digits, a marker, any white space.  The result is the three groups, or
    [None] for [null].  The classes of white space, of digits and of markers
    do not meet, so the greedy choices are the only ones that can match and
    no backtracking happens. *)
Definition matchListItem (s : jsstring)
  : option (jsstring * jsstring * jsstring) :=
  let afterSpaces := dropWhile isSpace s in
  match takeWhile isDigit afterSpaces, dropWhile isDigit afterSpaces with
  | (_ :: _) as digits, m :: rest =>
      if isMarker m then Some (digits, [m], takeWhile isSpace rest)
      else None
  | _, _ => None
  end.

(** Destructuring [null] throws. *)
Definition getOrderedListItemInfo (orderListItem : ListItem)
           (originalText : jsstring) : outcome OrderedListItemInfo :=
  match matchListItem
          (slice originalText
                 (start_offset (itemPosition orderListItem))
                 (end_offset (itemPosition orderListItem))) with
  | Some (numberText, marker, leadingSpaces) =>
      Returns {| numberText := numberText;
                 marker := marker;
                 leadingSpaces := leadingSpaces |}
  | None => Throws
  end.

(** [Number(numberText)] for a run of decimal digits.  JavaScript rounds the
    value to a double; the code only compares it with 0 and 1, which a
    rounded integer equals exactly when the integer does. *)
Definition Number (digits : jsstring) : N :=
  fold_left (fun acc c => (10 * acc + (c - 48))%N) digits 0%N.

(** [node.children[i]], which is [undefined] past the end; the code then
    throws on [orderListItem.position]. *)
Definition childAt (node : ListNode) (i : nat) : outcome ListItem :=
  match nth_error (listChildren node) i with
  | Some item => Returns item
  | None => Throws
  end.

(** [node.ordered] as a condition. *)
Definition isOrdered (node : ListNode) : bool :=
  match ordered node with Some b => b | None => false end.

Definition hasGitDiffFriendlyOrderedList (node : ListNode) (options : Options)
  : outcome bool :=
  if negb (isOrdered node)
  then Returns false
  else if length (listChildren node) <? 2
  then Returns false
  else
    item0 <- childAt node 0 ;;
    info0 <- getOrderedListItemInfo item0 (originalText options) ;;
    let firstNumber := Number (numberText info0) in
    item1 <- childAt node 1 ;;
    info1 <- getOrderedListItemInfo item1 (originalText options) ;;
    let secondNumber := Number (numberText info1) in
    if N.eqb firstNumber 0 && (2 <? length (listChildren node))
    then
      item2 <- childAt node 2 ;;
      info2 <- getOrderedListItemInfo item2 (originalText options) ;;
      let thirdNumber := Number (numberText info2) in
      Returns (N.eqb secondNumber 1 && N.eqb thirdNumber 1)
    else Returns (N.eqb secondNumber 1).

(** The pattern in the words of the specification: optional white space,
    digits, a marker character, white space.  Only the first run of white
    space is called optional: the second one is not empty. *)
Definition beginsWithItemPattern (s : jsstring) : Prop :=
  exists spaces digits m spaces' rest,
    s = spaces ++ digits ++ m :: spaces' ++ rest
    /\ forallb isSpace spaces = true
    /\ digits <> [] /\ forallb isDigit digits = true
    /\ isMarker m = true
    /\ spaces' <> [] /\ forallb isSpace spaces' = true.

(** What the regular expression of the source asks of the string: white
    space (or none), digits, a marker character.  Its last group, the white
    space after the marker, can be empty. *)
Definition beginsWithNumberAndMarker (s : jsstring) : Prop :=
  exists spaces digits m rest,
    s = spaces ++ digits ++ m :: rest
    /\ forallb isSpace spaces = true
    /\ digits <> [] /\ forallb isDigit digits = true
    /\ isMarker m = true.

(** What the three groups are: the digits, the marker and all the white
    space that follows it. *)
Definition itemGroups (s : jsstring) (info : OrderedListItemInfo) : Prop :=
  exists spaces m rest,
    s = spaces ++ numberText info ++ m :: leadingSpaces info ++ rest
    /\ forallb isSpace spaces = true
    /\ numberText info <> [] /\ forallb isDigit (numberText info) = true
    /\ isMarker m = true /\ marker info = [m]
    /\ forallb isSpace (leadingSpaces info) = true
    /\ startsWith isSpace rest = false.

(** An ordered list of two items whose first item is empty, and its first
    item: the source is "1." on a line and "2. b" on the next. *)
Definition emptyItemSource : jsstring := js "1." ++ [10%N] ++ js "2. b".
Definition emptyItem : ListItem :=
  {| itemPosition := {| start_offset := 0; end_offset := 2 |} |}.

(** An ordered list whose items are the given lines, and its source. *)
Fixpoint itemsOf (offset : nat) (lines : list jsstring) : list ListItem :=
  match lines with
  | [] => []
  | line :: more =>
      {| itemPosition := {| start_offset := offset;
                            end_offset := offset + length line |} |}
      :: itemsOf (offset + length line + 1) more
  end.

Definition orderedListOf (lines : list jsstring) : ListNode :=
  {| ordered := Some true; listChildren := itemsOf 0 lines |}.

Fixpoint sourceOf (lines : list jsstring) : jsstring :=
  match lines with
  | [] => []
  | [line] => line
  | line :: more => line ++ NEWLINE :: sourceOf more
  end.

Definition optionsOf (lines : list jsstring) : Options :=
  {| originalText := sourceOf lines |}.

(** ** Autolinks *)

(** A node of the parsed document: its [type], its [children] when it has
    the property, and its [position]. *)
#[warnings="-register-all"]
Inductive MdNode :=
| mdNode (type : jsstring) (children : option (list MdNode))
         (position : Position).

Definition type (n : MdNode) : jsstring :=
  match n with mdNode t _ _ => t end.
Definition children (n : MdNode) : option (list MdNode) :=
  match n with mdNode _ c _ => c end.
Definition position (n : MdNode) : Position :=
  match n with mdNode _ _ p => p end.

(** Modelled from the spec: [loc.js] is not part of the sources.  The
    specification has [locStart] and [locEnd] give the recorded start and end
    source positions of a node. *)
Definition locStart (n : MdNode) : nat := start_offset (position n).
Definition locEnd (n : MdNode) : nat := end_offset (position n).

(** [isAutolink]; [None] is a [node] that is [null] or [undefined]. *)
Definition isAutolink (node : option MdNode) : outcome bool :=
  match node with
  | None => Returns false
  | Some node =>
      if negb (jsstring_eqb (type node) (js "link"))
      then Returns false
      else
        match children node with
        | None => Throws
        | Some nodeChildren =>
            if negb (length nodeChildren =? 1)
            then Returns false
            else
              match nodeChildren with
              | child :: _ =>
                  Returns ((locStart node =? locStart child)
                           && (locEnd node =? locEnd child))
              | [] => Throws
              end
        end
  end.

(** The child spans what the node spans. *)
Definition samePositions (node child : MdNode) : Prop :=
  locStart node = locStart child /\ locEnd node = locEnd child.

(** ** The tree mapper *)

(** *** Objects and the heap

    [mapAst] copies objects and assigns to a property of the copy, so the
    model has a heap: objects and arrays live in cells, and values refer to
    them by location.  A new cell goes to the end of the heap. *)

Definition loc := nat.

Inductive val :=
| VUndefined
| VNull
| VBool (b : bool)
| VNumber (n : Z)
| VString (s : jsstring)
| VRef (l : loc).

(** An object: its [children] property, when it has one, and its other own
    enumerable properties in order. *)
Record object := {
  fields : list (jsstring * val);
  childrenProp : option val
}.

Inductive cell :=
| CObject (o : object)
| CArray (items : list val).

Definition heap := list cell.

Definition truthy (v : val) : bool :=
  match v with
  | VUndefined | VNull => false
  | VBool b => b
  | VNumber n => negb (Z.eqb n 0)
  | VString s => negb (isEmpty s)
  | VRef _ => true
  end.

Fixpoint store (h : heap) (l : loc) (c : cell) : heap :=
  match h, l with
  | [], _ => []
  | _ :: rest, O => c :: rest
  | x :: rest, S l' => x :: store rest l' c
  end.

(** The property name of an array index. *)
Definition indexKey (k : nat) : jsstring :=
  js (NilEmpty.string_of_uint (Nat.to_uint k)).

Fixpoint indexed (k : nat) (items : list val) : list (jsstring * val) :=
  match items with
  | [] => []
  | v :: rest => (indexKey k, v) :: indexed (S k) rest
  end.

Definition emptyObject : object := {| fields := []; childrenProp := None |}.

(** [{ ...v }]: the own enumerable properties of [v]; none for [undefined],
    [null], a boolean or a number. *)
Definition spread (h : heap) (v : val) : object :=
  match v with
  | VRef l =>
      match nth_error h l with
      | Some (CObject o) => o
      | Some (CArray items) =>
          {| fields := indexed 0 items; childrenProp := None |}
      | None => emptyObject
      end
  | VString s =>
      {| fields := indexed 0 (map (fun c => VString [c]) s);
         childrenProp := None |}
  | _ => emptyObject
  end.

(** [newNode.children = v] *)
Definition setChildren (h : heap) (newNode : loc) (v : val) : heap :=
  match nth_error h newNode with
  | Some (CObject o) =>
      store h newNode
            (CObject {| fields := fields o; childrenProp := Some v |})
  | _ => h
  end.

(** *** The handler and the record of its calls *)

(** The handler reads the heap, gets the node, its index and the stack of
    its parents, can make new objects, and returns the replacement.  The
    stack [[newNode, ...parentStack]] is a new array at each call, which
    [mapAst] never writes to: the model passes its items. *)
Definition Handler := heap -> val -> val -> list val -> list cell * val.

(** A call of the handler, for the proofs: its three arguments, where
    [mapAst] put the copy of what it returned, and the children [mapAst] then
    went through. *)
Record visit := {
  visitNode : val;
  visitIndex : val;
  visitStack : list val;
  visitCopy : loc;
  visitChildren : list val
}.

Definition state := (heap * list visit)%type.

(** A computation that may run out of fuel ([None]) or throw. *)
Definition bindF {A B : Type} (x : option (outcome A))
           (f : A -> option (outcome B)) : option (outcome B) :=
  match x with
  | Some (Returns a) => f a
  | Some Throws => Some Throws
  | None => None
  end.

Notation "' p <-- e ;; k" := (bindF e (fun p => k))
  (at level 61, p pattern, e at next level, right associativity).

(** [items.map(callback)], the new array apart. *)
Fixpoint mapItems
         (callback : state -> val -> val -> option (outcome (state * val)))
         (st : state) (items : list val) (index : nat)
  : option (outcome (state * list val)) :=
  match items with
  | [] => Some (Returns (st, []))
  | child :: more =>
      '(st1, v) <-- callback st child (VNumber (Z.of_nat index)) ;;
      '(st2, vs) <-- mapItems callback st1 more (S index) ;;
      Some (Returns (st2, v :: vs))
  end.

Section MapAst.

Variable handler : Handler.

Fixpoint preorder (fuel : nat) (st : state) (node index : val)
         (parentStack : list val) {struct fuel}
  : option (outcome (state * val)) :=
  match fuel with
  | O => None
  | S fuel' =>
      let '(h, log) := st in
      let '(made, replacement) := handler h node index parentStack in
      let h1 := h ++ made in
      let newNode := length h1 in
      let o := spread h1 replacement in
      let h2 := h1 ++ [CObject o] in
      let called items :=
        {| visitNode := node; visitIndex := index;
           visitStack := parentStack; visitCopy := newNode;
           visitChildren := items |} in
      match childrenProp o with
      | Some c =>
          if truthy c
          then
            match c with
            | VRef a =>
                match nth_error h2 a with
                | Some (CArray items) =>
                    '((h3, log3), mapped) <--
                      mapItems
                        (fun st child index =>
                           preorder fuel' st child index
                                    (VRef newNode :: parentStack))
                        (h2, log ++ [called items]) items 0 ;;
                    let newChildren := length h3 in
                    let h4 := h3 ++ [CArray mapped] in
                    Some (Returns
                            ((setChildren h4 newNode (VRef newChildren),
                              log3),
                             VRef newNode))
                | _ => Some Throws
                end
            | _ => Some Throws
            end
          else Some (Returns ((h2, log ++ [called []]), VRef newNode))
      | None => Some (Returns ((h2, log ++ [called []]), VRef newNode))
      end
  end.

Definition mapAst (fuel : nat) (h : heap) (ast : val)
  : option (outcome (state * val)) :=
  preorder fuel (h, []) ast VNull [].

End MapAst.

(** The handler that returns its node. *)
Definition identity : Handler := fun _ node _ _ => ([], node).

(** *** Trees in the heap *)

(** A tree of nodes: a node without children to go through (it has no
    [children] property, or one that is not truthy), or a node with
    children. *)
#[warnings="-register-all"]
Inductive tree :=
| Leaf (fs : list (jsstring * val)) (c : option val)
| Branch (fs : list (jsstring * val)) (kids : list tree).

Definition notTruthy (c : option val) : Prop :=
  match c with Some v => truthy v = false | None => True end.

(** [represents lo h v t]: in the heap [h], the value [v] is the root of
    the tree [t], and the objects and arrays of the tree are at locations
    from [lo] on. *)
#[warnings="-register-all"]
Inductive represents (lo : nat) (h : heap) : val -> tree -> Prop :=
| represents_leaf l fs c :
    lo <= l ->
    nth_error h l = Some (CObject {| fields := fs; childrenProp := c |}) ->
    notTruthy c ->
    represents lo h (VRef l) (Leaf fs c)
| represents_branch l a fs items kids :
    lo <= l -> lo <= a ->
    nth_error h l
    = Some (CObject {| fields := fs; childrenProp := Some (VRef a) |}) ->
    nth_error h a = Some (CArray items) ->
    Forall2 (represents lo h) items kids ->
    represents lo h (VRef l) (Branch fs kids).

Fixpoint height (t : tree) : nat :=
  match t with
  | Leaf _ _ => 1
  | Branch _ kids => S (fold_right (fun k m => Nat.max (height k) m) 0 kids)
  end.

(** The stack of a call is the copy of the parent and then the stack of the
    parent; [before] holds the calls made earlier. *)
Definition childVisit (before : list visit) (v : visit) : Prop :=
  exists p k,
    In p before
    /\ visitStack v = VRef (visitCopy p) :: visitStack p
    /\ visitIndex v = VNumber (Z.of_nat k)
    /\ nth_error (visitChildren p) k = Some (visitNode v).

Definition childVisits (before more : list visit) : Prop :=
  forall pre v post, more = pre ++ v :: post -> childVisit (before ++ pre) v.

(** A sample: a root with two children, the second with one child. *)
Definition sampleHeap : heap :=
  [ CObject {| fields := [(js "type", VString (js "root"))];
               childrenProp := Some (VRef 1) |};
    CArray [VRef 2; VRef 3];
    CObject {| fields := [(js "type", VString (js "text"))];
               childrenProp := None |};
    CObject {| fields := [(js "type", VString (js "link"))];
               childrenProp := Some (VRef 4) |};
    CArray [VRef 5];
    CObject {| fields := [(js "value", VString (js "x"))];
               childrenProp := Some VNull |} ].

Definition sampleTree : tree :=
  Branch [(js "type", VString (js "root"))]
         [ Leaf [(js "type", VString (js "text"))] None;
           Branch [(js "type", VString (js "link"))]
                  [ Leaf [(js "value", VString (js "x"))] (Some VNull) ] ].

(** [h'] keeps every cell of [h] as it is and can have more. *)
Definition extends (h h' : heap) : Prop := exists more, h' = h ++ more.

(** [childVisits], one call after the other. *)
Fixpoint childVisitsFrom (before more : list visit) : Prop :=
  match more with
  | [] => True
  | v :: rest => childVisit before v /\ childVisitsFrom (before ++ [v]) rest
  end.

(** What a call to [preorder] leaves: the heap it got with more cells
    after it, and the calls it got with its own and those of its
    descendants after them. *)
Definition preorderPost (st : state) (node index : val)
           (parentStack : list val) (st' : state) (r : val) : Prop :=
  extends (fst st) (fst st')
  /\ exists v more,
      snd st' = snd st ++ v :: more
      /\ visitNode v = node /\ visitIndex v = index
      /\ visitStack v = parentStack
      /\ r = VRef (visitCopy v) /\ length (fst st) <= visitCopy v
      /\ childVisitsFrom [v] more.

(** What [preorder] gives for the handler that returns its node, on a
    tree. *)
Definition copies (t : tree) : Prop :=
  forall fuel h log root index parentStack,
    represents 0 h root t -> height t <= fuel ->
    exists h' log' l,
      preorder identity fuel (h, log) root index parentStack
      = Some (Returns ((h', log'), VRef l))
      /\ extends h h'
      /\ represents (length h) h' (VRef l) t.

(** ** More vocabulary of the proofs *)

(** The nodes [splitText] can make from a text: a zero-width whitespace, a
    whitespace for a run of blanks of the text, a word for a run of the
    text without CJK characters and blanks, a word for a CJK character of the
    text. *)
Definition madeFrom (isCjk isK isPunctuation : char -> bool)
           (text : jsstring) (n : TextNode) : Prop :=
  n = whitespace []
  \/ (exists s, s <> [] /\ forallb isBlank s = true /\ incl s text
                /\ n = blankNode s)
  \/ (exists r, r <> [] /\ noneOf isCjk r = true /\ noneOf isBlank r = true
                /\ incl r text /\ n = nonCjkWord isPunctuation r)
  \/ (exists c, isCjk c = true /\ isBlank c = false /\ In c text
                /\ n = cjkWord isK isPunctuation [c]).

(** The number of nodes of a tree. *)
Fixpoint size (t : tree) : nat :=
  match t with
  | Leaf _ _ => 1
  | Branch _ kids => S (fold_right (fun k n => size k + n) 0 kids)
  end.

(** *** The calls of the handler in a walk from the root *)

(** The children [preorder] goes through at a node. *)
Definition childrenOf (h : heap) (node : val) : list val :=
  match node with
  | VRef l =>
      match nth_error h l with
      | Some (CObject o) =>
          match childrenProp o with
          | Some (VRef a) =>
              match nth_error h a with
              | Some (CArray items) => items
              | _ => []
              end
          | _ => []
          end
      | _ => []
      end
  | _ => []
  end.

Fixpoint eachChild (calls : val -> val -> list (val * val))
         (items : list val) (index : nat) : list (val * val) :=
  match items with
  | [] => []
  | child :: more =>
      calls child (VNumber (Z.of_nat index))
        ++ eachChild calls more (S index)
  end.

(** The nodes of the tree under [node] in the heap [h], each with its index
    among the children of its parent: the node, then what is under its first
    child, then what is under the second, and so on; [fuel] bounds the
    depth. *)
Fixpoint preorderCalls (h : heap) (fuel : nat) (node index : val)
  : list (val * val) :=
  match fuel with
  | O => []
  | S fuel' =>
      (node, index)
        :: eachChild (preorderCalls h fuel') (childrenOf h node) 0
  end.

Definition called (v : visit) : val * val := (visitNode v, visitIndex v).

(** With the handler that returns its node, [preorder] calls the handler
    for the nodes of a tree, one call for each, the node before what is
    under it and the children in their order, each with its index. *)
Definition visitsOnce (t : tree) : Prop :=
  forall fuel (h : heap) (log : list visit) root index parentStack,
    represents 0 h root t -> height t <= fuel ->
    exists h' more r,
      preorder identity fuel (h, log) root index parentStack
      = Some (Returns ((h', log ++ more), r))
      /\ extends h h'
      /\ length more = size t
      /\ map called more = preorderCalls h fuel root index.

(** What the outer loop does at an even index, whatever the index and the
    number of pieces: it goes through the pieces two by two. *)
Fixpoint walk (isCjk isK isPunctuation : char -> bool)
         (tokens : list jsstring) (nodes : list TextNode) : list TextNode :=
  match tokens with
  | [] => nodes
  | w :: more =>
      let nodes' := chunkNodes isCjk isK isPunctuation w nodes in
      match more with
      | [] => nodes'
      | s :: tl => walk isCjk isK isPunctuation tl (nodes' ++ [blankNode s])
      end
  end.

(** The string is empty or ends with a character that is not a blank. *)
Definition endsClean (a : jsstring) : Prop :=
  match at_last a with Some d => isBlank d = false | None => True end.

(** Nodes after which a word gets no zero-width whitespace: none, or nodes
    that end with a whitespace node. *)
Definition closed (nodes : list TextNode) : Prop :=
  match at_last nodes with
  | Some n => isWordNode n = false
  | None => True
  end.

(** ** [splitText] for any three regular expressions *)

(** [constants.evaluate.js] is not part of the sources, and the functions
    above take its three expressions as classes of code units.  Here they
    are what the source makes of them and no more: [cjkExec] is
    [new RegExp(`(${cjkPattern})`)] at the current index, for a pattern
    without groups of its own, so that the capture is the whole match, and
    the two others are the tests [punctuationRegex.test] and [kRegex.test]
    on a string.  A match can have any number of code units. *)
Module Pattern.
Section SplitText.

Variable cjkExec : matcher.
Variables punctuationRegex_test kRegex_test : jsstring -> bool.

(** [punctuationRegex.test(x)] for [x] a code unit of a string, or
    [undefined] when the string has none at that place. *)
Definition punctuationRegex_test_char (x : option char) : bool :=
  match x with
  | Some c => punctuationRegex_test [c]
  | None => punctuationRegex_test undefinedText
  end.

Definition nonCjkWord (innerToken : jsstring) : TextNode :=
  word innerToken KIND_NON_CJK
       (punctuationRegex_test_char (hd_error innerToken))
       (punctuationRegex_test_char (at_last innerToken)).

Definition cjkWord (innerToken : jsstring) : TextNode :=
  if punctuationRegex_test innerToken
  then word innerToken KIND_CJK_PUNCTUATION true true
  else word innerToken
            (if kRegex_test innerToken then KIND_K_LETTER
             else KIND_CJ_LETTER)
            false false.

(** The body of the inner [for] loop. *)
Definition innerStep (len innerIndex : nat) (innerToken : jsstring)
           (nodes : list TextNode) : list TextNode :=
  if ((innerIndex =? 0) || (innerIndex =? len - 1)) && isEmpty innerToken
  then nodes
  else if Nat.even innerIndex
       then if negb (isEmpty innerToken)
            then appendNode nodes (nonCjkWord innerToken)
            else nodes
       else appendNode nodes (cjkWord innerToken).

Fixpoint innerLoop (len innerIndex : nat) (innerTokens : list jsstring)
         (nodes : list TextNode) : list TextNode :=
  match innerTokens with
  | [] => nodes
  | innerToken :: more =>
      innerLoop len (S innerIndex) more
                (innerStep len innerIndex innerToken nodes)
  end.

(** The body of the outer [for] loop. *)
Definition outerStep (len index : nat) (token : jsstring)
           (nodes : list TextNode) : list TextNode :=
  if Nat.odd index
  then nodes ++ [whitespace (if hasNewline token then [NEWLINE]
                             else [SPACE])]
  else if ((index =? 0) || (index =? len - 1)) && isEmpty token
       then nodes
       else let innerTokens := split cjkExec token in
            innerLoop (length innerTokens) 0 innerTokens nodes.

Fixpoint outerLoop (len index : nat) (tokens : list jsstring)
         (nodes : list TextNode) : list TextNode :=
  match tokens with
  | [] => nodes
  | token :: more =>
      outerLoop len (S index) more (outerStep len index token nodes)
  end.

Definition buildNodes (text : jsstring) : list TextNode :=
  let tokens := split whitespaceExec text in
  outerLoop (length tokens) 0 tokens [].

(** [splitText]; [production] is [process.env.NODE_ENV === "production"],
    and [None] is a failed assertion. *)
Definition splitText (production : bool) (text : jsstring)
  : option (list TextNode) :=
  let nodes := buildNodes text in
  if negb production && negb (assertNoConsecutiveWhitespace nodes)
  then None
  else Some nodes.

(** What the outer loop does with a piece at an even index. *)
Definition chunkNodes (token : jsstring) (nodes : list TextNode)
  : list TextNode :=
  let innerTokens := split cjkExec token in
  innerLoop (length innerTokens) 0 innerTokens nodes.

End SplitText.
End Pattern.

(** Modelled from the spec: [constants.evaluate.js] is missing, and the
    specification builds its tables from Unicode range data, [cjkPattern]
    matching a character of the CJK ranges.  This sample is a pattern for
    the characters of [Sample.isCjk] and for the ideographs of the planes 2
    and 3 of Unicode (U+20000 to U+2FFFF, the extensions B and later of the
    unified ideographs).  In a string such an ideograph is two code units, a
    high surrogate from D840 to D87F and a low surrogate from DC00 to DFFF,
    and an expression without the [u] flag, as the one of [splitText],
    matches it as these two code units. *)
Module Supplementary.
Definition isHighSurrogate (c : char) : bool := Sample.inRange 55360 55423 c.
Definition isLowSurrogate (c : char) : bool := Sample.inRange 56320 57343 c.
Definition cjkExec : matcher := fun s =>
  match s with
  | c :: rest =>
      if Sample.isCjk c then Some ([c], rest)
      else match rest with
           | d :: rest' =>
               if isHighSurrogate c && isLowSurrogate d
               then Some ([c; d], rest')
               else None
           | [] => None
           end
  | [] => None
  end.
Definition splitText :=
  Pattern.splitText cjkExec (existsb Sample.isPunctuation)
                    (existsb Sample.isK).
End Supplementary.

(** U+20BB7, an ideograph of the extension B, as a string. *)
Definition yoshi : jsstring := [55362; 57271]%N.

(** *** The pieces of a text *)

(** A match of the expression is a part of the string at the index, and not
    an empty one. *)
Definition consumes (exec : matcher) : Prop :=
  forall s m after, exec s = Some (m, after) -> m <> [] /\ s = m ++ after.


(** A run of blanks, a run between two matches, a match. *)
Inductive piece :=
| Blanks (s : jsstring)
| Run (r : jsstring)
| Match (m : jsstring).

(** No match starts in [r] when [rest] follows it. *)
Definition unmatched (exec : matcher) (r rest : jsstring) : Prop :=
  forall u c v, r = u ++ c :: v -> exec (c :: v ++ rest) = None.

(** A string without blanks, cut from the left into matches of the
    expression and maximal runs without a match: a run is not empty, no
    match starts in it, and it stops at the end of the string or where a
    match starts. *)
Inductive chunkPieces (exec : matcher) : jsstring -> list piece -> Prop :=
| chunkPieces_end : chunkPieces exec [] []
| chunkPieces_match m rest ps :
    exec (m ++ rest) = Some (m, rest) ->
    chunkPieces exec rest ps ->
    chunkPieces exec (m ++ rest) (Match m :: ps)
| chunkPieces_run r rest ps :
    r <> [] -> unmatched exec r rest ->
    (rest <> [] -> exec rest <> None) ->
    chunkPieces exec rest ps ->
    chunkPieces exec (r ++ rest) (Run r :: ps).

(** A text cut into maximal runs of blanks and, between them, strings
    without blanks, each cut as above. *)
Inductive textPieces (exec : matcher) : jsstring -> list piece -> Prop :=
| textPieces_last chunk ps :
    noneOf isBlank chunk = true ->
    chunkPieces exec chunk ps ->
    textPieces exec chunk ps
| textPieces_blanks chunk s rest ps qs :
    noneOf isBlank chunk = true ->
    chunkPieces exec chunk ps ->
    s <> [] -> forallb isBlank s = true ->
    startsWith isBlank rest = false ->
    textPieces exec rest qs ->
    textPieces exec (chunk ++ s ++ rest) (ps ++ Blanks s :: qs).

Definition isZeroWidth (n : TextNode) : bool :=
  match n with
  | whitespace v => isEmpty v
  | word _ _ _ _ => false
  end.

(** The nodes other than the zero-width whitespace nodes. *)
Definition solid (nodes : list TextNode) : list TextNode :=
  filter (fun n => negb (isZeroWidth n)) nodes.


(** The pieces of the tokens of [token.split(cjkPattern)]: the tokens at
    the even places are the runs, which can be empty, and the others the
    matches. *)
Fixpoint tokenPieces (innerTokens : list jsstring) : list piece :=
  match innerTokens with
  | [] => []
  | r :: more =>
      (if isEmpty r then [] else [Run r])
        ++ match more with
           | [] => []
           | m :: tl => Match m :: tokenPieces tl
           end
  end.

(** The captures among the tokens are not empty. *)
Fixpoint capturesFull (innerTokens : list jsstring) : Prop :=
  match innerTokens with
  | _ :: m :: tl => m <> [] /\ capturesFull tl
  | _ => True
  end.

(** The node [splitText] makes of a piece. *)
Definition pieceNode (punctuationRegex_test kRegex_test : jsstring -> bool)
           (p : piece) : TextNode :=
  match p with
  | Blanks s => blankNode s
  | Run r => Pattern.nonCjkWord punctuationRegex_test r
  | Match m => Pattern.cjkWord punctuationRegex_test kRegex_test m
  end.

(** A word node whose kind and flags are what the two tests give for its
    value: a non-cjk word has the tests of its first and of its last code
    unit as its flags; another word is a cjk-punctuation word with both flags
    set when its value passes [punctuationRegex], and otherwise a k-letter or
    a cj-letter word, as its value passes [kRegex] or not, with no flag
    set. *)
Definition classified (punctuationRegex_test kRegex_test : jsstring -> bool)
           (n : TextNode) : Prop :=
  match n with
  | whitespace _ => True
  | word v KIND_NON_CJK l r =>
      exists c d,
        hd_error v = Some c /\ at_last v = Some d
        /\ l = punctuationRegex_test [c] /\ r = punctuationRegex_test [d]
  | word v KIND_CJK_PUNCTUATION l r =>
      l = true /\ r = true /\ punctuationRegex_test v = true
  | word v KIND_K_LETTER l r =>
      l = false /\ r = false
      /\ punctuationRegex_test v = false /\ kRegex_test v = true
  | word v KIND_CJ_LETTER l r =>
      l = false /\ r = false
      /\ punctuationRegex_test v = false /\ kRegex_test v = false
  end.

(** Pieces of a string without blanks. *)
Definition wordPieces (ps : list piece) : Prop :=
  Forall (fun p => match p with Blanks _ => False | _ => True end) ps.

(** The last node, if any, is a word node. *)
Definition endsWithWord (nodes : list TextNode) : Prop :=
  match at_last nodes with
  | Some n => isWordNode n = true
  | None => True
  end.
(** ** Lemmas on lists and strings *)

Lemma at_last_snoc (A : Type) (l : list A) (x : A) :
  at_last (l ++ [x]) = Some x.
Proof.
  induction l as [|a l IH]; simpl; [reflexivity|].
  destruct (l ++ [x]) eqn:E; [destruct l; discriminate|exact IH].
Qed.

Lemma at_last_nil_inv (A : Type) (l : list A) : at_last l = None -> l = [].
Proof.
  destruct l as [|a l] using rev_ind; [reflexivity|].
  rewrite at_last_snoc. discriminate.
Qed.

Lemma at_last_Some_inv (A : Type) (l : list A) (x : A) :
  at_last l = Some x -> exists l', l = l' ++ [x].
Proof.
  destruct l as [|a l] using rev_ind; [discriminate|].
  rewrite at_last_snoc. intros [= ->]. now exists l.
Qed.

Lemma isEmpty_true (s : jsstring) : isEmpty s = true <-> s = [].
Proof. destruct s; simpl; split; congruence. Qed.

Lemma isEmpty_false (s : jsstring) : isEmpty s = false <-> s <> [].
Proof. destruct s; simpl; split; congruence. Qed.

Lemma jsstring_eqb_eq (a b : jsstring) : jsstring_eqb a b = true <-> a = b.
Proof.
  unfold jsstring_eqb. destruct (list_eq_dec N.eq_dec a b); split; congruence.
Qed.

Lemma takeWhile_dropWhile p s : takeWhile p s ++ dropWhile p s = s.
Proof.
  induction s as [|c s IH]; simpl; [reflexivity|].
  destruct (p c); simpl; [now rewrite IH|reflexivity].
Qed.

Lemma takeWhile_all p s : forallb p (takeWhile p s) = true.
Proof.
  induction s as [|c s IH]; simpl; [reflexivity|].
  destruct (p c) eqn:E; simpl; [now rewrite E|reflexivity].
Qed.

Lemma dropWhile_head p s :
  match dropWhile p s with c :: _ => p c = false | [] => True end.
Proof.
  induction s as [|c s IH]; simpl; [exact I|].
  destruct (p c) eqn:E; [exact IH|exact E].
Qed.

Lemma dropWhile_length p s : length (dropWhile p s) <= length s.
Proof.
  induction s as [|c s IH]; simpl; [lia|]. destruct (p c); simpl; lia.
Qed.

Lemma takeWhile_forallb p s : forallb p s = true -> takeWhile p s = s.
Proof.
  induction s as [|c s IH]; simpl; [reflexivity|].
  destruct (p c); simpl; [intros H; now rewrite IH|discriminate].
Qed.

Lemma dropWhile_forallb p s : forallb p s = true -> dropWhile p s = [].
Proof.
  induction s as [|c s IH]; simpl; [reflexivity|].
  destruct (p c); simpl; [exact IH|discriminate].
Qed.

(** ** The two splits *)


Lemma whitespaceExec_sound : sound whitespaceExec.
Proof.
  intros s captured after. unfold whitespaceExec.
  destruct (takeWhile isBlank s) eqn:E; [discriminate|].
  intros [= <- <-]. rewrite <- E. symmetry. apply takeWhile_dropWhile.
Qed.

Lemma cjkExec_sound isCjk : sound (cjkExec isCjk).
Proof.
  intros [|c s] captured after; simpl; [discriminate|].
  destruct (isCjk c); [|discriminate]. now intros [= <- <-].
Qed.

(** The pieces of a split, captures included, make up the string. *)
Lemma splitLoop_concat exec (Hexec : sound exec) fuel :
  forall pending rest,
    concat (splitLoop exec fuel pending rest) = pending ++ rest.
Proof.
  induction fuel as [|fuel IH]; intros pending rest; simpl.
  - now rewrite app_nil_r.
  - destruct rest as [|c rest'].
    + simpl. now rewrite !app_nil_r.
    + destruct (exec (c :: rest')) as [[captured after]|] eqn:E.
      * destruct (isEmpty captured && isEmpty pending).
        -- rewrite IH, <- app_assoc. reflexivity.
        -- simpl. rewrite IH. simpl. now rewrite (Hexec _ _ _ E).
      * rewrite IH, <- app_assoc. reflexivity.
Qed.

Lemma split_concat exec (Hexec : sound exec) str :
  (str = [] -> exec [] = None) -> concat (split exec str) = str.
Proof.
  intros Hnil. destruct str as [|c str]; simpl.
  - now rewrite Hnil.
  - change (concat (splitLoop exec (2 * length (c :: str)) [] (c :: str))
            = c :: str).
    now rewrite splitLoop_concat.
Qed.


Lemma noneOf_snoc p s c :
  noneOf p s = true -> p c = false -> noneOf p (s ++ [c]) = true.
Proof.
  unfold noneOf. intros Hs Hc. rewrite forallb_app, Hs. simpl. now rewrite Hc.
Qed.



Lemma splitLoop_blankSplit fuel :
  forall first pending rest,
    length rest <= fuel ->
    noneOf isBlank pending = true ->
    (first = false -> pending = [] -> startsWith isBlank rest = false) ->
    blankSplit first (splitLoop whitespaceExec fuel pending rest).
Proof.
  induction fuel as [|fuel IH]; intros first pending rest Hlen Hp Hfirst.
  - destruct rest; [|simpl in Hlen; lia]. simpl. rewrite app_nil_r.
    now constructor.
  - destruct rest as [|c rest']; [now constructor|].
    simpl in Hlen. cbn [splitLoop]. unfold whitespaceExec.
    cbn [takeWhile dropWhile]. destruct (isBlank c) eqn:Ec.
    + cbn [isEmpty andb]. constructor.
      * exact Hp.
      * intros Hf Hnil. specialize (Hfirst Hf Hnil). simpl in Hfirst.
        congruence.
      * discriminate.
      * simpl. rewrite Ec. apply takeWhile_all.
      * apply IH.
        -- pose proof (dropWhile_length isBlank rest'). lia.
        -- reflexivity.
        -- intros _ _. pose proof (dropWhile_head isBlank rest') as H.
           destruct (dropWhile isBlank rest'); [reflexivity|exact H].
    + apply IH.
      * lia.
      * now apply noneOf_snoc.
      * intros _ H. destruct pending; discriminate.
Qed.

Lemma split_blankSplit text : blankSplit true (split whitespaceExec text).
Proof.
  destruct text as [|c text].
  - simpl. now constructor.
  - unfold split. apply splitLoop_blankSplit.
    + simpl. lia.
    + reflexivity.
    + discriminate.
Qed.

Section Shapes.

Variables isCjk isK isPunctuation : char -> bool.


Lemma splitLoop_cjkSplit fuel :
  forall pending rest,
    length rest <= fuel ->
    noneOf isCjk pending = true ->
    cjkSplit isCjk (splitLoop (cjkExec isCjk) fuel pending rest).
Proof.
  induction fuel as [|fuel IH]; intros pending rest Hlen Hp.
  - destruct rest; [|simpl in Hlen; lia]. simpl. rewrite app_nil_r.
    now constructor.
  - destruct rest as [|c rest']; [now constructor|].
    simpl in Hlen. cbn [splitLoop cjkExec]. destruct (isCjk c) eqn:Ec.
    + cbn [isEmpty andb]. constructor; [exact Hp|exact Ec|].
      apply IH; [lia|reflexivity].
    + apply IH; [lia|now apply noneOf_snoc].
Qed.

Lemma split_cjkSplit token :
  cjkSplit isCjk (split (cjkExec isCjk) token).
Proof.
  destruct token as [|c token].
  - simpl. now constructor.
  - unfold split. apply splitLoop_cjkSplit; [simpl; lia|reflexivity].
Qed.

Lemma split_cjk_concat token : concat (split (cjkExec isCjk) token) = token.
Proof. apply split_concat; [apply cjkExec_sound|reflexivity]. Qed.

End Shapes.

Lemma split_blank_concat text : concat (split whitespaceExec text) = text.
Proof. apply split_concat; [apply whitespaceExec_sound|reflexivity]. Qed.

(** ** The output of [splitText] is accepted by the automaton *)


Section Invariants.

Variables isCjk isK isPunctuation : char -> bool.

Let step := step isCjk isK isPunctuation.
Let run := run isCjk isK isPunctuation.
Let wellFormedWord := wellFormedWord isCjk isK isPunctuation.
Let innerStep := innerStep isK isPunctuation.
Let innerLoop := innerLoop isK isPunctuation.
Let outerStep := outerStep isCjk isK isPunctuation.
Let outerLoop := outerLoop isCjk isK isPunctuation.
Let nonCjkWord := nonCjkWord isPunctuation.
Let cjkWord := cjkWord isK isPunctuation.
Let chunkNodes := chunkNodes isCjk isK isPunctuation.


Lemma innerStep_even len idx tok nodes :
  Nat.even idx = true ->
  innerStep len idx tok nodes
  = if isEmpty tok then nodes else appendNode nodes (nonCjkWord tok).
Proof.
  intros E. unfold innerStep, innerStep_def. rewrite E.
  destruct (isEmpty tok); simpl.
  - now destruct ((idx =? 0) || (idx =? len - 1)).
  - now rewrite andb_false_r.
Qed.

Lemma innerStep_odd len idx tok nodes :
  Nat.even idx = false -> tok <> [] ->
  innerStep len idx tok nodes = appendNode nodes (cjkWord tok).
Proof.
  intros E Hne. unfold innerStep, innerStep_def. rewrite E.
  apply isEmpty_false in Hne. rewrite Hne. now rewrite andb_false_r.
Qed.

Lemma outerStep_even len idx tok nodes :
  Nat.even idx = true -> outerStep len idx tok nodes = chunkNodes tok nodes.
Proof.
  intros E. unfold outerStep, outerStep_def.
  rewrite <- Nat.negb_even, E. simpl.
  destruct (((idx =? 0) || (idx =? len - 1)) && isEmpty tok) eqn:C;
    [|reflexivity].
  apply andb_prop in C. destruct C as [_ C]. apply isEmpty_true in C.
  subst tok. reflexivity.
Qed.

Lemma outerStep_odd len idx tok nodes :
  Nat.even idx = false ->
  outerStep len idx tok nodes = nodes ++ [blankNode tok].
Proof.
  intros E. unfold outerStep, outerStep_def.
  now rewrite <- Nat.negb_even, E.
Qed.

Lemma even_SS n : Nat.even (S (S n)) = Nat.even n.
Proof. reflexivity. Qed.

Lemma even_S_false n : Nat.even n = true -> Nat.even (S n) = false.
Proof. rewrite Nat.even_succ, <- Nat.negb_even. now intros ->. Qed.

Lemma run_app t l1 l2 :
  run t (l1 ++ l2)
  = match run t l1 with Some t' => run t' l2 | None => None end.
Proof.
  revert t. induction l1 as [|a l1 IH]; intros t; simpl; [reflexivity|].
  unfold run in *. simpl. destruct (step_def _ _ _ t a); [apply IH|].
  reflexivity.
Qed.

Lemma run_snoc_inv s l x t :
  run s (l ++ [x]) = Some t ->
  exists t0, run s l = Some t0 /\ step t0 x = Some t.
Proof.
  rewrite run_app. destruct (run s l) as [t0|]; [|discriminate].
  intros H. exists t0. split; [reflexivity|].
  unfold run in H. simpl in H. fold step in H.
  now destruct (step t0 x).
Qed.

Lemma wellFormedWord_word n : wellFormedWord n = true -> isWordNode n = true.
Proof. destruct n; [discriminate|reflexivity]. Qed.

Lemma step_inv t0 x t :
  step t0 x = Some t ->
  (t = AfterSpace /\ isWordNode x = false)
  \/ (t = AfterWord x /\ wellFormedWord x = true)
  \/ (exists w, t = AfterBreak w /\ x = whitespace [] /\ t0 = AfterWord w).
Proof.
  unfold step, step_def. destruct x as [v|v k l r].
  - destruct (isEmpty v) eqn:E.
    + apply isEmpty_true in E. subst v.
      destruct t0; try discriminate. intros [= <-]. right. right. eauto.
    + destruct (_ || _); [|discriminate].
      destruct t0; try discriminate; intros [= <-]; now left.
  - fold wellFormedWord. destruct (wellFormedWord (word v k l r)) eqn:W;
      [|discriminate].
    destruct t0; try (intros [= <-]; right; left; now split).
    + destruct (_ && _); [|discriminate].
      intros [= <-]; right; left; now split.
    + destruct (_ && _); [|discriminate].
      intros [= <-]; right; left; now split.
Qed.

Lemma run_nil_inv s t : run s [] = Some t -> t = s.
Proof. now intros [= ->]. Qed.

Lemma run_cons t n l :
  run t (n :: l)
  = match step t n with Some t' => run t' l | None => None end.
Proof. reflexivity. Qed.

Lemma step_word_fresh t n :
  t = AtStart \/ t = AfterSpace -> wellFormedWord n = true ->
  step t n = Some (AfterWord n).
Proof.
  intros Ht Hwf. unfold step, step_def. destruct n; [discriminate|].
  fold wellFormedWord. rewrite Hwf. now destruct Ht as [-> | ->].
Qed.

Lemma step_word_after_word w n :
  wellFormedWord n = true -> needsBreak w n = false ->
  bothNonCjk w n = false ->
  step (AfterWord w) n = Some (AfterWord n).
Proof.
  intros Hwf Hnb Hb. unfold step, step_def. destruct n; [discriminate|].
  fold wellFormedWord. now rewrite Hwf, Hnb, Hb.
Qed.

Lemma step_word_after_break w n :
  wellFormedWord n = true -> needsBreak w n = true ->
  bothNonCjk w n = false ->
  step (AfterBreak w) n = Some (AfterWord n).
Proof.
  intros Hwf Hnb Hb. unfold step, step_def. destruct n; [discriminate|].
  fold wellFormedWord. now rewrite Hwf, Hnb, Hb.
Qed.

(** [appendNode] keeps the nodes well formed. *)
Lemma appendNode_run nodes n t :
  run AtStart nodes = Some t ->
  (forall w, t <> AfterBreak w) ->
  wellFormedWord n = true ->
  (forall w, t = AfterWord w -> bothNonCjk w n = false) ->
  run AtStart (appendNode nodes n) = Some (AfterWord n).
Proof.
  intros Hrun Hnb Hwf Hboth. unfold appendNode.
  destruct nodes as [|x l] using rev_ind.
  - cbn [at_last app]. apply run_nil_inv in Hrun. subst t.
    rewrite run_cons, step_word_fresh; auto.
  - clear IHl. rewrite at_last_snoc.
    destruct (run_snoc_inv _ _ _ Hrun) as (t0 & H0 & Hstep).
    destruct (step_inv _ _ Hstep) as [[-> Hx] | [[-> Hx] | (w & -> & _)]].
    + assert (needsBreak x n = false) as ->.
      { unfold needsBreak. now rewrite Hx. }
      rewrite run_app, Hrun. cbv beta iota.
      rewrite run_cons, step_word_fresh; auto.
    + destruct (needsBreak x n) eqn:Enb.
      * do 2 rewrite run_app. rewrite Hrun. cbv beta iota.
        rewrite run_cons.
        change (step (AfterWord x) (whitespace []))
          with (Some (AfterBreak x)).
        cbv beta iota. change (run (AfterBreak x) []) with (Some (AfterBreak x)).
        cbv beta iota. rewrite run_cons, step_word_after_break; auto.
      * rewrite run_app, Hrun. cbv beta iota.
        rewrite run_cons, step_word_after_word; auto.
    + now destruct (Hnb w).
Qed.

Lemma noneOf_concat p (l : list jsstring) :
  noneOf p (concat l) = forallb (noneOf p) l.
Proof.
  induction l as [|a l IH]; simpl; [reflexivity|].
  unfold noneOf in *. now rewrite forallb_app, IH.
Qed.

Lemma wellFormed_nonCjkWord r :
  r <> [] -> noneOf isCjk r = true -> noneOf isBlank r = true ->
  wellFormedWord (nonCjkWord r) = true.
Proof.
  intros Hne Hc Hb. unfold wellFormedWord, wellFormedWord_def.
  unfold nonCjkWord, nonCjkWord_def.
  apply isEmpty_false in Hne. rewrite Hne. cbn [negb andb].
  match goal with |- context [TextNode_eq_dec ?a ?b] =>
    destruct (TextNode_eq_dec a b) as [_|N]; [|now destruct N] end.
  rewrite andb_true_r. unfold noneOf in *.
  rewrite forallb_forall in *. intros c Hin.
  now rewrite (Hc c Hin), (Hb c Hin).
Qed.

Lemma kind_cjkWord tok : kind (cjkWord tok) <> Some KIND_NON_CJK.
Proof.
  unfold cjkWord, cjkWord_def.
  destruct (punctuationRegex_test isPunctuation tok); simpl;
    [discriminate|].
  destruct (kRegex_test isK tok); discriminate.
Qed.

Lemma wellFormed_cjkWord c :
  isCjk c = true -> wellFormedWord (cjkWord [c]) = true.
Proof.
  intros Hc. pose proof (kind_cjkWord [c]) as Hk.
  assert (value (cjkWord [c]) = [c]) as Hv.
  { unfold cjkWord, cjkWord_def.
    destruct (punctuationRegex_test isPunctuation [c]); reflexivity. }
  assert (isWordNode (cjkWord [c]) = true) as Hw.
  { unfold cjkWord, cjkWord_def.
    destruct (punctuationRegex_test isPunctuation [c]); reflexivity. }
  remember (cjkWord [c]) as n eqn:E.
  unfold wellFormedWord, wellFormedWord_def.
  destruct n as [v|v k l r]; [discriminate|].
  cbn [value] in Hv. subst v. rewrite Hc. fold cjkWord. rewrite <- E.
  destruct k; [now destruct Hk| | |];
    (destruct (TextNode_eq_dec _ _) as [_|N]; [reflexivity|now destruct N]).
Qed.

Lemma bothNonCjk_left w n :
  kind w <> Some KIND_NON_CJK -> bothNonCjk w n = false.
Proof.
  unfold bothNonCjk. destruct (kind w) as [[]|]; try reflexivity.
  now intros [].
Qed.

Lemma bothNonCjk_right w n :
  kind n <> Some KIND_NON_CJK -> bothNonCjk w n = false.
Proof.
  unfold bothNonCjk.
  destruct (kind w) as [[]|], (kind n) as [[]|]; try reflexivity.
  now intros [].
Qed.


Lemma innerStep_run_even len idx r nodes t :
  Nat.even idx = true ->
  noneOf isCjk r = true -> noneOf isBlank r = true ->
  run AtStart nodes = Some t -> beforeRun t ->
  exists t', run AtStart (innerStep len idx r nodes) = Some t'
             /\ ((t' = AfterWord (nonCjkWord r) /\ r <> [])
                 \/ (t' = t /\ r = [])).
Proof.
  intros E Hc Hb Hrun Ht. rewrite innerStep_even by exact E.
  destruct r as [|c r]; [exists t; cbn [isEmpty]; auto|].
  cbn [isEmpty]. eexists. split; [|left; split; [reflexivity|discriminate]].
  apply appendNode_run with (t := t); auto.
  - intros w ->. destruct Ht as [Ht|[Ht|(w' & Ht & _)]]; discriminate.
  - apply wellFormed_nonCjkWord; [discriminate|exact Hc|exact Hb].
  - intros w ->. destruct Ht as [Ht|[Ht|(w' & [= <-] & Hk)]];
      try discriminate.
    now apply bothNonCjk_left.
Qed.

Lemma innerLoop_run its :
  cjkSplit isCjk its ->
  forall len idx nodes t,
    forallb (noneOf isBlank) its = true ->
    Nat.even idx = true ->
    run AtStart nodes = Some t -> beforeRun t ->
    exists t', run AtStart (innerLoop len idx its nodes) = Some t'
               /\ ((exists w, t' = AfterWord w)
                   \/ (t' = t /\ concat its = [])).
Proof.
  induction 1 as [r Hr | r c tl Hr Hc Htl IH];
    intros len idx nodes t Hb E Hrun Ht.
  - cbn [forallb] in Hb. apply andb_prop in Hb. destruct Hb as [Hb _].
    destruct (@innerStep_run_even len idx r nodes t E Hr Hb Hrun Ht)
      as (t' & Hrun' & [[-> _]|[-> ->]]).
    + exists (AfterWord (nonCjkWord r)). split; [exact Hrun'|]. left. eauto.
    + exists t. split; [exact Hrun'|]. now right.
  - cbn [forallb] in Hb. apply andb_prop in Hb. destruct Hb as [Hb Hb'].
    apply andb_prop in Hb'. destruct Hb' as [_ Hb'].
    destruct (@innerStep_run_even len idx r nodes t E Hr Hb Hrun Ht)
      as (t1 & Hrun1 & Ht1).
    cbn [innerLoop_def innerLoop].
    fold innerStep. fold innerLoop.
    rewrite (@innerStep_odd len (S idx) [c]);
      [|now apply even_S_false|discriminate].
    assert (run AtStart (appendNode (innerStep len idx r nodes) (cjkWord [c]))
            = Some (AfterWord (cjkWord [c]))) as Hrun2.
    { apply appendNode_run with (t := t1); auto.
      - intros w Hw. subst t1.
        destruct Ht1 as [[? _]|[Ht1 _]]; [discriminate|]. subst t.
        destruct Ht as [Ht|[Ht|(w' & Ht & _)]]; discriminate.
      - now apply wellFormed_cjkWord.
      - intros w _. apply bothNonCjk_right, kind_cjkWord. }
    destruct (IH len (S (S idx)) _ _ Hb' E Hrun2) as (t' & Hrun' & Ht').
    { right. right. eexists. split; [reflexivity|apply kind_cjkWord]. }
    exists t'. split; [exact Hrun'|]. left.
    destruct Ht' as [Ht'|[-> _]]; [exact Ht'|eauto].
Qed.

Lemma chunkNodes_run token nodes t :
  noneOf isBlank token = true ->
  run AtStart nodes = Some t -> t = AtStart \/ t = AfterSpace ->
  exists t', run AtStart (chunkNodes token nodes) = Some t'
             /\ ((exists w, t' = AfterWord w) \/ (t' = t /\ token = [])).
Proof.
  intros Hb Hrun Ht. unfold chunkNodes.
  destruct (@innerLoop_run (split (cjkExec isCjk) token)
              (split_cjkSplit isCjk token)
              (length (split (cjkExec isCjk) token)) 0 nodes t)
    as (t' & Hrun' & Ht'); auto.
  - rewrite <- noneOf_concat, split_cjk_concat. exact Hb.
  - destruct Ht as [->| ->]; [now left|right; now left].
  - exists t'. split; [exact Hrun'|].
    rewrite split_cjk_concat in Ht'. exact Ht'.
Qed.

Lemma blankNode_step t s :
  t = AtStart \/ (exists w, t = AfterWord w) ->
  step t (blankNode s) = Some AfterSpace.
Proof.
  intros Ht. unfold blankNode, step, step_def.
  destruct (hasNewline s); destruct Ht as [->|[w ->]]; reflexivity.
Qed.

Lemma outerLoop_run first tokens :
  blankSplit first tokens ->
  forall len idx nodes t,
    Nat.even idx = true ->
    run AtStart nodes = Some t ->
    (if first then t = AtStart else t = AfterSpace) ->
    accepted isCjk isK isPunctuation (outerLoop len idx tokens nodes).
Proof.
  induction 1 as [first w Hw | first w s tl Hw Hne Hs Hsb Htl IH];
    intros len idx nodes t E Hrun Ht.
  - cbn [outerLoop_def outerLoop]. fold outerStep.
    rewrite outerStep_even by exact E.
    destruct (@chunkNodes_run w nodes t Hw Hrun) as (t' & Hrun' & Ht').
    { destruct first; auto. }
    exists t'. split; [exact Hrun'|].
    intros w' Hw'. subst t'.
    destruct Ht' as [[? ?]|[Ht' _]]; [discriminate|]. subst t.
    destruct first; discriminate.
  - cbn [outerLoop_def outerLoop]. fold outerStep. fold outerLoop.
    change (outerStep_def isCjk isK isPunctuation) with outerStep.
    rewrite (@outerStep_even len idx w nodes E).
    rewrite (@outerStep_odd len (S idx) s _ (even_S_false _ E)).
    destruct (@chunkNodes_run w nodes t Hw Hrun) as (t' & Hrun' & Ht').
    { destruct first; auto. }
    apply IH with (t := AfterSpace); [exact E| |reflexivity].
    rewrite run_app, Hrun'. cbv beta iota. rewrite run_cons.
    rewrite blankNode_step; [reflexivity|].
    destruct Ht' as [Ht'|[-> ->]]; [now right|].
    destruct first; [now left|now destruct Hne].
Qed.

Theorem buildNodes_accepted text :
  accepted isCjk isK isPunctuation
           (buildNodes isCjk isK isPunctuation text).
Proof.
  unfold buildNodes.
  apply outerLoop_run with (first := true) (t := AtStart);
    [apply split_blankSplit|reflexivity|reflexivity|reflexivity].
Qed.

(** *** What acceptance gives *)

Lemma run_split s pre x post t :
  run s (pre ++ x :: post) = Some t ->
  exists t1 t2, run s pre = Some t1 /\ step t1 x = Some t2
                /\ run t2 post = Some t.
Proof.
  rewrite run_app. destruct (run s pre) as [t1|]; [|discriminate].
  rewrite run_cons. destruct (step t1 x) as [t2|] eqn:E; [|discriminate].
  intros H. exists t1, t2. auto.
Qed.

Lemma run_assert l :
  forall s t, run s l = Some t -> assertNoConsecutiveWhitespace l = true.
Proof.
  induction l as [|a l IH]; intros s t H; [reflexivity|].
  rewrite run_cons in H. destruct (step s a) as [t1|] eqn:Ea; [|discriminate].
  destruct l as [|b l]; [reflexivity|].
  change (assertNoConsecutiveWhitespace (a :: b :: l))
    with (negb (isWhitespaceNode a && isWhitespaceNode b)
          && assertNoConsecutiveWhitespace (b :: l)).
  rewrite (IH _ _ H), andb_true_r.
  rewrite run_cons in H. destruct (step t1 b) as [t2|] eqn:Eb; [|discriminate].
  destruct (step_inv _ _ Ea) as [[-> Ha]|[[-> Ha]|(w & -> & -> & ->)]].
  - destruct b as [v|]; [|now rewrite andb_false_r].
    unfold step, step_def in Eb.
    destruct (isEmpty v); [discriminate|]. now destruct (_ || _).
  - apply wellFormedWord_word in Ha. destruct a; [discriminate|reflexivity].
  - destruct b as [v|]; [|now rewrite andb_false_r].
    unfold step, step_def in Eb.
    destruct (isEmpty v); [discriminate|]. now destruct (_ || _).
Qed.

Lemma run_word_last s l w :
  run s l = Some (AfterWord w) -> s <> AfterWord w ->
  exists l', l = l' ++ [w] /\ isWordNode w = true.
Proof.
  destruct l as [|x l] using rev_ind.
  - intros [= ->] N. now destruct N.
  - intros H _. destruct (run_snoc_inv _ _ _ H) as (t0 & _ & Hstep).
    destruct (step_inv _ _ Hstep) as [[? _]|[[Ew W]|(? & ? & _)]];
      try discriminate.
    injection Ew as Ew. subst w. exists l.
    split; [reflexivity|now apply wellFormedWord_word in W].
Qed.

Lemma run_after_break w l t :
  run (AfterBreak w) l = Some t -> (forall w', t <> AfterBreak w') ->
  exists b l', l = b :: l' /\ isWordNode b = true.
Proof.
  destruct l as [|b l].
  - intros [= <-] N. now destruct (N w).
  - rewrite run_cons. intros H _. exists b, l. split; [reflexivity|].
    destruct b as [v|]; [|reflexivity].
    unfold step, step_def in H.
    destruct (isEmpty v); [discriminate|]. now destruct (_ || _).
Qed.

Lemma step_word_pair t0 a b t1 t2 :
  step t0 a = Some t1 -> step t1 b = Some t2 ->
  isWordNode a = true -> isWordNode b = true ->
  needsBreak a b = false /\ bothNonCjk a b = false.
Proof.
  intros Ha Hb Wa Wb.
  destruct (step_inv _ _ Ha) as [[_ N]|[[-> _]|(w & _ & -> & _)]];
    [congruence| |discriminate].
  unfold step, step_def in Hb. destruct b; [discriminate|].
  destruct (wellFormedWord_def _ _ _ _); [|discriminate].
  destruct (needsBreak a _); [discriminate|].
  destruct (bothNonCjk a _); [discriminate|]. auto.
Qed.

Lemma step_word_break_word t0 a b t1 t2 t3 :
  step t0 a = Some t1 -> step t1 (whitespace []) = Some t2 ->
  step t2 b = Some t3 ->
  isWordNode a = true /\ isWordNode b = true
  /\ needsBreak a b = true /\ bothNonCjk a b = false.
Proof.
  intros Ha Hz Hb.
  destruct t1 as [| |w|w]; try discriminate.
  injection Hz as <-.
  destruct (step_inv _ _ Ha) as [[? _]|[[Ew Wa]|(? & ? & _)]];
    try discriminate.
  injection Ew as Ew. subst w.
  apply wellFormedWord_word in Wa. split; [exact Wa|].
  unfold step, step_def in Hb.
  destruct b as [v|];
    [destruct (isEmpty v); [discriminate|]; now destruct (_ || _)|].
  destruct (wellFormedWord_def _ _ _ _); [|discriminate].
  destruct (needsBreak a _); [|discriminate].
  destruct (bothNonCjk a _); [discriminate|]. auto.
Qed.

End Invariants.

(** ** The characters of the nodes *)


Section Content.

Variables isCjk isK isPunctuation : char -> bool.

Lemma textOf_app l1 l2 : textOf (l1 ++ l2) = textOf l1 ++ textOf l2.
Proof. unfold textOf. now rewrite map_app, concat_app. Qed.

Lemma textOf_appendNode nodes n :
  textOf (appendNode nodes n) = textOf nodes ++ value n.
Proof.
  unfold appendNode.
  destruct (at_last nodes) as [lastNode|];
    [destruct (needsBreak lastNode n)|];
    rewrite ?textOf_app; unfold textOf; simpl; now rewrite ?app_nil_r.
Qed.

Lemma value_cjkWord tok : value (cjkWord isK isPunctuation tok) = tok.
Proof.
  unfold cjkWord. now destruct (punctuationRegex_test isPunctuation tok).
Qed.

Lemma textOf_innerStep len idx tok nodes :
  textOf (innerStep isK isPunctuation len idx tok nodes)
  = textOf nodes ++ tok.
Proof.
  unfold innerStep.
  destruct (isEmpty tok) eqn:E.
  - apply isEmpty_true in E. subst tok. rewrite app_nil_r.
    destruct (((idx =? 0) || (idx =? len - 1)) && true); [reflexivity|].
    destruct (Nat.even idx); [reflexivity|].
    rewrite textOf_appendNode, value_cjkWord. now rewrite app_nil_r.
  - rewrite andb_false_r. cbn [negb].
    destruct (Nat.even idx); rewrite textOf_appendNode;
      [reflexivity|now rewrite value_cjkWord].
Qed.

Lemma textOf_innerLoop len its :
  forall idx nodes,
    textOf (innerLoop isK isPunctuation len idx its nodes)
    = textOf nodes ++ concat its.
Proof.
  induction its as [|tok its IH]; intros idx nodes; simpl.
  - now rewrite app_nil_r.
  - now rewrite IH, textOf_innerStep, <- app_assoc.
Qed.

Lemma textOf_chunkNodes token nodes :
  textOf (chunkNodes isCjk isK isPunctuation token nodes)
  = textOf nodes ++ token.
Proof.
  unfold chunkNodes. now rewrite textOf_innerLoop, split_cjk_concat.
Qed.

Variable ws : char -> bool.
Hypothesis ws_blank : forall c, isBlank c = true -> ws c = true.

Let visible := visible ws.


Lemma visible_app a b : visible (a ++ b) = visible a ++ visible b.
Proof. apply filter_app. Qed.

Lemma visible_blanks s : forallb isBlank s = true -> visible s = [].
Proof.
  induction s as [|c s IH]; simpl; [reflexivity|].
  intros H. apply andb_prop in H. destruct H as [Hc Hs].
  now rewrite (ws_blank _ Hc), IH.
Qed.

Lemma visible_blankNode s : visible (value (blankNode s)) = [].
Proof.
  apply visible_blanks. unfold blankNode. now destruct (hasNewline s).
Qed.

Lemma textOf_outerLoop first tokens :
  blankSplit first tokens ->
  forall len idx nodes,
    Nat.even idx = true ->
    visible (textOf (outerLoop isCjk isK isPunctuation len idx tokens nodes))
    = visible (textOf nodes) ++ visible (concat tokens).
Proof.
  induction 1 as [first w Hw | first w s tl Hw Hne Hs Hsb Htl IH];
    intros len idx nodes E.
  - cbn [outerLoop]. rewrite outerStep_even by exact E.
    rewrite textOf_chunkNodes, visible_app. simpl. now rewrite app_nil_r.
  - cbn [outerLoop].
    rewrite (@outerStep_even isCjk isK isPunctuation len idx w nodes E).
    rewrite (@outerStep_odd isCjk isK isPunctuation len (S idx) s _
               (even_S_false _ E)).
    rewrite IH by exact E.
    rewrite textOf_app, textOf_chunkNodes. cbn [concat].
    rewrite !visible_app. unfold textOf at 2. cbn [map concat].
    rewrite app_nil_r, visible_blankNode, (visible_blanks _ Hsb).
    now rewrite !app_nil_r, <- !app_assoc.
Qed.

Lemma textOf_buildNodes text :
  visible (textOf (buildNodes isCjk isK isPunctuation text)) = visible text.
Proof.
  unfold buildNodes.
  rewrite (textOf_outerLoop (split_blankSplit text)) by reflexivity.
  now rewrite split_blank_concat.
Qed.

End Content.

(** ** [splitText]: the assertions never fail *)

Lemma splitText_buildNodes isCjk isK isPunctuation production text :
  splitText isCjk isK isPunctuation production text
  = Some (buildNodes isCjk isK isPunctuation text).
Proof.
  unfold splitText.
  destruct (buildNodes_accepted isCjk isK isPunctuation text) as (t & H & _).
  apply run_assert in H. now rewrite H, andb_false_r.
Qed.

Lemma assert_no_pair nodes :
  assertNoConsecutiveWhitespace nodes = true ->
  forall i a b,
    nth_error nodes i = Some a -> nth_error nodes (S i) = Some b ->
    isWhitespaceNode a && isWhitespaceNode b = false.
Proof.
  induction nodes as [|x l IH]; intros H i a b Ha Hb.
  - destruct i; discriminate.
  - destruct l as [|y l]; [destruct i; discriminate|].
    change (negb (isWhitespaceNode x && isWhitespaceNode y)
            && assertNoConsecutiveWhitespace (y :: l) = true) in H.
    apply andb_prop in H. destruct H as [Hxy Hl].
    destruct i as [|i].
    + simpl in Ha, Hb. injection Ha as <-. injection Hb as <-.
      now apply negb_true_iff.
    + exact (IH Hl i a b Ha Hb).
Qed.

Lemma splitLoop_blanks fuel c text :
  forallb isBlank (c :: text) = true ->
  splitLoop whitespaceExec (S (S fuel)) [] (c :: text) = [[]; c :: text; []].
Proof.
  intros H. cbn [splitLoop]. unfold whitespaceExec.
  rewrite (takeWhile_forallb _ _ H), (dropWhile_forallb _ _ H).
  reflexivity.
Qed.

Lemma buildNodes_blanks isCjk isK isPunctuation text :
  text <> [] -> forallb isBlank text = true ->
  buildNodes isCjk isK isPunctuation text = [blankNode text].
Proof.
  intros Hne H. destruct text as [|c text]; [now destruct Hne|].
  unfold buildNodes, split.
  replace (2 * length (c :: text)) with (S (S (2 * length text)))
    by (simpl; lia).
  rewrite (splitLoop_blanks _ _ _ H). reflexivity.
Qed.

(** ** Properties of [splitText] *)


Lemma nth_error_pair (A : Type) (l : list A) i a b :
  nth_error l i = Some a -> nth_error l (S i) = Some b ->
  exists pre post, l = pre ++ a :: b :: post.
Proof.
  intros Ha Hb. destruct (nth_error_split _ _ Ha) as (pre & post & E & Hlen).
  subst l. rewrite nth_error_app2 in Hb by lia.
  replace (S i - length pre) with 1 in Hb by lia.
  destruct post as [|b' post]; [discriminate|].
  injection Hb as ->. now exists pre, post.
Qed.

Lemma nth_error_triple (A : Type) (l : list A) i a b c :
  nth_error l i = Some a -> nth_error l (S i) = Some b ->
  nth_error l (S (S i)) = Some c ->
  exists pre post, l = pre ++ a :: b :: c :: post.
Proof.
  intros Ha Hb Hc. destruct (nth_error_split _ _ Ha) as (pre & post & E & Hlen).
  subst l. rewrite nth_error_app2 in Hb, Hc by lia.
  replace (S i - length pre) with 1 in Hb by lia.
  replace (S (S i) - length pre) with 2 in Hc by lia.
  destruct post as [|b' [|c' post]]; try discriminate.
  injection Hb as ->. injection Hc as ->. now exists pre, post.
Qed.

(** C1: the assertions of [splitText] never fail, and its nodes never
    hold two whitespace nodes next to each other, zero-width ones
    included; a text made of blanks only gives exactly one whitespace
    node. *)
Theorem splitText_no_consecutive_whitespace isCjk isK isPunctuation production text :
  exists nodes,
    splitText isCjk isK isPunctuation production text = Some nodes
    /\ (forall i a b,
           nth_error nodes i = Some a -> nth_error nodes (S i) = Some b ->
           ~ (isWhitespaceNode a = true /\ isWhitespaceNode b = true))
    /\ (text <> [] -> forallb isBlank text = true ->
        nodes = [whitespace (if hasNewline text then [NEWLINE]
                             else [SPACE])]).
Proof.
  exists (buildNodes isCjk isK isPunctuation text).
  split; [apply splitText_buildNodes|]. split.
  - intros i a b Ha Hb [Wa Wb].
    destruct (buildNodes_accepted isCjk isK isPunctuation text)
      as (t & H & _).
    apply run_assert in H.
    pose proof (assert_no_pair _ H i Ha Hb) as N.
    rewrite Wa, Wb in N. discriminate.
  - intros Hne Hb. now apply buildNodes_blanks.
Qed.

(** C10: a zero-width whitespace node of the output has a word node
    right before it and a word node right after it: it is never the first
    or the last node, and never next to another whitespace node. *)
Theorem splitText_zero_width_interior isCjk isK isPunctuation production text :
  exists nodes,
    splitText isCjk isK isPunctuation production text = Some nodes
    /\ forall i,
        nth_error nodes i = Some (whitespace []) ->
        exists j a b,
          i = S j
          /\ nth_error nodes j = Some a /\ isWordNode a = true
          /\ nth_error nodes (S i) = Some b /\ isWordNode b = true.
Proof.
  exists (buildNodes isCjk isK isPunctuation text).
  split; [apply splitText_buildNodes|].
  intros i Hi.
  destruct (buildNodes_accepted isCjk isK isPunctuation text)
    as (t & H & Ht).
  destruct (nth_error_split _ _ Hi) as (pre & post & E & Hlen).
  rewrite E in H. apply run_split in H.
  destruct H as (t1 & t2 & Hpre & Hstep & Hpost).
  destruct t1 as [| |w|w]; try discriminate.
  injection Hstep as <-.
  apply run_word_last in Hpre; [|discriminate].
  destruct Hpre as (pre' & -> & Ww).
  apply run_after_break in Hpost; [|exact Ht].
  destruct Hpost as (b & post' & -> & Wb).
  exists (length pre'), w, b. rewrite E.
  rewrite length_app in Hlen. simpl in Hlen.
  split; [lia|]. split; [|split; [exact Ww|split; [|exact Wb]]].
  - rewrite <- app_assoc. rewrite nth_error_app2 by lia.
    now rewrite Nat.sub_diag.
  - assert (length (pre' ++ [w]) = i) as Hl
        by (rewrite length_app; cbn [length]; lia).
    rewrite nth_error_app2 by lia.
    replace (S i - length (pre' ++ [w])) with 1 by lia.
    reflexivity.
Qed.

(** C5: the values of the nodes, put end to end, hold the characters of
    the text that are not white space, all of them, once each and in
    order, for any class of white space that holds tab, newline and
    space. *)
Theorem splitText_keeps_visible_characters
        isCjk isK isPunctuation (ws : char -> bool)
        (ws_blank : forall c, isBlank c = true -> ws c = true)
        production text :
  exists nodes,
    splitText isCjk isK isPunctuation production text = Some nodes
    /\ visible ws (concat (map value nodes)) = visible ws text.
Proof.
  exists (buildNodes isCjk isK isPunctuation text).
  split; [apply splitText_buildNodes|].
  now apply textOf_buildNodes.
Qed.


Lemma splitText_no_consecutive_whitespace_witness :
  Sample.splitText false (js "  ") = Some [whitespace [SPACE]].
Proof.
  destruct (splitText_no_consecutive_whitespace
              Sample.isCjk Sample.isK Sample.isPunctuation false (js "  "))
    as (nodes & E & _ & H).
  unfold Sample.splitText. rewrite E. f_equal.
  apply H; [discriminate|reflexivity].
Defined.

Lemma splitText_zero_width_interior_witness :
  exists nodes,
    Sample.splitText false hello_sekai = Some nodes
    /\ forall i,
        nth_error nodes i = Some (whitespace []) ->
        exists j a b,
          i = S j
          /\ nth_error nodes j = Some a /\ isWordNode a = true
          /\ nth_error nodes (S i) = Some b /\ isWordNode b = true.
Proof.
  exact (splitText_zero_width_interior
           Sample.isCjk Sample.isK Sample.isPunctuation false hello_sekai).
Defined.


Lemma splitText_keeps_visible_characters_witness :
  exists nodes,
    Sample.splitText false (js " a  b c ") = Some nodes
    /\ visible isBlank (concat (map value nodes)) = js "abc".
Proof.
  exact (splitText_keeps_visible_characters
           Sample.isCjk Sample.isK Sample.isPunctuation isBlank
           (fun c H => H) false (js " a  b c ")).
Defined.


Lemma hasFullWidthSpace_In v :
  hasFullWidthSpace v = true <-> In FULL_WIDTH_SPACE v.
Proof.
  unfold hasFullWidthSpace. rewrite existsb_exists. split.
  - intros (c & Hin & E). apply N.eqb_eq in E. now subst c.
  - intros Hin. exists FULL_WIDTH_SPACE. split; [exact Hin|apply N.eqb_refl].
Qed.

Lemma needsBreak_words v1 k1 l1 r1 v2 k2 l2 r2 :
  needsBreak (word v1 k1 l1 r1) (word v2 k2 l2 r2) = true
  <-> breakExpected v1 k1 v2 k2.
Proof.
  unfold needsBreak, breakExpected, isBetween, exemptPair.
  cbn [isWordNode kind value existsb andb].
  pose proof (hasFullWidthSpace_In v1) as H1.
  pose proof (hasFullWidthSpace_In v2) as H2.
  destruct (hasFullWidthSpace v1), (hasFullWidthSpace v2);
    destruct k1, k2; cbn; split; intros H;
    try discriminate; try reflexivity;
    try (split; [intros [[? ?]|[? ?]]; discriminate|]);
    try (split; intros N; [apply H1 in N|apply H2 in N]; discriminate);
    try (destruct H as (H & _); exfalso; apply H; tauto);
    try (destruct H as (_ & Ha & Hb); exfalso;
         first [apply Ha; now apply H1 | apply Hb; now apply H2]).
Qed.

Lemma snoc_two_ne_one (A : Type) (l : list A) (x y : A) :
  l ++ [x; y] <> l ++ [y].
Proof.
  intros H. apply (f_equal (@length A)) in H.
  rewrite !length_app in H. simpl in H. lia.
Qed.

(** Steps of the inner split and of the making of a word node, for
    classifiers known at the characters of the text only. *)
Lemma splitLoop_cjk_skip isCjk fuel pending c rest :
  isCjk c = false ->
  splitLoop (cjkExec isCjk) (S fuel) pending (c :: rest)
  = splitLoop (cjkExec isCjk) fuel (pending ++ [c]) rest.
Proof. intros H. cbn [splitLoop cjkExec]. now rewrite H. Qed.

Lemma splitLoop_cjk_cut isCjk fuel pending c rest :
  isCjk c = true ->
  splitLoop (cjkExec isCjk) (S fuel) pending (c :: rest)
  = pending :: [c] :: splitLoop (cjkExec isCjk) fuel [] rest.
Proof. intros H. cbn [splitLoop cjkExec]. now rewrite H. Qed.

Lemma cjkWord_letter isK isPunctuation c :
  isPunctuation c = false -> isK c = false ->
  cjkWord isK isPunctuation [c] = word [c] KIND_CJ_LETTER false false.
Proof.
  intros Hp Hk. unfold cjkWord, punctuationRegex_test, kRegex_test.
  cbn [existsb]. now rewrite Hp, Hk.
Qed.

Lemma cjkWord_punctuation isK isPunctuation c :
  isPunctuation c = true ->
  cjkWord isK isPunctuation [c] = word [c] KIND_CJK_PUNCTUATION true true.
Proof.
  intros Hp. unfold cjkWord, punctuationRegex_test.
  cbn [existsb]. now rewrite Hp.
Qed.

Lemma nonCjkWord_flags isPunctuation c middle d :
  nonCjkWord isPunctuation (c :: middle ++ [d])
  = word (c :: middle ++ [d]) KIND_NON_CJK (isPunctuation c) (isPunctuation d).
Proof.
  unfold nonCjkWord, punctuationRegex_test_char, punctuationRegex_test.
  change (c :: middle ++ [d]) with ((c :: middle) ++ [d]).
  rewrite at_last_snoc. cbn [hd_error app existsb].
  now rewrite !orb_false_r.
Qed.

Ltac split_cjk :=
  unfold split; cbn [length Nat.mul Nat.add];
  repeat first [ rewrite splitLoop_cjk_skip by assumption
               | rewrite splitLoop_cjk_cut by assumption ];
  cbn [splitLoop app].

(** C3: when [appendNode] puts a word node after a word node, it puts a
    zero-width whitespace node between them if and only if the pair of their
    kinds is not non-cjk with cjk-punctuation and neither value holds
    U+3000; "foo。" gives two word nodes next to each other. *)
Theorem appendNode_zero_width_rule :
  (forall nodes v1 k1 l1 r1 v2 k2 l2 r2,
      at_last nodes = Some (word v1 k1 l1 r1) ->
      (appendNode nodes (word v2 k2 l2 r2)
       = nodes ++ [whitespace []; word v2 k2 l2 r2]
       <-> breakExpected v1 k1 v2 k2)
      /\ (appendNode nodes (word v2 k2 l2 r2) = nodes ++ [word v2 k2 l2 r2]
          <-> ~ breakExpected v1 k1 v2 k2))
  /\ (forall isCjk isK isPunctuation production,
         isCjk 102%N = false -> isCjk 111%N = false ->
         isCjk 12290%N = true -> isPunctuation 12290%N = true ->
         splitText isCjk isK isPunctuation production foo_stop
         = Some [word (js "foo") KIND_NON_CJK
                      (isPunctuation 102%N) (isPunctuation 111%N);
                 word [12290%N] KIND_CJK_PUNCTUATION true true])
  /\ (forall isCjk isK isPunctuation production text,
         exists nodes,
           splitText isCjk isK isPunctuation production text = Some nodes
           /\ (forall i v1 k1 l1 r1 v2 k2 l2 r2,
                  nth_error nodes i = Some (word v1 k1 l1 r1) ->
                  nth_error nodes (S i) = Some (word v2 k2 l2 r2) ->
                  ~ breakExpected v1 k1 v2 k2)
           /\ (forall i v1 k1 l1 r1 v2 k2 l2 r2,
                  nth_error nodes i = Some (word v1 k1 l1 r1) ->
                  nth_error nodes (S i) = Some (whitespace []) ->
                  nth_error nodes (S (S i)) = Some (word v2 k2 l2 r2) ->
                  breakExpected v1 k1 v2 k2)).
Proof.
  split; [|split].
  - intros nodes v1 k1 l1 r1 v2 k2 l2 r2 Hlast.
    pose proof (needsBreak_words v1 k1 l1 r1 v2 k2 l2 r2) as Hnb.
    unfold appendNode. rewrite Hlast.
    destruct (needsBreak (word v1 k1 l1 r1) (word v2 k2 l2 r2)).
    + rewrite <- app_assoc. cbn [app]. split; split; intros H.
      * now apply Hnb.
      * reflexivity.
      * now apply snoc_two_ne_one in H.
      * destruct H. now apply Hnb.
    + split; split; intros H.
      * symmetry in H. now apply snoc_two_ne_one in H.
      * apply Hnb in H. discriminate.
      * intros N. apply Hnb in N. discriminate.
      * reflexivity.
  - intros isCjk isK isPunctuation production Hf Ho Hs Hp.
    rewrite splitText_buildNodes. f_equal.
    unfold buildNodes.
    change (split whitespaceExec foo_stop) with [foo_stop].
    cbn [length outerLoop]. unfold outerStep. cbn [Nat.odd Nat.even negb].
    change foo_stop with [102; 111; 111; 12290]%N.
    change (js "foo") with [102; 111; 111]%N.
    cbn [Nat.eqb Nat.sub orb andb isEmpty].
    split_cjk. cbn [length innerLoop]. unfold innerStep.
    cbn [Nat.eqb Nat.sub Nat.even orb andb negb isEmpty].
    rewrite (cjkWord_punctuation isK isPunctuation 12290%N Hp).
    pose proof (nonCjkWord_flags isPunctuation 102%N [111%N] 111%N) as Hw.
    cbn [app] in Hw. rewrite Hw. reflexivity.
  - intros isCjk isK isPunctuation production text.
    exists (buildNodes isCjk isK isPunctuation text).
    split; [apply splitText_buildNodes|].
    destruct (buildNodes_accepted isCjk isK isPunctuation text)
      as (t & H & Ht).
    split.
    + intros i v1 k1 l1 r1 v2 k2 l2 r2 Ha Hb.
      destruct (nth_error_pair _ _ Ha Hb) as (pre & post & E).
      rewrite E in H. apply run_split in H.
      destruct H as (t1 & t2 & _ & Sa & H). rewrite run_cons in H.
      destruct (step isCjk isK isPunctuation t2 (word v2 k2 l2 r2))
        as [t3|] eqn:Sb; [|discriminate].
      intros N. apply needsBreak_words with (l1 := l1) (r1 := r1)
                                            (l2 := l2) (r2 := r2) in N.
      assert (needsBreak (word v1 k1 l1 r1) (word v2 k2 l2 r2) = false) as F
          by (eapply step_word_pair; eauto).
      congruence.
    + intros i v1 k1 l1 r1 v2 k2 l2 r2 Ha Hz Hb.
      destruct (nth_error_triple _ _ Ha Hz Hb) as (pre & post & E).
      rewrite E in H. apply run_split in H.
      destruct H as (t1 & t2 & _ & Sa & H). rewrite run_cons in H.
      destruct (step isCjk isK isPunctuation t2 (whitespace [])) as [t3|]
        eqn:Sz; [|discriminate].
      rewrite run_cons in H.
      destruct (step isCjk isK isPunctuation t3 (word v2 k2 l2 r2))
        as [t4|] eqn:Sb; [|discriminate].
      apply needsBreak_words with (l1 := l1) (r1 := r1)
                                  (l2 := l2) (r2 := r2).
      eapply step_word_break_word; eauto.
Qed.

Lemma appendNode_zero_width_rule_witness :
  Sample.splitText false foo_stop
  = Some [word (js "foo") KIND_NON_CJK false false;
          word [12290%N] KIND_CJK_PUNCTUATION true true].
Proof.
  exact (proj1 (proj2 appendNode_zero_width_rule)
               Sample.isCjk Sample.isK Sample.isPunctuation false
               eq_refl eq_refl eq_refl eq_refl).
Defined.

(** C2, as the code has it: "hello世界" gives five nodes, with a zero-width
    whitespace node between the word nodes of 世 and 界 too. *)
Theorem splitText_hello_sekai isCjk isK isPunctuation production :
  isCjk 104%N = false -> isCjk 101%N = false ->
  isCjk 108%N = false -> isCjk 111%N = false ->
  isCjk 19990%N = true -> isCjk 30028%N = true ->
  isPunctuation 19990%N = false -> isPunctuation 30028%N = false ->
  isK 19990%N = false -> isK 30028%N = false ->
  splitText isCjk isK isPunctuation production hello_sekai
  = Some [word (js "hello") KIND_NON_CJK
               (isPunctuation 104%N) (isPunctuation 111%N);
          whitespace [];
          word [19990%N] KIND_CJ_LETTER false false;
          whitespace [];
          word [30028%N] KIND_CJ_LETTER false false].
Proof.
  intros Hh He Hl Ho Hc1 Hc2 Hp1 Hp2 Hk1 Hk2.
  rewrite splitText_buildNodes. f_equal. unfold buildNodes.
  change (split whitespaceExec hello_sekai) with [hello_sekai].
  cbn [length outerLoop]. unfold outerStep. cbn [Nat.odd Nat.even negb].
  change hello_sekai with [104; 101; 108; 108; 111; 19990; 30028]%N.
  change (js "hello") with [104; 101; 108; 108; 111]%N.
  cbn [Nat.eqb Nat.sub orb andb isEmpty].
  split_cjk. cbn [length innerLoop]. unfold innerStep.
  cbn [Nat.eqb Nat.sub Nat.even orb andb negb isEmpty].
  rewrite (cjkWord_letter isK isPunctuation 19990%N Hp1 Hk1).
  rewrite (cjkWord_letter isK isPunctuation 30028%N Hp2 Hk2).
  pose proof (nonCjkWord_flags isPunctuation 104%N [101; 108; 108]%N 111%N)
    as Hw.
  cbn [app] in Hw. rewrite Hw. reflexivity.
Qed.

Lemma splitText_hello_sekai_witness :
  Sample.splitText false hello_sekai
  = Some [word (js "hello") KIND_NON_CJK false false;
          whitespace [];
          word [19990%N] KIND_CJ_LETTER false false;
          whitespace [];
          word [30028%N] KIND_CJ_LETTER false false].
Proof.
  exact (splitText_hello_sekai Sample.isCjk Sample.isK Sample.isPunctuation
           false eq_refl eq_refl eq_refl eq_refl eq_refl eq_refl
           eq_refl eq_refl eq_refl eq_refl).
Defined.

(** C2, as the claim has it, fails: the output is not the four nodes
    hello, zero-width whitespace, 世, 界. *)
Lemma splitText_hello_sekai_not_four_nodes :
  ~ (exists nodes,
        Sample.splitText false hello_sekai = Some nodes
        /\ map shapeOf nodes
           = [(js "hello", Some KIND_NON_CJK);
              ([], None);
              ([19990%N], Some KIND_CJ_LETTER);
              ([30028%N], Some KIND_CJ_LETTER)]).
Proof.
  intros (nodes & H & E).
  vm_compute in H. injection H as <-. vm_compute in E. discriminate.
Qed.


(** ** Ordered list items *)

Lemma inClass_false lo hi c :
  (c < lo)%N \/ (hi < c)%N -> inClass lo hi c = false.
Proof.
  intros H. unfold inClass. apply andb_false_iff.
  destruct H as [H|H]; [left|right]; now apply N.leb_gt.
Qed.

Lemma inClass_true lo hi c :
  inClass lo hi c = true -> (lo <= c)%N /\ (c <= hi)%N.
Proof.
  unfold inClass. intros H. apply andb_prop in H.
  destruct H as [H1 H2]. apply N.leb_le in H1, H2. auto.
Qed.

Lemma digit_not_space c : isDigit c = true -> isSpace c = false.
Proof.
  intros H. apply inClass_true in H. destruct H as [H1 H2]. unfold isSpace.
  repeat apply orb_false_intro;
    first [ apply N.eqb_neq; lia | apply inClass_false; lia ].
Qed.

Lemma marker_not_digit c : isMarker c = true -> isDigit c = false.
Proof.
  unfold isMarker. intros H. apply orb_prop in H.
  apply inClass_false. destruct H as [H|H]; apply N.eqb_eq in H; lia.
Qed.

Lemma takeWhile_app p a b :
  forallb p a = true -> startsWith p b = false ->
  takeWhile p (a ++ b) = a.
Proof.
  intros Ha Hb. induction a as [|c a IH]; simpl in *.
  - destruct b as [|d b]; [reflexivity|]. simpl in *. now rewrite Hb.
  - apply andb_prop in Ha. destruct Ha as [Hc Ha]. now rewrite Hc, IH.
Qed.

Lemma dropWhile_app p a b :
  forallb p a = true -> startsWith p b = false ->
  dropWhile p (a ++ b) = b.
Proof.
  intros Ha Hb. induction a as [|c a IH]; simpl in *.
  - destruct b as [|d b]; [reflexivity|]. simpl in *. now rewrite Hb.
  - apply andb_prop in Ha. destruct Ha as [Hc Ha]. now rewrite Hc, IH.
Qed.

Lemma dropWhile_startsWith p s : startsWith p (dropWhile p s) = false.
Proof.
  pose proof (dropWhile_head p s) as H.
  destruct (dropWhile p s); [reflexivity|exact H].
Qed.

(** What a successful match gives. *)
Lemma matchListItem_Some s digits mk spaces' :
  matchListItem s = Some (digits, mk, spaces') ->
  itemGroups s {| numberText := digits; marker := mk;
                  leadingSpaces := spaces' |}.
Proof.
  unfold matchListItem.
  pose proof (takeWhile_dropWhile isSpace s) as E1.
  pose proof (takeWhile_dropWhile isDigit (dropWhile isSpace s)) as E2.
  pose proof (takeWhile_all isDigit (dropWhile isSpace s)) as Hd.
  destruct (takeWhile isDigit (dropWhile isSpace s)) as [|d ds] eqn:Ed;
    [discriminate|].
  destruct (dropWhile isDigit (dropWhile isSpace s)) as [|m rest] eqn:Em;
    [discriminate|].
  destruct (isMarker m) eqn:Hm; [|discriminate].
  intros [= <- <- <-].
  exists (takeWhile isSpace s), m, (dropWhile isSpace rest).
  cbn [numberText marker leadingSpaces].
  repeat split.
  - rewrite (takeWhile_dropWhile isSpace rest), E2. now symmetry.
  - apply takeWhile_all.
  - discriminate.
  - exact Hd.
  - exact Hm.
  - apply takeWhile_all.
  - apply dropWhile_startsWith.
Qed.

(** A string that begins with a number and a marker is matched. *)
Lemma matchListItem_complete s :
  beginsWithNumberAndMarker s -> matchListItem s <> None.
Proof.
  intros (spaces & digits & m & rest & -> & Hs & Hne & Hd & Hm).
  unfold matchListItem.
  destruct digits as [|d digits]; [now destruct Hne|].
  assert (isDigit d = true) as Hd0
      by (cbn in Hd; now apply andb_prop in Hd).
  rewrite dropWhile_app;
    [|exact Hs|cbn; now apply digit_not_space].
  change ((d :: digits) ++ m :: rest) with ((d :: digits) ++ (m :: rest)).
  rewrite takeWhile_app, dropWhile_app;
    try exact Hd; try (cbn; now apply marker_not_digit).
  rewrite Hm. discriminate.
Qed.

Lemma matchListItem_None s :
  matchListItem s = None <-> ~ beginsWithNumberAndMarker s.
Proof.
  split.
  - intros H N. now apply matchListItem_complete in N.
  - intros N. destruct (matchListItem s) as [[[digits mk] spaces']|] eqn:E;
      [|reflexivity].
    destruct N. apply matchListItem_Some in E.
    destruct E as (spaces & m & rest & E & Hs & Hne & Hd & Hm & _).
    cbn in *. exists spaces, digits, m, (spaces' ++ rest).
    repeat split; auto.
Qed.

(** The pattern of the specification is the one of the source with white
    space after the marker. *)
Lemma beginsWithItemPattern_marker s :
  beginsWithItemPattern s -> beginsWithNumberAndMarker s.
Proof.
  intros (spaces & digits & m & spaces' & rest & E & Hs & Hne & Hd & Hm & _).
  exists spaces, digits, m, (spaces' ++ rest). auto.
Qed.

(** A string begins with the pattern of the specification exactly when the
    match has white space in its last group. *)
Lemma matchListItem_leading s digits mk spaces' :
  matchListItem s = Some (digits, mk, spaces') ->
  spaces' <> [] <-> beginsWithItemPattern s.
Proof.
  intros E. split.
  - intros Hne. apply matchListItem_Some in E.
    destruct E as (spaces & m & rest & E & Hs & Hd0 & Hd & Hm & _ & Hl & _).
    cbn in *. exists spaces, digits, m, spaces', rest. repeat split; auto.
  - intros (spaces & ds & m & sp & rest & -> & Hs & Hne & Hd & Hm & Hsp & Hl).
    revert E. unfold matchListItem.
    destruct ds as [|d ds]; [now destruct Hne|].
    assert (isDigit d = true) as Hd0
        by (cbn in Hd; now apply andb_prop in Hd).
    rewrite dropWhile_app;
      [|exact Hs|cbn; now apply digit_not_space].
    change ((d :: ds) ++ m :: sp ++ rest)
      with ((d :: ds) ++ (m :: sp ++ rest)).
    rewrite takeWhile_app, dropWhile_app;
      try exact Hd; try (cbn; now apply marker_not_digit).
    rewrite Hm. intros [= _ _ <-].
    destruct sp as [|c sp]; [now destruct Hsp|].
    cbn in Hl. apply andb_prop in Hl. destruct Hl as [Hc _].
    cbn. rewrite Hc. discriminate.
Qed.

(** C8: [getOrderedListItemInfo] throws exactly when the slice of the
    source between the offsets of the item does not begin with white space
    (or none), digits and a marker character ('.' or ')').  When it
    returns, the number text is the digits, the marker is the marker
    character and the leading spaces are all the white space after the
    marker, which can be none: the leading spaces are not empty exactly when
    the slice begins with the pattern of the specification, whose last part
    is white space.  So the call never throws on a slice that begins with
    that pattern, and it also returns when only the white space after the
    marker is missing. *)
Theorem getOrderedListItemInfo_pattern orderListItem originalText :
  let s := slice originalText
                 (start_offset (itemPosition orderListItem))
                 (end_offset (itemPosition orderListItem)) in
  (getOrderedListItemInfo orderListItem originalText = Throws
   <-> ~ beginsWithNumberAndMarker s)
  /\ (forall info,
         getOrderedListItemInfo orderListItem originalText = Returns info ->
         itemGroups s info
         /\ (leadingSpaces info <> [] <-> beginsWithItemPattern s))
  /\ (getOrderedListItemInfo orderListItem originalText = Throws ->
      ~ beginsWithItemPattern s).
Proof.
  intros s. unfold getOrderedListItemInfo. fold s. split; [|split].
  - rewrite <- matchListItem_None.
    destruct (matchListItem s) as [[[digits mk] spaces']|]; split;
      congruence.
  - intros info.
    destruct (matchListItem s) as [[[digits mk] spaces']|] eqn:E;
      [|discriminate].
    intros [= <-]. split; [now apply matchListItem_Some|].
    cbn [leadingSpaces]. exact (matchListItem_leading _ E).
  - destruct (matchListItem s) as [[[digits mk] spaces']|] eqn:E;
      [discriminate|].
    intros _ N. apply beginsWithItemPattern_marker in N.
    now apply matchListItem_None in E.
Qed.

Lemma getOrderedListItemInfo_pattern_witness :
  getOrderedListItemInfo
    {| itemPosition := {| start_offset := 2; end_offset := 9 |} |}
    (js "- 12) item")
  = Returns {| numberText := js "12"; marker := js ")";
               leadingSpaces := js " " |}
  /\ itemGroups (js "12) ite")
                {| numberText := js "12"; marker := js ")";
                   leadingSpaces := js " " |}
  /\ beginsWithItemPattern (js "12) ite").
Proof.
  split; [reflexivity|].
  destruct (proj1 (proj2 (getOrderedListItemInfo_pattern
                            {| itemPosition := {| start_offset := 2;
                                                  end_offset := 9 |} |}
                            (js "- 12) item")))
                  {| numberText := js "12"; marker := js ")";
                     leadingSpaces := js " " |} eq_refl) as [G L].
  split; [exact G|]. apply L. discriminate.
Defined.

(** An empty item: the slice is the number and the marker, with no white
    space after them.  The call returns, with no leading spaces, though the
    slice does not begin with the pattern of the specification. *)
Lemma getOrderedListItemInfo_empty_item :
  getOrderedListItemInfo emptyItem emptyItemSource
  = Returns {| numberText := js "1"; marker := js ".";
               leadingSpaces := [] |}
  /\ slice emptyItemSource 0 2 = js "1."
  /\ ~ beginsWithItemPattern (js "1.")
  /\ ~ (getOrderedListItemInfo emptyItem emptyItemSource = Throws
        <-> ~ beginsWithItemPattern
              (slice emptyItemSource
                     (start_offset (itemPosition emptyItem))
                     (end_offset (itemPosition emptyItem)))).
Proof.
  assert (~ beginsWithItemPattern (js "1.")) as N.
  { intros B.
    apply (proj2 (@matchListItem_leading (js "1.") (js "1") (js ".") []
                    eq_refl)) in B.
    now apply B. }
  split; [reflexivity|]. split; [reflexivity|]. split; [exact N|].
  intros [_ H]. specialize (H N). discriminate.
Qed.

(** ** The ordered-list heuristic *)

(** C4: [hasGitDiffFriendlyOrderedList] returns [false] for a list that is
    not marked ordered and for a list of fewer than two items; when the
    first number is 0 and there are more than two items, it returns whether
    the second and the third number are both 1; otherwise it returns whether
    the second number is 1.  So 0,1,1 gives [true], 0,1,2 [false], 1,1
    [true], 1,2 [false], and a single item [false]. *)
Theorem hasGitDiffFriendlyOrderedList_rule :
  (forall node options,
      isOrdered node = false ->
      hasGitDiffFriendlyOrderedList node options = Returns false)
  /\ (forall node options,
         length (listChildren node) < 2 ->
         hasGitDiffFriendlyOrderedList node options = Returns false)
  /\ (forall node options item0 item1 item2 more info0 info1 info2,
         isOrdered node = true ->
         listChildren node = item0 :: item1 :: item2 :: more ->
         getOrderedListItemInfo item0 (originalText options) = Returns info0 ->
         getOrderedListItemInfo item1 (originalText options) = Returns info1 ->
         getOrderedListItemInfo item2 (originalText options) = Returns info2 ->
         Number (numberText info0) = 0%N ->
         hasGitDiffFriendlyOrderedList node options
         = Returns (N.eqb (Number (numberText info1)) 1
                    && N.eqb (Number (numberText info2)) 1))
  /\ (forall node options item0 item1 more info0 info1,
         isOrdered node = true ->
         listChildren node = item0 :: item1 :: more ->
         getOrderedListItemInfo item0 (originalText options) = Returns info0 ->
         getOrderedListItemInfo item1 (originalText options) = Returns info1 ->
         Number (numberText info0) <> 0%N \/ more = [] ->
         hasGitDiffFriendlyOrderedList node options
         = Returns (N.eqb (Number (numberText info1)) 1))
  /\ (let run lines :=
        hasGitDiffFriendlyOrderedList (orderedListOf lines)
                                      (optionsOf lines) in
      run [js "0. a"; js "1. b"; js "1. c"] = Returns true
      /\ run [js "0. a"; js "1. b"; js "2. c"] = Returns false
      /\ run [js "1. a"; js "1. b"] = Returns true
      /\ run [js "1. a"; js "2. b"] = Returns false
      /\ run [js "1. a"] = Returns false).
Proof.
  repeat split; try reflexivity.
  - intros node options H. unfold hasGitDiffFriendlyOrderedList.
    now rewrite H.
  - intros node options H. unfold hasGitDiffFriendlyOrderedList.
    destruct (negb _); [reflexivity|].
    apply Nat.ltb_lt in H. now rewrite H.
  - intros node options item0 item1 item2 more info0 info1 info2
           Ho Hc H0 H1 H2 Hn.
    unfold hasGitDiffFriendlyOrderedList, childAt.
    rewrite Ho, Hc. cbn.
    rewrite H0. cbn. rewrite H1. cbn. rewrite Hn. cbn. now rewrite H2.
  - intros node options item0 item1 more info0 info1 Ho Hc H0 H1 Hn.
    unfold hasGitDiffFriendlyOrderedList, childAt.
    rewrite Ho, Hc. cbn [negb length Nat.ltb Nat.leb].
    cbn [nth_error bind]. rewrite H0. cbn [bind]. rewrite H1. cbn [bind].
    destruct Hn as [Hn| ->].
    + apply N.eqb_neq in Hn. now rewrite Hn.
    + cbn. now rewrite andb_false_r.
Qed.

Lemma hasGitDiffFriendlyOrderedList_rule_witness :
  hasGitDiffFriendlyOrderedList
    (orderedListOf [js "0. a"; js "1. b"; js "1. c"; js "7. d"])
    (optionsOf [js "0. a"; js "1. b"; js "1. c"; js "7. d"])
  = Returns true.
Proof.
  refine (proj1 (proj2 (proj2 hasGitDiffFriendlyOrderedList_rule))
                (orderedListOf [js "0. a"; js "1. b"; js "1. c"; js "7. d"])
                (optionsOf [js "0. a"; js "1. b"; js "1. c"; js "7. d"])
                _ _ _ _ _ _ _ eq_refl eq_refl eq_refl eq_refl eq_refl
                eq_refl).
Defined.

(** ** Autolinks *)


Lemma samePositions_eqb node child :
  (locStart node =? locStart child) && (locEnd node =? locEnd child) = true
  <-> samePositions node child.
Proof.
  unfold samePositions. rewrite andb_true_iff, !Nat.eqb_eq. tauto.
Qed.

Ltac autolink_side :=
  try discriminate; intros;
  repeat match goal with
         | H : exists _, _ |- _ => destruct H
         | H : _ /\ _ |- _ => destruct H
         | H : _ \/ _ |- _ => destruct H
         | H : children ?n = _, H' : children ?n = _ |- _ =>
             rewrite H in H'
         | H : Some _ = Some _ |- _ => injection H as H; subst
         | H : _ :: _ = _ :: _ |- _ => injection H as H; subst
         | H : Returns _ = Returns _ |- _ => discriminate H
         | H : Returns _ = Throws |- _ => discriminate H
         | H : Throws = Returns _ |- _ => discriminate H
         | H : Some _ = None |- _ => discriminate H
         | H : None = Some _ |- _ => discriminate H
         | H : [] = _ :: _ |- _ => discriminate H
         | H : _ :: _ = [] |- _ => discriminate H
         end;
  try congruence; try tauto; auto.

(** C7, as the code has it: [isAutolink] returns [true] exactly for a link
    node with one child whose start and end positions are those of the link;
    it returns [false] for a missing node, for a node that is not a link, and
    for a link whose children are there and are not one child with these
    positions; for a link node without a children sequence it throws. *)
Theorem isAutolink_rule (node : option MdNode) :
  (isAutolink node = Returns true
   <-> exists n child,
        node = Some n /\ type n = js "link"
        /\ children n = Some [child] /\ samePositions n child)
  /\ (isAutolink node = Returns false
      <-> node = None
          \/ exists n,
              node = Some n
              /\ (type n <> js "link"
                  \/ exists nodeChildren,
                      children n = Some nodeChildren
                      /\ ~ (exists child, nodeChildren = [child]
                                          /\ samePositions n child)))
  /\ (isAutolink node = Throws
      <-> exists n,
          node = Some n /\ type n = js "link" /\ children n = None).
Proof.
  destruct node as [n|]; cbn [isAutolink].
  2:{ split; [|split]; split; autolink_side. }
  destruct (jsstring_eqb (type n) (js "link")) eqn:Et; cbn [negb].
  - apply jsstring_eqb_eq in Et.
    destruct (children n) as [[|child [|child2 more]]|] eqn:Ec;
      cbn [length Nat.eqb negb].
    + split; [|split]; split; autolink_side.
      right. exists n. split; [reflexivity|]. right. exists [].
      split; [exact Ec|]. intros N. autolink_side.
    + pose proof (samePositions_eqb n child) as Hp.
      destruct ((locStart n =? locStart child) && (locEnd n =? locEnd child)).
      * assert (samePositions n child) as Hs by now apply Hp.
        split; [|split]; split; autolink_side.
        -- exists n, child. auto.
        -- match goal with N : ~ _ |- _ => destruct N end. eauto.
      * assert (~ samePositions n child) as Hs
            by (intros N; apply Hp in N; discriminate).
        split; [|split]; split; autolink_side.
        right. exists n. split; [reflexivity|]. right. exists [child].
        split; [exact Ec|]. intros N. autolink_side.
    + split; [|split]; split; autolink_side.
      right. exists n. split; [reflexivity|]. right.
      exists (child :: child2 :: more). split; [exact Ec|]. intros N. autolink_side.
    + split; [|split]; split; autolink_side. exists n. auto.
  - assert (type n <> js "link") as Hne.
    { intros E. apply jsstring_eqb_eq in E. congruence. }
    split; [|split]; split; autolink_side.
    right. exists n. auto.
Qed.

Lemma isAutolink_rule_witness :
  isAutolink
    (Some (mdNode (js "link")
                  (Some [mdNode (js "text") None
                                {| start_offset := 0; end_offset := 20 |}])
                  {| start_offset := 0; end_offset := 20 |}))
  = Returns true.
Proof.
  apply (proj1 (isAutolink_rule _)).
  eexists. eexists. repeat split; reflexivity.
Defined.

(** C7, as the claim has it, fails: for a link node without a children
    sequence [isAutolink] does not return [false], it throws. *)
Lemma isAutolink_link_without_children :
  isAutolink
    (Some (mdNode (js "link") None
                  {| start_offset := 0; end_offset := 20 |}))
  = Throws
  /\ isAutolink
       (Some (mdNode (js "link") None
                     {| start_offset := 0; end_offset := 20 |}))
     <> Returns false.
Proof. split; [reflexivity|discriminate]. Qed.

(** ** The tree mapper *)

Lemma extends_refl h : extends h h.
Proof. exists []. now rewrite app_nil_r. Qed.

Lemma extends_trans h1 h2 h3 : extends h1 h2 -> extends h2 h3 -> extends h1 h3.
Proof.
  intros [m1 ->] [m2 ->]. exists (m1 ++ m2). now rewrite app_assoc.
Qed.

Lemma extends_app h more : extends h (h ++ more).
Proof. now exists more. Qed.

Lemma extends_length h h' : extends h h' -> length h <= length h'.
Proof. intros [m ->]. rewrite length_app. lia. Qed.

Lemma extends_nth_error h h' l c :
  extends h h' -> nth_error h l = Some c -> nth_error h' l = Some c.
Proof.
  intros [m ->] H. rewrite nth_error_app1; [exact H|].
  apply nth_error_Some. congruence.
Qed.

Lemma store_length h : forall l c, length (store h l c) = length h.
Proof.
  induction h as [|x h IH]; intros [|l] c; simpl; auto.
Qed.

Lemma store_app h more : forall l c,
    length h <= l -> store (h ++ more) l c = h ++ store more (l - length h) c.
Proof.
  induction h as [|x h IH]; intros l c Hl; simpl.
  - now rewrite Nat.sub_0_r.
  - destruct l as [|l]; [simpl in Hl; lia|].
    simpl in Hl. simpl. f_equal. apply IH. lia.
Qed.

Lemma nth_error_store_same h : forall l c,
    l < length h -> nth_error (store h l c) l = Some c.
Proof.
  induction h as [|x h IH]; intros [|l] c Hl; simpl in *; try lia; auto.
  apply IH. lia.
Qed.

Lemma nth_error_store_other h : forall l l' c,
    l' <> l -> nth_error (store h l c) l' = nth_error h l'.
Proof.
  induction h as [|x h IH]; intros [|l] [|l'] c Hl; simpl; auto; try lia.
Qed.

Lemma setChildren_extends h more l v :
  length h <= l -> extends h (setChildren (h ++ more) l v).
Proof.
  intros Hl. unfold setChildren.
  destruct (nth_error (h ++ more) l) as [[o|items]|];
    try apply extends_app.
  rewrite store_app by exact Hl. apply extends_app.
Qed.

Lemma childVisit_mono before before' v :
  (forall p, In p before -> In p before') ->
  childVisit before v -> childVisit before' v.
Proof.
  intros Hin (p & k & Hp & H). exists p, k. split; [now apply Hin|exact H].
Qed.

Lemma childVisitsFrom_mono more : forall before before',
    (forall p, In p before -> In p before') ->
    childVisitsFrom before more -> childVisitsFrom before' more.
Proof.
  induction more as [|v more IH]; intros before before' Hin; simpl; [auto|].
  intros [Hv Hmore]. split; [now apply (childVisit_mono _ Hin)|].
  apply (IH (before ++ [v])); [|exact Hmore].
  intros p Hp. apply in_app_iff in Hp. apply in_app_iff.
  destruct Hp as [Hp|Hp]; [left; now apply Hin|now right].
Qed.

Lemma childVisitsFrom_app m1 : forall before m2,
    childVisitsFrom before (m1 ++ m2)
    <-> childVisitsFrom before m1 /\ childVisitsFrom (before ++ m1) m2.
Proof.
  induction m1 as [|v m1 IH]; intros before m2; simpl.
  - rewrite app_nil_r. tauto.
  - rewrite IH, <- app_assoc. simpl. tauto.
Qed.

Lemma childVisitsFrom_childVisits before more :
  childVisitsFrom before more -> childVisits before more.
Proof.
  intros H pre v post ->. apply childVisitsFrom_app in H.
  destruct H as [_ [H _]]. exact H.
Qed.

Section MapAstFacts.

Variable handler : Handler.


Lemma mapItems_post callback copy parentStack :
  (forall st child index st' r,
      callback st child index = Some (Returns (st', r)) ->
      preorderPost st child index (VRef copy :: parentStack) st' r) ->
  forall items st k st' mapped,
    mapItems callback st items k = Some (Returns (st', mapped)) ->
    extends (fst st) (fst st')
    /\ exists more,
        snd st' = snd st ++ more
        /\ forall before p,
            In p before -> visitCopy p = copy ->
            visitStack p = parentStack ->
            (forall j, nth_error items j
                       = nth_error (visitChildren p) (k + j)) ->
            childVisitsFrom before more.
Proof.
  intros Hcb. induction items as [|child items IH];
    intros st k st' mapped H; cbn [mapItems] in H.
  - injection H as <- <-. split; [apply extends_refl|].
    exists []. rewrite app_nil_r. split; [reflexivity|]. intros; exact I.
  - unfold bindF in H at 1.
    destruct (callback st child (VNumber (Z.of_nat k)))
      as [[[st1 v]|]|] eqn:E1; try discriminate.
    unfold bindF in H.
    destruct (mapItems callback st1 items (S k))
      as [[[st2 vs]|]|] eqn:E2; try discriminate.
    injection H as <- <-.
    apply Hcb in E1. destruct E1 as (X1 & w & more1 & L1 & N1 & I1 & S1
                                      & _ & _ & C1).
    apply IH in E2. destruct E2 as (X2 & more2 & L2 & C2).
    split; [now apply (extends_trans X1)|].
    exists (w :: more1 ++ more2). split.
    + rewrite L2, L1, <- app_assoc. reflexivity.
    + intros before p Hp Hc Hs Hitems. cbn [childVisitsFrom]. split.
      * exists p, k. rewrite S1, I1, N1, Hc, Hs.
        repeat split; auto.
        specialize (Hitems 0). rewrite Nat.add_0_r in Hitems.
        now rewrite <- Hitems.
      * apply childVisitsFrom_app. split.
        -- apply (childVisitsFrom_mono more1 [w]); [|exact C1].
           intros q [<-|[]]. apply in_app_iff. right. now left.
        -- apply C2 with (p := p); auto.
           ++ apply in_app_iff. left. apply in_app_iff. now left.
           ++ intros j. specialize (Hitems (S j)). cbn in Hitems.
              rewrite Hitems. f_equal. lia.
Qed.

Lemma preorder_post fuel :
  forall st node index parentStack st' r,
    preorder handler fuel st node index parentStack
    = Some (Returns (st', r)) ->
    preorderPost st node index parentStack st' r.
Proof.
  induction fuel as [|fuel IH]; intros [h log] node index parentStack st' r H;
    [discriminate|].
  cbn [preorder] in H.
  destruct (handler h node index parentStack) as [made replacement].
  set (h1 := h ++ made) in *.
  set (o := spread h1 replacement) in *.
  assert (forall items,
             preorderPost
               (h, log) node index parentStack
               (h1 ++ [CObject o],
                log ++ [{| visitNode := node; visitIndex := index;
                           visitStack := parentStack;
                           visitCopy := length h1;
                           visitChildren := items |}])
               (VRef (length h1))) as Hleaf.
  { intros items. split.
    - unfold h1. cbn [fst]. rewrite <- app_assoc. apply extends_app.
    - eexists. exists []. cbn [snd fst visitNode visitIndex visitStack
                                visitCopy childVisitsFrom].
      repeat split. cbn [fst visitCopy]. unfold h1.
      rewrite length_app. lia. }
  destruct (childrenProp o) as [c|];
    [|injection H as <- <-; apply Hleaf].
  destruct (truthy c); [|injection H as <- <-; apply Hleaf].
  destruct c as [| | | | |a]; try discriminate.
  destruct (nth_error (h1 ++ [CObject o]) a) as [[?|items]|];
    try discriminate.
  unfold bindF in H.
  match type of H with
  | match mapItems ?cb ?st ?its ?k with _ => _ end = _ =>
      destruct (mapItems cb st its k) as [[[[h3 log3] mapped]|]|] eqn:E
  end; try discriminate.
  injection H as <- <-.
  eapply (@mapItems_post _ (length h1) parentStack) in E;
    [|intros; now apply IH].
  destruct E as (X & more & L & C). cbn [fst snd] in *.
  split.
  - cbn [fst]. destruct X as [m3 ->]. unfold h1.
    rewrite <- !app_assoc. apply setChildren_extends.
    rewrite length_app. lia.
  - eexists. exists more. cbn [snd fst]. rewrite L, <- app_assoc.
    cbn [app visitNode visitIndex visitStack visitCopy].
    repeat split.
    + cbn [fst visitCopy]. unfold h1. rewrite length_app. lia.
    + eapply C; [left; reflexivity|reflexivity|reflexivity|].
      intros j. reflexivity.
Qed.

End MapAstFacts.

(** *** Trees *)

Lemma tree_induction (P : tree -> Prop) :
  (forall fs c, P (Leaf fs c)) ->
  (forall fs kids, Forall P kids -> P (Branch fs kids)) ->
  forall t, P t.
Proof.
  intros HL HB. fix IH 1. intros [fs c|fs kids]; [apply HL|].
  apply HB. induction kids as [|k kids IHk]; constructor; [apply IH|exact IHk].
Qed.

(** A tree stays where it is when the cells from [lo] on stay as they
    are. *)
Lemma represents_agree lo h h' :
  (forall l c, lo <= l -> nth_error h l = Some c -> nth_error h' l = Some c) ->
  forall t v, represents lo h v t -> represents lo h' v t.
Proof.
  intros Hagree. induction t as [fs c|fs kids IH] using tree_induction;
    intros v H.
  - inversion H as [l ? ? Hlo Hl Hc|]; subst. constructor; auto.
  - inversion H as [|l a ? items ? Hlo Hlo' Hl Ha Hitems]; subst.
    apply represents_branch with (a := a) (items := items); auto.
    clear - IH Hitems. induction Hitems; constructor;
      inversion IH; subst; auto.
Qed.

Lemma represents_extends lo h h' t v :
  extends h h' -> represents lo h v t -> represents lo h' v t.
Proof.
  intros X. apply represents_agree. intros l c _.
  now apply extends_nth_error.
Qed.

Lemma represents_weaken lo lo' h :
  lo' <= lo -> forall t v, represents lo h v t -> represents lo' h v t.
Proof.
  intros Hlo. induction t as [fs c|fs kids IH] using tree_induction;
    intros v H.
  - inversion H as [l ? ? Hl0 Hl Hc|]; subst. constructor; auto; lia.
  - inversion H as [|l a ? items ? Hl0 Hl0' Hl Ha Hitems]; subst.
    apply represents_branch with (a := a) (items := items); auto; try lia.
    clear - IH Hitems. induction Hitems; constructor;
      inversion IH; subst; auto.
Qed.


Lemma mapItems_identity fuel copy parentStack h0 :
  forall items kids,
    Forall2 (represents 0 h0) items kids ->
    Forall copies kids ->
    Forall (fun k => height k <= fuel) kids ->
    forall h log k,
      extends h0 h ->
      exists h' log' mapped,
        mapItems (fun st child index =>
                    preorder identity fuel st child index
                             (VRef copy :: parentStack))
                 (h, log) items k
        = Some (Returns ((h', log'), mapped))
        /\ extends h h'
        /\ Forall2 (represents (length h) h') mapped kids.
Proof.
  induction 1 as [|child kid items kids Hchild Hrest IH];
    intros Hcopies Hfuel h log k X.
  - exists h, log, []. cbn [mapItems].
    split; [reflexivity|]. split; [apply extends_refl|constructor].
  - inversion Hcopies as [|? ? Hc Hcs]; subst.
    inversion Hfuel as [|? ? Hf Hfs]; subst.
    destruct (Hc fuel h log child (VNumber (Z.of_nat k))
                 (VRef copy :: parentStack))
      as (h1 & log1 & l1 & E1 & X1 & R1);
      [eapply represents_extends; eassumption|exact Hf|].
    destruct (IH Hcs Hfs h1 log1 (S k)) as (h2 & log2 & mapped & E2 & X2 & R2);
      [eapply extends_trans; eassumption|].
    exists h2, log2, (VRef l1 :: mapped). cbn [mapItems].
    rewrite E1. cbn [bindF]. rewrite E2. cbn [bindF].
    split; [reflexivity|]. split; [eapply extends_trans; eassumption|].
    constructor.
    + eapply represents_extends; eassumption.
    + pose proof X1 as Hlen. apply extends_length in Hlen.
      eapply Forall2_impl; [|exact R2]. intros v kid' Hv.
      eapply represents_weaken; eassumption.
Qed.

Lemma height_kids fuel fs kids :
  height (Branch fs kids) <= S fuel ->
  Forall (fun k => height k <= fuel) kids.
Proof.
  cbn [height]. intros H. apply le_S_n in H.
  induction kids as [|k kids IH]; constructor; cbn [fold_right] in H.
  - lia.
  - apply IH. lia.
Qed.

Lemma bindF_returns (A B : Type) (x : option (outcome A))
      (f : A -> option (outcome B)) (a : A) (y : option (outcome B)) :
  x = Some (Returns a) -> f a = y -> bindF x f = y.
Proof. now intros -> <-. Qed.

Lemma preorder_identity_branch fuel (h : heap) log l index parentStack fs a
      items :
  nth_error h l
  = Some (CObject {| fields := fs; childrenProp := Some (VRef a) |}) ->
  nth_error h a = Some (CArray items) ->
  preorder identity (S fuel) (h, log) (VRef l) index parentStack
  = ('((h3, log3), mapped) <--
       mapItems (fun st child index =>
                   preorder identity fuel st child index
                            (VRef (length h) :: parentStack))
                (h ++ [CObject {| fields := fs;
                                  childrenProp := Some (VRef a) |}],
                 log ++ [{| visitNode := VRef l; visitIndex := index;
                            visitStack := parentStack;
                            visitCopy := length h;
                            visitChildren := items |}])
                items 0 ;;
     Some (Returns ((setChildren (h3 ++ [CArray mapped]) (length h)
                                 (VRef (length h3)),
                     log3),
                    VRef (length h)))).
Proof.
  intros Hl Ha. cbn [preorder identity]. rewrite app_nil_r.
  cbn [spread]. rewrite Hl. cbn [childrenProp truthy].
  rewrite nth_error_app1 by (apply nth_error_Some; congruence).
  rewrite Ha. reflexivity.
Qed.

Lemma preorder_identity t : copies t.
Proof.
  induction t as [fs c|fs kids IH] using tree_induction;
    intros fuel h log root index parentStack R Hfuel.
  - destruct fuel as [|fuel]; [cbn in Hfuel; lia|].
    inversion R as [l ? ? _ Hl Hc|]; subst.
    cbn [preorder identity]. rewrite app_nil_r.
    cbn [spread]. rewrite Hl.
    eexists. eexists. exists (length h).
    assert (represents (length h)
              (h ++ [CObject {| fields := fs; childrenProp := c |}])
              (VRef (length h)) (Leaf fs c)) as Hnew.
    { constructor; [lia| |exact Hc].
      rewrite nth_error_app2 by lia. now rewrite Nat.sub_diag. }
    destruct c as [v|]; cbn [childrenProp notTruthy] in *.
    + rewrite Hc. split; [reflexivity|]. split; [apply extends_app|exact Hnew].
    + split; [reflexivity|]. split; [apply extends_app|exact Hnew].
  - destruct fuel as [|fuel]; [cbn in Hfuel; lia|].
    inversion R as [|l a ? items ? _ _ Hl Ha Hitems]; subst.
    pose proof Hfuel as Hkids. apply height_kids in Hkids.
    set (o := {| fields := fs; childrenProp := Some (VRef a) |}) in *.
    destruct (@mapItems_identity fuel (length h) parentStack h items kids
                Hitems IH Hkids (h ++ [CObject o])
                (log ++ [{| visitNode := VRef l; visitIndex := index;
                            visitStack := parentStack;
                            visitCopy := length h;
                            visitChildren := items |}]) 0)
      as (h3 & log3 & mapped & E & X & Rm); [apply extends_app|].
    assert (preorder identity (S fuel) (h, log) (VRef l) index parentStack
            = Some (Returns
                      ((setChildren (h3 ++ [CArray mapped]) (length h)
                                    (VRef (length h3)),
                        log3),
                       VRef (length h)))) as Heq.
    { rewrite (@preorder_identity_branch fuel h log l index parentStack fs a
                 items Hl Ha).
      eapply bindF_returns; [exact E|reflexivity]. }
    eexists. eexists. exists (length h). split; [exact Heq|]. clear Heq.
    destruct X as [m3 ->].
    assert (nth_error (((h ++ [CObject o]) ++ m3) ++ [CArray mapped])
                      (length h) = Some (CObject o)) as Hcopy.
    { rewrite <- !app_assoc. rewrite nth_error_app2 by lia.
      now rewrite Nat.sub_diag. }
    split.
    + rewrite <- !app_assoc. apply setChildren_extends. lia.
    + unfold setChildren. rewrite Hcopy. cbn [fields o].
      assert (length h < length ((h ++ [CObject o]) ++ m3)) as Hlt
          by (rewrite !length_app; cbn [length]; lia).
      econstructor.
      * apply Nat.le_refl.
      * apply Nat.lt_le_incl, Hlt.
      * apply nth_error_store_same. rewrite length_app. lia.
      * rewrite nth_error_store_other by lia.
        rewrite nth_error_app2 by lia. now rewrite Nat.sub_diag.
      * assert (Forall2 (represents (S (length h))
                           ((h ++ [CObject o]) ++ m3)) mapped kids) as Rm'.
        { replace (S (length h)) with (length (h ++ [CObject o]))
            by (rewrite length_app; cbn [length]; lia).
          exact Rm. }
        eapply Forall2_impl; [|exact Rm']. intros v kid' Hv.
        apply represents_weaken with (lo := S (length h)); [lia|].
        eapply represents_agree; [|exact Hv].
        intros j cj Hj Hcj. rewrite nth_error_store_other by lia.
        eapply extends_nth_error; [apply extends_app|exact Hcj].
Qed.


(** C9: [mapAst] writes to the objects it makes only.  Whatever the handler
    returns, every cell of the heap [mapAst] started from is the same when
    it returns, the root it returns is a new object, and the handler got, at
    each call, the copies [mapAst] made for the parents of the node, the
    nearest first: an empty stack for the root, and for a child the copy of
    its parent followed by the stack its parent got.  With the handler that
    returns its node, [mapAst] returns, on any tree, a new tree of new objects
    that is equal in structure to the tree it got, and the tree it got is
    still there. *)
Theorem mapAst_leaves_input_unchanged :
  (forall handler fuel (h : heap) ast h' log r,
      mapAst handler fuel h ast = Some (Returns ((h', log), r)) ->
      (forall l c, nth_error h l = Some c -> nth_error h' l = Some c)
      /\ exists root more,
          log = root :: more
          /\ visitNode root = ast /\ visitIndex root = VNull
          /\ visitStack root = []
          /\ r = VRef (visitCopy root) /\ length h <= visitCopy root
          /\ childVisits [root] more)
  /\ (forall (h : heap) ast t,
         represents 0 h ast t ->
         exists h' log l,
           mapAst identity (height t) h ast
           = Some (Returns ((h', log), VRef l))
           /\ length h <= l
           /\ represents (length h) h' (VRef l) t
           /\ represents 0 h' ast t
           /\ (forall j c, nth_error h j = Some c -> nth_error h' j = Some c)).
Proof.
  split.
  - intros handler fuel h ast h' log r H. unfold mapAst in H.
    apply preorder_post in H.
    destruct H as (X & root & more & L & N & I & S & R & F & C).
    cbn [fst snd app] in *. split.
    + intros l c Hl. eapply extends_nth_error; eassumption.
    + exists root, more. repeat split; auto.
      now apply childVisitsFrom_childVisits.
  - intros h ast t R.
    destruct (@preorder_identity t (height t) h [] ast VNull [] R (le_n _))
      as (h' & log & l & E & X & R').
    exists h', log, l. unfold mapAst. split; [exact E|].
    split; [inversion R'; assumption|]. split; [exact R'|].
    split; [eapply represents_extends; eassumption|].
    intros j c Hj. eapply extends_nth_error; eassumption.
Qed.

Lemma sampleTree_in_sampleHeap : represents 0 sampleHeap (VRef 0) sampleTree.
Proof.
  apply represents_branch with (a := 1) (items := [VRef 2; VRef 3]);
    try apply Nat.le_0_l; try reflexivity.
  constructor; [|constructor; [|constructor]].
  - constructor; [apply Nat.le_0_l|reflexivity|exact I].
  - apply represents_branch with (a := 4) (items := [VRef 5]);
      try apply Nat.le_0_l; try reflexivity.
    constructor; [|constructor].
    constructor; [apply Nat.le_0_l|reflexivity|reflexivity].
Defined.

Lemma mapAst_leaves_input_unchanged_witness :
  exists h' log l,
    mapAst identity (height sampleTree) sampleHeap (VRef 0)
    = Some (Returns ((h', log), VRef l))
    /\ length sampleHeap <= l
    /\ represents (length sampleHeap) h' (VRef l) sampleTree
    /\ represents 0 h' (VRef 0) sampleTree
    /\ (forall j c,
           nth_error sampleHeap j = Some c -> nth_error h' j = Some c).
Proof.
  exact (proj2 mapAst_leaves_input_unchanged sampleHeap (VRef 0) sampleTree
               sampleTree_in_sampleHeap).
Defined.

Unset Implicit Arguments.

(** ** Further properties of [splitText] *)

(** X1: [splitText] gives no node for the empty string, and only for it. *)
Theorem splitText_empty_iff isCjk isK isPunctuation production text :
  splitText isCjk isK isPunctuation production text = Some [] <-> text = [].
Proof.
  rewrite splitText_buildNodes. split.
  - intros H. injection H as H.
    destruct (forallb isBlank text) eqn:B.
    + destruct text as [|c text]; [reflexivity|].
      rewrite buildNodes_blanks in H; [discriminate|discriminate|exact B].
    + pose proof (textOf_buildNodes isCjk isK isPunctuation isBlank
                    (fun c Hc => Hc) text) as E.
      rewrite H in E. cbn in E.
      destruct text as [|c text]; [reflexivity|]. exfalso.
      clear - B E. induction (c :: text) as [|d l IH]; [discriminate|].
      cbn in B, E. unfold visible in *. cbn in E.
      destruct (isBlank d); cbn in *; [auto|discriminate].
  - intros ->. reflexivity.
Qed.

Lemma splitLoop_blank_free fuel :
  forall pending rest,
    noneOf isBlank rest = true ->
    splitLoop whitespaceExec fuel pending rest = [pending ++ rest].
Proof.
  induction fuel as [|fuel IH]; intros pending rest H; [reflexivity|].
  destruct rest as [|c rest]; cbn [splitLoop]; [now rewrite app_nil_r|].
  unfold noneOf in H. cbn [forallb] in H. apply andb_prop in H.
  destruct H as [Hc H]. apply negb_true_iff in Hc.
  unfold whitespaceExec. cbn [takeWhile]. rewrite Hc.
  rewrite IH by exact H. now rewrite <- app_assoc.
Qed.

Lemma splitLoop_cjk_free isCjk fuel :
  forall pending rest,
    noneOf isCjk rest = true ->
    splitLoop (cjkExec isCjk) fuel pending rest = [pending ++ rest].
Proof.
  induction fuel as [|fuel IH]; intros pending rest H; [reflexivity|].
  destruct rest as [|c rest]; cbn [splitLoop]; [now rewrite app_nil_r|].
  unfold noneOf in H. cbn [forallb] in H. apply andb_prop in H.
  destruct H as [Hc H]. apply negb_true_iff in Hc.
  cbn [cjkExec]. rewrite Hc.
  rewrite IH by exact H. now rewrite <- app_assoc.
Qed.

Lemma split_free exec text :
  text <> [] ->
  (forall fuel, splitLoop exec fuel [] text = [text]) ->
  split exec text = [text].
Proof.
  intros Hne H. destruct text as [|c text]; [now destruct Hne|].
  unfold split. apply H.
Qed.

(** X2: a text without blanks and CJK characters is one word: [splitText]
    gives one node, of kind non-cjk, whose value is the text and whose flags say
    whether its first and its last character are punctuation. *)
Theorem splitText_plain_word isCjk isK isPunctuation production text c d :
  hd_error text = Some c -> at_last text = Some d ->
  noneOf isBlank text = true -> noneOf isCjk text = true ->
  splitText isCjk isK isPunctuation production text
  = Some [word text KIND_NON_CJK (isPunctuation c) (isPunctuation d)].
Proof.
  intros Hc Hd Hb Hj. rewrite splitText_buildNodes. f_equal.
  assert (text <> []) as Hne by (destruct text; discriminate).
  unfold buildNodes.
  rewrite (split_free whitespaceExec text Hne)
    by (intros; now apply splitLoop_blank_free).
  cbn [length outerLoop]. rewrite outerStep_even by reflexivity.
  unfold chunkNodes.
  rewrite (split_free (cjkExec isCjk) text Hne)
    by (intros; now apply splitLoop_cjk_free).
  cbn [length innerLoop]. rewrite innerStep_even by reflexivity.
  apply isEmpty_false in Hne. rewrite Hne. cbn [appendNode at_last app].
  unfold nonCjkWord. rewrite Hc, Hd. unfold punctuationRegex_test_char,
    punctuationRegex_test. cbn [existsb]. now rewrite !orb_false_r.
Qed.

Lemma splitText_plain_word_witness :
  Sample.splitText false (js "don't")
  = Some [word (js "don't") KIND_NON_CJK false false].
Proof.
  exact (splitText_plain_word Sample.isCjk Sample.isK Sample.isPunctuation
           false (js "don't") 100%N 116%N eq_refl eq_refl eq_refl eq_refl).
Defined.

(** *** Where the nodes come from *)

Lemma Forall_appendNode (P : TextNode -> Prop) nodes n :
  P (whitespace []) -> Forall P nodes -> P n ->
  Forall P (appendNode nodes n).
Proof.
  intros Hz Hnodes Hn. unfold appendNode.
  destruct (at_last nodes) as [lastNode|];
    [destruct (needsBreak lastNode n)|];
    repeat (apply Forall_app; split); auto.
Qed.

Lemma incl_piece (l : list jsstring) tok : In tok l -> incl tok (concat l).
Proof.
  intros Hin c Hc. apply in_concat. exists tok. auto.
Qed.

Section Origins.

Variables isCjk isK isPunctuation : char -> bool.
Variable text : jsstring.

Let made := madeFrom isCjk isK isPunctuation text.

(** A piece of a chunk of the text: no blank in it, and its characters are
    characters of the text. *)
Let piece (tok : jsstring) : Prop :=
  noneOf isBlank tok = true /\ incl tok text.

Lemma made_zero_width : made (whitespace []).
Proof. now left. Qed.

Lemma innerLoop_made its :
  cjkSplit isCjk its ->
  forall len idx nodes,
    Forall piece its -> Nat.even idx = true ->
    Forall made nodes ->
    Forall made (innerLoop isK isPunctuation len idx its nodes).
Proof.
  assert (forall len idx r nodes,
             noneOf isCjk r = true -> piece r -> Nat.even idx = true ->
             Forall made nodes ->
             Forall made (innerStep isK isPunctuation len idx r nodes))
    as Hrun.
  { intros len idx r nodes Hr [Hb Hi] E Hnodes.
    rewrite innerStep_even by exact E.
    destruct r as [|c r]; [exact Hnodes|]. cbn [isEmpty].
    apply Forall_appendNode; [apply made_zero_width|exact Hnodes|].
    right. right. left. exists (c :: r).
    repeat split; auto. discriminate. }
  induction 1 as [r Hr | r c tl Hr Hc Htl IH];
    intros len idx nodes Hp E Hnodes.
  - inversion Hp; subst. cbn [innerLoop]. now apply Hrun.
  - inversion Hp as [|? ? Hpr Hp']; subst.
    inversion Hp' as [|? ? [Hcb Hci] Hp'']; subst.
    cbn [innerLoop]. apply IH; [exact Hp''|exact E|].
    rewrite innerStep_odd; [|now apply even_S_false|discriminate].
    apply Forall_appendNode; [apply made_zero_width|now apply Hrun|].
    right. right. right. exists c. repeat split; auto.
    + unfold noneOf in Hcb. cbn in Hcb. rewrite andb_true_r in Hcb.
      now apply negb_true_iff.
    + apply Hci. now left.
Qed.

Lemma chunkNodes_made token nodes :
  piece token -> Forall made nodes ->
  Forall made (chunkNodes isCjk isK isPunctuation token nodes).
Proof.
  intros [Hb Hi] Hnodes. unfold chunkNodes.
  apply innerLoop_made; [apply split_cjkSplit| |reflexivity|exact Hnodes].
  apply Forall_forall. intros tok Hin. split.
  - pose proof (noneOf_concat isBlank (split (cjkExec isCjk) token)) as E.
    rewrite split_cjk_concat, Hb in E. symmetry in E.
    rewrite forallb_forall in E. now apply E.
  - intros c Hc. apply Hi. rewrite <- (split_cjk_concat isCjk token).
    now apply (incl_piece _ tok).
Qed.

Lemma outerLoop_made first tokens :
  blankSplit first tokens ->
  forall len idx nodes,
    Forall (fun tok => incl tok text) tokens -> Nat.even idx = true ->
    Forall made nodes ->
    Forall made (outerLoop isCjk isK isPunctuation len idx tokens nodes).
Proof.
  induction 1 as [first w Hw | first w s tl Hw Hne Hs Hsb Htl IH];
    intros len idx nodes Hi E Hnodes.
  - inversion Hi; subst. cbn [outerLoop]. rewrite outerStep_even by exact E.
    apply chunkNodes_made; [now split|exact Hnodes].
  - inversion Hi as [|? ? Hiw Hi']; subst.
    inversion Hi' as [|? ? His Hi'']; subst.
    cbn [outerLoop]. apply IH; [exact Hi''|exact E|].
    rewrite (outerStep_even isCjk isK isPunctuation len idx w nodes E).
    rewrite (outerStep_odd isCjk isK isPunctuation len (S idx) s _
               (even_S_false _ E)).
    apply Forall_app. split.
    + apply chunkNodes_made; [now split|exact Hnodes].
    + constructor; [|constructor]. right. left. exists s. auto.
Qed.

Lemma buildNodes_made :
  Forall made (buildNodes isCjk isK isPunctuation text).
Proof.
  unfold buildNodes.
  apply (outerLoop_made true);
    [apply split_blankSplit| |reflexivity|constructor].
  apply Forall_forall. intros tok Hin.
  rewrite <- (split_blank_concat text). now apply incl_piece.
Qed.

End Origins.

Lemma hasNewline_In s : hasNewline s = true -> In NEWLINE s.
Proof.
  unfold hasNewline. rewrite existsb_exists. intros (c & Hin & E).
  apply N.eqb_eq in E. now subst c.
Qed.

Lemma blank_cases c :
  isBlank c = true -> c = TAB \/ c = NEWLINE \/ c = SPACE.
Proof.
  unfold isBlank. intros H. apply orb_prop in H. destruct H as [H|H].
  - apply orb_prop in H. destruct H as [H|H]; apply N.eqb_eq in H; auto.
  - apply N.eqb_eq in H. auto.
Qed.

Lemma blanks_without_newline s :
  s <> [] -> forallb isBlank s = true -> hasNewline s = false ->
  exists c, In c s /\ (c = TAB \/ c = SPACE).
Proof.
  destruct s as [|c s]; [now intros []|]. intros _ Hb Hn.
  exists c. split; [now left|]. cbn in Hb, Hn.
  apply andb_prop in Hb. destruct Hb as [Hc _].
  apply orb_false_elim in Hn. destruct Hn as [Hn _].
  apply blank_cases in Hc. destruct Hc as [Hc|[Hc|Hc]]; auto.
  subst c. discriminate.
Qed.

(** X4: a whitespace node of the output holds nothing, one space or one
    newline; it holds a newline only when the text has one, and a space only
    when the text has a tab or a space. *)
Theorem splitText_whitespace_values isCjk isK isPunctuation production text :
  exists nodes,
    splitText isCjk isK isPunctuation production text = Some nodes
    /\ forall v,
        In (whitespace v) nodes ->
        v = []
        \/ (v = [NEWLINE] /\ In NEWLINE text)
        \/ (v = [SPACE] /\ exists c, In c text /\ (c = TAB \/ c = SPACE)).
Proof.
  exists (buildNodes isCjk isK isPunctuation text).
  split; [apply splitText_buildNodes|].
  intros v Hin.
  pose proof (buildNodes_made isCjk isK isPunctuation text) as M.
  rewrite Forall_forall in M. specialize (M _ Hin).
  destruct M as [E|[(s & Hne & Hb & Hi & E)|[(r & _ & _ & _ & _ & E)
                                            |(c & _ & _ & _ & E)]]].
  - injection E as ->. now left.
  - unfold blankNode in E. destruct (hasNewline s) eqn:Hn; injection E as ->.
    + right. left. split; [reflexivity|]. apply Hi. now apply hasNewline_In.
    + right. right. split; [reflexivity|].
      destruct (blanks_without_newline s Hne Hb Hn) as (c & Hc & Hts).
      exists c. split; [now apply Hi|exact Hts].
  - discriminate.
  - unfold cjkWord in E. destruct (punctuationRegex_test _ _); discriminate.
Qed.

(** X5: a word node of the output never holds a tab, a newline or a space: its
    value is not empty and is made of characters of the text that are not
    blanks. *)
Theorem splitText_words_have_no_blank isCjk isK isPunctuation production text :
  exists nodes,
    splitText isCjk isK isPunctuation production text = Some nodes
    /\ forall v k l r,
        In (word v k l r) nodes ->
        v <> [] /\ noneOf isBlank v = true /\ incl v text.
Proof.
  exists (buildNodes isCjk isK isPunctuation text).
  split; [apply splitText_buildNodes|].
  intros v k l r Hin.
  pose proof (buildNodes_made isCjk isK isPunctuation text) as M.
  rewrite Forall_forall in M. specialize (M _ Hin).
  destruct M as [E|[(s & _ & _ & _ & E)|[(run & Hne & _ & Hb & Hi & E)
                                        |(c & _ & Hb & Hi & E)]]].
  - discriminate.
  - discriminate.
  - unfold nonCjkWord in E. injection E as -> _ _ _. auto.
  - assert (v = [c]) as ->.
    { unfold cjkWord in E.
      destruct (punctuationRegex_test _ _); now injection E. }
    split; [discriminate|]. split.
    + unfold noneOf. cbn. now rewrite Hb.
    + intros d [<-|[]]. exact Hi.
Qed.

(** *** The first and the last node *)

Lemma appendNode_prefix nodes n :
  exists more, appendNode nodes n = nodes ++ more /\ more <> [].
Proof.
  unfold appendNode.
  destruct (at_last nodes) as [lastNode|];
    [destruct (needsBreak lastNode n)|].
  - exists [whitespace []; n]. rewrite <- app_assoc. split; [reflexivity|].
    discriminate.
  - exists [n]. split; [reflexivity|discriminate].
  - exists [n]. split; [reflexivity|discriminate].
Qed.

Lemma innerStep_prefix isK isPunctuation len idx tok nodes :
  exists more,
    innerStep isK isPunctuation len idx tok nodes = nodes ++ more.
Proof.
  unfold innerStep.
  repeat match goal with
         | |- context [if ?b then _ else _] => destruct b
         end;
    try (exists []; now rewrite app_nil_r);
    match goal with
    | |- context [appendNode ?l ?n] =>
        destruct (appendNode_prefix l n) as (more & E & _);
        exists more; exact E
    end.
Qed.

Lemma innerLoop_prefix isK isPunctuation len its :
  forall idx nodes,
  exists more,
    innerLoop isK isPunctuation len idx its nodes = nodes ++ more.
Proof.
  induction its as [|tok its IH]; intros idx nodes; cbn [innerLoop].
  - exists []. now rewrite app_nil_r.
  - destruct (innerStep_prefix isK isPunctuation len idx tok nodes)
      as (m1 & E1).
    destruct (IH (S idx) (innerStep isK isPunctuation len idx tok nodes))
      as (m2 & E2).
    exists (m1 ++ m2). rewrite E2, E1. now rewrite app_assoc.
Qed.

Lemma outerStep_prefix isCjk isK isPunctuation len idx tok nodes :
  exists more,
    outerStep isCjk isK isPunctuation len idx tok nodes = nodes ++ more.
Proof.
  unfold outerStep. destruct (Nat.odd idx); [eexists; reflexivity|].
  destruct (_ && _); [exists []; now rewrite app_nil_r|].
  apply innerLoop_prefix.
Qed.

Lemma outerLoop_prefix isCjk isK isPunctuation len tokens :
  forall idx nodes,
  exists more,
    outerLoop isCjk isK isPunctuation len idx tokens nodes = nodes ++ more.
Proof.
  induction tokens as [|tok tokens IH]; intros idx nodes; cbn [outerLoop].
  - exists []. now rewrite app_nil_r.
  - destruct (outerStep_prefix isCjk isK isPunctuation len idx tok nodes)
      as (m1 & E1).
    destruct (IH (S idx) (outerStep isCjk isK isPunctuation len idx tok nodes))
      as (m2 & E2).
    exists (m1 ++ m2). rewrite E2, E1. now rewrite app_assoc.
Qed.

Lemma isWordNode_nonCjkWord isPunctuation r :
  isWordNode (nonCjkWord isPunctuation r) = true.
Proof. reflexivity. Qed.

Lemma isWordNode_cjkWord isK isPunctuation tok :
  isWordNode (cjkWord isK isPunctuation tok) = true.
Proof.
  unfold cjkWord. now destruct (punctuationRegex_test isPunctuation tok).
Qed.

(** From no node at all, the inner loop makes nothing or starts with a
    word. *)
Lemma innerLoop_head isK isPunctuation len its :
  forall idx,
    innerLoop isK isPunctuation len idx its [] = []
    \/ exists n more,
        innerLoop isK isPunctuation len idx its [] = n :: more
        /\ isWordNode n = true.
Proof.
  induction its as [|tok its IH]; intros idx; cbn [innerLoop]; [now left|].
  assert (innerStep isK isPunctuation len idx tok [] = []
          \/ exists n, innerStep isK isPunctuation len idx tok [] = [n]
                       /\ isWordNode n = true) as [E|(n & E & W)].
  { unfold innerStep, appendNode. cbn [at_last app].
    repeat match goal with
           | |- context [if ?b then _ else _] => destruct b
           end; auto; right; eexists; (split; [reflexivity|]);
      first [apply isWordNode_nonCjkWord | apply isWordNode_cjkWord]. }
  - rewrite E. apply IH.
  - rewrite E. right.
    destruct (innerLoop_prefix isK isPunctuation len its (S idx) [n])
      as (more & E').
    exists n, more. split; [exact E'|exact W].
Qed.

Lemma blankSplit_first_piece tokens :
  blankSplit true tokens ->
  forall c rest,
    concat tokens = c :: rest -> isBlank c = false ->
    exists w tl, tokens = w :: tl /\ w <> [].
Proof.
  intros H c rest E Hc. inversion H as [? w Hw|? w s tl Hw _ Hs Hsb _]; subst.
  - exists w, []. split; [reflexivity|]. intros ->. discriminate.
  - exists w, (s :: tl). split; [reflexivity|]. intros ->.
    cbn in E. destruct s as [|d s]; [now destruct Hs|].
    cbn in E, Hsb. injection E as -> _.
    apply andb_prop in Hsb. destruct Hsb as [Hd _]. congruence.
Qed.

Lemma splitLoop_blank_cut fuel pending c rest :
  isBlank c = true ->
  splitLoop whitespaceExec (S fuel) pending (c :: rest)
  = pending :: (c :: takeWhile isBlank rest)
            :: splitLoop whitespaceExec fuel [] (dropWhile isBlank rest).
Proof.
  intros Hc. cbn [splitLoop]. unfold whitespaceExec at 1.
  cbn [takeWhile dropWhile]. rewrite Hc. reflexivity.
Qed.

(** X6: the output starts with a whitespace node exactly when the text starts
    with a blank: the node then stands for the whole run of blanks the text
    starts with; otherwise the output starts with a word node. *)
Theorem splitText_first_node isCjk isK isPunctuation production text :
  exists nodes,
    splitText isCjk isK isPunctuation production text = Some nodes
    /\ forall c rest,
        text = c :: rest ->
        if isBlank c
        then hd_error nodes
             = Some (whitespace
                       (if hasNewline (takeWhile isBlank text)
                        then [NEWLINE] else [SPACE]))
        else exists n, hd_error nodes = Some n /\ isWordNode n = true.
Proof.
  exists (buildNodes isCjk isK isPunctuation text).
  split; [apply splitText_buildNodes|].
  intros c rest ->. destruct (isBlank c) eqn:Hc.
  - unfold buildNodes, split.
    replace (2 * length (c :: rest)) with (S (S (2 * length rest)))
      by (cbn [length]; lia).
    rewrite (splitLoop_blank_cut _ [] c rest Hc).
    set (tl := splitLoop whitespaceExec (S (2 * length rest)) []
                         (dropWhile isBlank rest)).
    set (run := c :: takeWhile isBlank rest).
    cbn [outerLoop].
    match goal with
    | |- context [outerLoop _ _ _ ?l 2 _ _] => set (len := l)
    end.
    rewrite (outerStep_even isCjk isK isPunctuation len 0 [] [] eq_refl).
    rewrite (outerStep_odd isCjk isK isPunctuation len 1 run _ eq_refl).
    change (chunkNodes isCjk isK isPunctuation [] []) with (@nil TextNode).
    destruct (outerLoop_prefix isCjk isK isPunctuation
                len tl 2 ([] ++ [blankNode run]))
      as (more & E).
    rewrite E. cbn [takeWhile]. rewrite Hc. reflexivity.
  - pose proof (split_blankSplit (c :: rest)) as Hshape.
    destruct (blankSplit_first_piece _ Hshape c rest
                (split_blank_concat (c :: rest)) Hc) as (w & tl & E & Hw).
    unfold buildNodes. rewrite E. cbn [outerLoop].
    match goal with
    | |- context [outerLoop _ _ _ ?l 1 _ _] => set (len := l)
    end.
    rewrite (outerStep_even isCjk isK isPunctuation len 0 w [] eq_refl).
    assert (exists n more,
               chunkNodes isCjk isK isPunctuation w [] = n :: more
               /\ isWordNode n = true) as (n & more & En & Wn).
    { unfold chunkNodes.
      destruct (innerLoop_head isK isPunctuation
                  (length (split (cjkExec isCjk) w))
                  (split (cjkExec isCjk) w) 0) as [Enil|H]; [|exact H].
      exfalso. apply Hw.
      pose proof (textOf_chunkNodes isCjk isK isPunctuation w []) as T.
      unfold chunkNodes in T. rewrite Enil in T. cbn in T. now symmetry. }
    rewrite En.
    destruct (outerLoop_prefix isCjk isK isPunctuation
                len tl 1 (n :: more)) as (more' & E').
    rewrite E'. exists n. split; [reflexivity|exact Wn].
Qed.

Lemma at_last_app (A : Type) (a b : list A) :
  b <> [] -> at_last (a ++ b) = at_last b.
Proof.
  intros Hb. destruct b as [|x b] using rev_ind; [now destruct Hb|].
  rewrite app_assoc. now rewrite !at_last_snoc.
Qed.

Lemma at_last_In (A : Type) (l : list A) (x : A) :
  at_last l = Some x -> In x l.
Proof.
  intros H. apply at_last_Some_inv in H. destruct H as (l' & ->).
  apply in_app_iff. right. now left.
Qed.

Lemma blankSplit_no_text first tokens :
  blankSplit first tokens -> concat tokens = [] -> tokens = [[]].
Proof.
  intros H E. inversion H as [? w Hw|? w s tl Hw _ Hs _ _]; subst.
  - cbn in E. rewrite app_nil_r in E. now subst w.
  - cbn in E. apply app_eq_nil in E. destruct E as [_ E].
    apply app_eq_nil in E. destruct E as [E _]. now destruct Hs.
Qed.

(** The text ends with a blank exactly when its last piece is empty. *)
Lemma blankSplit_last_char first tokens :
  blankSplit first tokens ->
  forall d,
    at_last (concat tokens) = Some d ->
    isBlank d = true <-> at_last tokens = Some [].
Proof.
  induction 1 as [first w Hw | first w s tl Hw Hne Hs Hsb Htl IH]; intros d Hd.
  - cbn in Hd. rewrite app_nil_r in Hd. cbn [at_last].
    assert (isBlank d = false) as Hb.
    { apply at_last_In in Hd. unfold noneOf in Hw.
      rewrite forallb_forall in Hw. apply negb_true_iff. now apply Hw. }
    split; [congruence|]. intros [= ->]. discriminate.
  - assert (at_last (w :: s :: tl) = at_last tl) as ->.
    { inversion Htl; reflexivity. }
    cbn [concat] in Hd. destruct (concat tl) as [|x rest] eqn:E.
    + apply blankSplit_no_text in Htl; [|exact E]. subst tl.
      rewrite app_nil_r in Hd. rewrite at_last_app in Hd by exact Hs.
      apply at_last_In in Hd. rewrite forallb_forall in Hsb.
      split; [reflexivity|]. intros _. now apply Hsb.
    + rewrite app_assoc in Hd. rewrite at_last_app in Hd by discriminate.
      now apply IH.
Qed.

Lemma run_space_last isCjk isK isPunctuation s l :
  run isCjk isK isPunctuation s l = Some AfterSpace -> s <> AfterSpace ->
  exists l' v, l = l' ++ [whitespace v] /\ v <> [].
Proof.
  destruct l as [|x l] using rev_ind.
  - intros [= ->] N. now destruct N.
  - intros H _. apply run_snoc_inv in H. destruct H as (t0 & _ & Hstep).
    exists l. pose proof Hstep as Hinv. apply step_inv in Hinv.
    destruct Hinv as [[_ Hx]|[[? _]|(? & ? & _)]]; try discriminate.
    destruct x as [v|v k a b]; [|discriminate].
    exists v. split; [reflexivity|]. intros ->.
    unfold step in Hstep. cbn [isEmpty] in Hstep.
    destruct t0; discriminate.
Qed.

(** Where the outer loop ends: after a whitespace node when the last piece
    is empty and is not the only one, after a word when it is not empty. *)
Lemma outerLoop_final isCjk isK isPunctuation first tokens :
  blankSplit first tokens ->
  forall len idx nodes t,
    Nat.even idx = true ->
    run isCjk isK isPunctuation AtStart nodes = Some t ->
    (if first then t = AtStart else t = AfterSpace) ->
    exists t',
      run isCjk isK isPunctuation AtStart
          (outerLoop isCjk isK isPunctuation len idx tokens nodes)
      = Some t'
      /\ (at_last tokens = Some []
          -> t' = match tokens with [_] => t | _ => AfterSpace end)
      /\ (at_last tokens <> Some [] -> exists w, t' = AfterWord w).
Proof.
  induction 1 as [first w Hw | first w s tl Hw Hne Hs Hsb Htl IH];
    intros len idx nodes t E Hrun Ht.
  - assert (t = AtStart \/ t = AfterSpace) as Ht'' by (destruct first; auto).
    cbn [outerLoop]. rewrite outerStep_even by exact E.
    destruct (@chunkNodes_run isCjk isK isPunctuation w nodes t Hw Hrun Ht'')
      as (t' & Hrun' & Ht').
    exists t'. split; [exact Hrun'|]. cbn [at_last]. split.
    + intros [= ->]. destruct Ht' as [[w' ->]|[-> _]]; [|reflexivity].
      exfalso.
      change (chunkNodes isCjk isK isPunctuation [] nodes) with nodes
        in Hrun'.
      rewrite Hrun in Hrun'. injection Hrun' as ->.
      destruct Ht''; discriminate.
    + intros N. destruct Ht' as [Hw'|[_ ->]]; [exact Hw'|now destruct N].
  - assert (t = AtStart \/ t = AfterSpace) as Ht'' by (destruct first; auto).
    cbn [outerLoop].
    rewrite (outerStep_even isCjk isK isPunctuation len idx w nodes E).
    rewrite (outerStep_odd isCjk isK isPunctuation len (S idx) s _
               (even_S_false _ E)).
    destruct (@chunkNodes_run isCjk isK isPunctuation w nodes t Hw Hrun Ht'')
      as (t1 & Hrun1 & Ht1).
    assert (run isCjk isK isPunctuation AtStart
                (chunkNodes isCjk isK isPunctuation w nodes ++ [blankNode s])
            = Some AfterSpace) as Hrun2.
    { rewrite run_app, Hrun1. cbv beta iota. rewrite run_cons.
      rewrite blankNode_step; [reflexivity|].
      destruct Ht1 as [Hw'|[-> ->]]; [now right|].
      destruct first; [now left|now destruct Hne]. }
    destruct (IH len (S (S idx)) _ AfterSpace E Hrun2 eq_refl)
      as (t' & Hrun' & Hempty & Hword).
    exists t'. split; [exact Hrun'|].
    assert (at_last (w :: s :: tl) = at_last tl) as ->
        by (inversion Htl; reflexivity).
    split; [|exact Hword].
    intros Hl. rewrite (Hempty Hl). inversion Htl; reflexivity.
Qed.

(** X7: the output ends with a whitespace node exactly when the text ends with
    a blank, and this node is not a zero-width one; otherwise the output
    ends with a word node. *)
Theorem splitText_last_node isCjk isK isPunctuation production text :
  exists nodes,
    splitText isCjk isK isPunctuation production text = Some nodes
    /\ forall d,
        at_last text = Some d ->
        if isBlank d
        then exists v, at_last nodes = Some (whitespace v) /\ v <> []
        else exists n, at_last nodes = Some n /\ isWordNode n = true.
Proof.
  exists (buildNodes isCjk isK isPunctuation text).
  split; [apply splitText_buildNodes|].
  intros d Hd. pose proof (split_blankSplit text) as Hshape.
  pose proof (blankSplit_last_char true _ Hshape d) as Hlast.
  rewrite split_blank_concat in Hlast. specialize (Hlast Hd).
  unfold buildNodes.
  destruct (outerLoop_final isCjk isK isPunctuation true _ Hshape
              (length (split whitespaceExec text)) 0 [] AtStart
              eq_refl eq_refl eq_refl) as (t' & Hrun & Hempty & Hword).
  cbv zeta.
  destruct (isBlank d) eqn:Hb.
  - assert (at_last (split whitespaceExec text) = Some []) as Hl
        by now apply Hlast.
    specialize (Hempty Hl).
    assert (t' = AfterSpace) as ->.
    { rewrite Hempty.
      destruct (split whitespaceExec text) as [|a [|b tl]] eqn:Es;
        try reflexivity.
      exfalso. cbn in Hl. injection Hl as ->.
      pose proof (split_blank_concat text) as Ec. rewrite Es in Ec.
      cbn in Ec. subst text. discriminate. }
    apply run_space_last in Hrun; [|discriminate].
    destruct Hrun as (l' & v & -> & Hv). exists v.
    rewrite at_last_snoc. auto.
  - assert (at_last (split whitespaceExec text) <> Some []) as Hl.
    { intros N. apply Hlast in N. discriminate. }
    destruct (Hword Hl) as (w & ->).
    apply run_word_last in Hrun; [|discriminate].
    destruct Hrun as (l' & -> & Ww). exists w.
    rewrite at_last_snoc. auto.
Qed.

(** ** [splitText] on the two sides of a run of blanks *)

Lemma splitLoop_fuel f1 :
  forall f2 pending rest,
    length rest <= f1 -> length rest <= f2 ->
    splitLoop whitespaceExec f1 pending rest
    = splitLoop whitespaceExec f2 pending rest.
Proof.
  induction f1 as [|f1 IH]; intros f2 pending rest H1 H2.
  - destruct rest; [|cbn in H1; lia].
    destruct f2; cbn [splitLoop]; now rewrite ?app_nil_r.
  - destruct rest as [|c rest].
    + destruct f2; cbn [splitLoop]; now rewrite ?app_nil_r.
    + destruct f2 as [|f2]; [cbn in H2; lia|]. cbn [length] in H1, H2.
      destruct (isBlank c) eqn:Hc.
      * rewrite !splitLoop_blank_cut by exact Hc. f_equal. f_equal.
        pose proof (dropWhile_length isBlank rest). apply IH; lia.
      * cbn [splitLoop]. unfold whitespaceExec. cbn [takeWhile].
        rewrite Hc. apply IH; lia.
Qed.

Lemma endsClean_cons c a :
  endsClean (c :: a) -> a <> [] -> endsClean a.
Proof.
  unfold endsClean. intros H Hne. destruct a as [|d a]; [now destruct Hne|].
  exact H.
Qed.

Lemma endsClean_dropWhile a :
  endsClean a -> endsClean (dropWhile isBlank a).
Proof.
  induction a as [|c a IH]; intros H; [exact H|].
  cbn [dropWhile]. destruct (isBlank c) eqn:Hc; [|exact H].
  destruct a as [|d a]; [exact I|].
  apply IH. now apply (endsClean_cons c).
Qed.

Lemma endsClean_has_clean a :
  endsClean a -> a <> [] -> existsb (fun c => negb (isBlank c)) a = true.
Proof.
  unfold endsClean. intros H Hne.
  destruct (at_last a) as [d|] eqn:E;
    [|apply at_last_nil_inv in E; now destruct Hne].
  apply existsb_exists. exists d. split; [now apply at_last_In|].
  now rewrite H.
Qed.

Lemma takeWhile_app_stop p (x y : jsstring) :
  existsb (fun c => negb (p c)) x = true ->
  takeWhile p (x ++ y) = takeWhile p x
  /\ dropWhile p (x ++ y) = dropWhile p x ++ y.
Proof.
  induction x as [|c x IH]; [discriminate|]. cbn.
  destruct (p c); cbn; [|auto].
  intros H. destruct (IH H) as [-> ->]. auto.
Qed.

(** The pieces of a text around a run of blanks are the pieces of what
    comes before, the run, and the pieces of what comes after. *)
Lemma splitLoop_join s b :
  s <> [] -> forallb isBlank s = true -> startsWith isBlank b = false ->
  forall bound a pending f f1 f2,
    length a <= bound -> endsClean a ->
    length (a ++ s ++ b) <= f -> length a <= f1 -> length b <= f2 ->
    splitLoop whitespaceExec f pending (a ++ s ++ b)
    = splitLoop whitespaceExec f1 pending a
      ++ s :: splitLoop whitespaceExec f2 [] b.
Proof.
  intros Hs Hsb Hb.
  induction bound as [|bound IH]; intros a pending f f1 f2 Hbound Ha Hf Hf1 Hf2.
  - destruct a; [|cbn in Hbound; lia]. clear Hbound Ha.
    destruct s as [|c s']; [now destruct Hs|].
    cbn [app length] in *. destruct f as [|f]; [lia|].
    cbn [forallb] in Hsb. apply andb_prop in Hsb. destruct Hsb as [Hc Hs'].
    rewrite splitLoop_blank_cut by exact Hc.
    rewrite takeWhile_app, dropWhile_app by assumption.
    rewrite length_app in Hf.
    rewrite (splitLoop_fuel f f2) by lia.
    destruct f1; cbn [splitLoop app]; now rewrite ?app_nil_r.
  - destruct a as [|c a].
    + apply (IH [] pending f f1 f2); auto. cbn. lia.
    + cbn [app length] in *.
      destruct f as [|f]; [lia|]. destruct f1 as [|f1]; [lia|].
      destruct (isBlank c) eqn:Hc.
      * assert (a <> []) as Hne.
        { intros ->. unfold endsClean in Ha. cbn in Ha. congruence. }
        pose proof (endsClean_cons c a Ha Hne) as Ha'.
        destruct (takeWhile_app_stop isBlank a (s ++ b)
                    (endsClean_has_clean a Ha' Hne)) as [Et Ed].
        rewrite !splitLoop_blank_cut by exact Hc. rewrite Et, Ed.
        cbn [app]. f_equal. f_equal.
        pose proof (dropWhile_length isBlank a) as Hlen.
        apply IH; try lia.
        -- now apply endsClean_dropWhile.
        -- rewrite !length_app in *. lia.
      * cbn [splitLoop]. unfold whitespaceExec. cbn [takeWhile].
        rewrite Hc. apply IH; try lia.
        destruct a as [|d a]; [exact I|]. now apply (endsClean_cons c).
Qed.

Lemma split_join a s b :
  endsClean a -> s <> [] -> forallb isBlank s = true ->
  startsWith isBlank b = false ->
  split whitespaceExec (a ++ s ++ b)
  = split whitespaceExec a ++ s :: split whitespaceExec b.
Proof.
  intros Ha Hs Hsb Hb.
  assert (forall x, split whitespaceExec x
                    = splitLoop whitespaceExec (2 * length x) [] x) as Hsplit.
  { intros [|c x]; reflexivity. }
  rewrite !Hsplit.
  apply (splitLoop_join s b Hs Hsb Hb (length a)); auto; lia.
Qed.

Lemma outerLoop_walk isCjk isK isPunctuation len tokens :
  forall idx nodes,
    Nat.even idx = true ->
    outerLoop isCjk isK isPunctuation len idx tokens nodes
    = walk isCjk isK isPunctuation tokens nodes.
Proof.
  assert (forall n tokens, length tokens <= n ->
            forall idx nodes,
              Nat.even idx = true ->
              outerLoop isCjk isK isPunctuation len idx tokens nodes
              = walk isCjk isK isPunctuation tokens nodes) as H.
  { induction n as [|n IH]; intros toks Hn idx nodes E.
    - destruct toks; [reflexivity|cbn in Hn; lia].
    - destruct toks as [|w [|s tl]]; [reflexivity| |].
      + cbn [outerLoop walk]. now apply outerStep_even.
      + cbn [outerLoop walk].
        rewrite (outerStep_even isCjk isK isPunctuation len idx w nodes E).
        rewrite (outerStep_odd isCjk isK isPunctuation len (S idx) s _
                   (even_S_false _ E)).
        apply IH; [cbn in Hn; lia|exact E]. }
  intros idx nodes E. now apply (H (length tokens)).
Qed.

Lemma buildNodes_walk isCjk isK isPunctuation text :
  buildNodes isCjk isK isPunctuation text
  = walk isCjk isK isPunctuation (split whitespaceExec text) [].
Proof. unfold buildNodes. now apply outerLoop_walk. Qed.

Lemma walk_join isCjk isK isPunctuation first tokens :
  blankSplit first tokens ->
  forall s tokens' nodes,
    walk isCjk isK isPunctuation (tokens ++ s :: tokens') nodes
    = walk isCjk isK isPunctuation tokens'
           (walk isCjk isK isPunctuation tokens nodes ++ [blankNode s]).
Proof.
  induction 1 as [first w Hw | first w s0 tl Hw Hne Hs Hsb Htl IH];
    intros s tokens' nodes.
  - reflexivity.
  - cbn [app walk]. apply IH.
Qed.

(** *** The nodes before do not count when they end with a whitespace *)


Lemma appendNode_closed pre l n :
  closed pre -> appendNode (pre ++ l) n = pre ++ appendNode l n.
Proof.
  intros Hpre. unfold appendNode.
  destruct l as [|x l].
  - rewrite app_nil_r. cbn [at_last app]. unfold closed in Hpre.
    destruct (at_last pre) as [lastNode|]; [|reflexivity].
    unfold needsBreak. now rewrite Hpre.
  - rewrite at_last_app by discriminate.
    destruct (at_last (x :: l)) as [lastNode|];
      [destruct (needsBreak lastNode n)|];
      now rewrite <- ?app_assoc.
Qed.

Lemma innerStep_closed isK isPunctuation len idx tok pre l :
  closed pre ->
  innerStep isK isPunctuation len idx tok (pre ++ l)
  = pre ++ innerStep isK isPunctuation len idx tok l.
Proof.
  intros Hpre. unfold innerStep.
  repeat match goal with
         | |- context [if ?b then _ else _] => destruct b
         end; try reflexivity; now apply appendNode_closed.
Qed.

Lemma innerLoop_closed isK isPunctuation len its pre :
  closed pre ->
  forall idx l,
    innerLoop isK isPunctuation len idx its (pre ++ l)
    = pre ++ innerLoop isK isPunctuation len idx its l.
Proof.
  intros Hpre. induction its as [|tok its IH]; intros idx l; [reflexivity|].
  cbn [innerLoop]. rewrite innerStep_closed by exact Hpre. apply IH.
Qed.

Lemma chunkNodes_closed isCjk isK isPunctuation token pre l :
  closed pre ->
  chunkNodes isCjk isK isPunctuation token (pre ++ l)
  = pre ++ chunkNodes isCjk isK isPunctuation token l.
Proof. intros Hpre. unfold chunkNodes. now apply innerLoop_closed. Qed.

Lemma walk_closed isCjk isK isPunctuation pre :
  closed pre ->
  forall n tokens l,
    length tokens <= n ->
    walk isCjk isK isPunctuation tokens (pre ++ l)
    = pre ++ walk isCjk isK isPunctuation tokens l.
Proof.
  intros Hpre. induction n as [|n IH]; intros tokens l Hn.
  - destruct tokens; [reflexivity|cbn in Hn; lia].
  - destruct tokens as [|w [|s tl]]; [reflexivity| |].
    + cbn [walk]. now apply chunkNodes_closed.
    + cbn [walk]. rewrite chunkNodes_closed by exact Hpre.
      rewrite <- app_assoc. apply IH. cbn in Hn. lia.
Qed.

(** X8: a run of blanks cuts the text in two: the nodes of the text are the
    nodes of what comes before the run, one whitespace node for the run, and
    the nodes of what comes after it.  The run is a whole one: the text
    before does not end with a blank and the text after does not start with
    one. *)
Theorem splitText_around_blanks isCjk isK isPunctuation production a s b :
  endsClean a -> s <> [] -> forallb isBlank s = true ->
  startsWith isBlank b = false ->
  exists before after,
    splitText isCjk isK isPunctuation production a = Some before
    /\ splitText isCjk isK isPunctuation production b = Some after
    /\ splitText isCjk isK isPunctuation production (a ++ s ++ b)
       = Some (before
                 ++ whitespace (if hasNewline s then [NEWLINE] else [SPACE])
                 :: after).
Proof.
  intros Ha Hs Hsb Hb.
  exists (buildNodes isCjk isK isPunctuation a),
    (buildNodes isCjk isK isPunctuation b).
  rewrite !splitText_buildNodes. repeat split. f_equal.
  rewrite !buildNodes_walk, split_join by assumption.
  rewrite (walk_join isCjk isK isPunctuation true _ (split_blankSplit a)).
  set (pre := walk isCjk isK isPunctuation (split whitespaceExec a) []
              ++ [blankNode s]).
  rewrite <- (app_nil_r pre).
  rewrite (walk_closed isCjk isK isPunctuation pre)
    with (n := length (split whitespaceExec b));
    [|unfold closed, pre; now rewrite at_last_snoc|apply Nat.le_refl].
  unfold pre. rewrite <- app_assoc. reflexivity.
Qed.

Lemma splitText_around_blanks_witness :
  Sample.splitText false (js "  a b" ++ [9; 10]%N ++ js "c ")
  = Some ([whitespace [SPACE]; word (js "a") KIND_NON_CJK false false;
           whitespace [SPACE]; word (js "b") KIND_NON_CJK false false]
            ++ whitespace [NEWLINE]
            :: [word (js "c") KIND_NON_CJK false false; whitespace [SPACE]]).
Proof.
  destruct (splitText_around_blanks
              Sample.isCjk Sample.isK Sample.isPunctuation false
              (js "  a b") [9; 10]%N (js "c ")
              eq_refl ltac:(discriminate) eq_refl eq_refl)
    as (before & after & Ea & Eb & E).
  unfold Sample.splitText. etransitivity; [exact E|].
  vm_compute in Ea. vm_compute in Eb.
  injection Ea as <-. injection Eb as <-. reflexivity.
Defined.

(** ** Further properties of the ordered-list functions *)

(** X9: the groups are those of the only way to cut the slice: the call
    returns an info exactly when the slice is white space, the digits of
    [numberText], the marker, the white space of [leadingSpaces] and a rest
    that does not start with white space.  So nothing but the slice counts,
    white space before the number changes nothing, and neither does the
    text after the white space that follows the marker. *)
Theorem getOrderedListItemInfo_exact orderListItem originalText info :
  getOrderedListItemInfo orderListItem originalText = Returns info
  <-> itemGroups (slice originalText
                        (start_offset (itemPosition orderListItem))
                        (end_offset (itemPosition orderListItem)))
                 info.
Proof.
  unfold getOrderedListItemInfo.
  set (s := slice _ _ _).
  split.
  { destruct (matchListItem s) as [[[digits mk] spaces']|] eqn:E;
      [|discriminate].
    intros [= <-]. now apply matchListItem_Some. }
  intros (spaces & m & rest & E & Hs & Hne & Hd & Hm & Hmk & Hl & Hr).
  destruct info as [digits mk spaces'].
  cbn [numberText marker leadingSpaces] in *.
  subst mk. unfold matchListItem. rewrite E.
  destruct digits as [|d digits]; [now destruct Hne|].
  assert (isDigit d = true) as Hd0
      by (cbn in Hd; now apply andb_prop in Hd).
  rewrite dropWhile_app; [|exact Hs|cbn; now apply digit_not_space].
  change ((d :: digits) ++ m :: spaces' ++ rest)
    with ((d :: digits) ++ (m :: spaces' ++ rest)).
  rewrite takeWhile_app, dropWhile_app;
    try exact Hd; try (cbn; now apply marker_not_digit).
  rewrite Hm. rewrite takeWhile_app by assumption. reflexivity.
Qed.

Lemma getOrderedListItemInfo_exact_witness :
  getOrderedListItemInfo
    {| itemPosition := {| start_offset := 4; end_offset := 15 |} |}
    (js "- a    007.   b c")
  = Returns {| numberText := js "007"; marker := js ".";
               leadingSpaces := js "   " |}.
Proof.
  apply (proj2 (getOrderedListItemInfo_exact _ _ _)).
  exists (js "   "), 46%N, (js "b").
  repeat split; try reflexivity; discriminate.
Defined.

(** X10: [hasGitDiffFriendlyOrderedList] throws in these cases only: the list
    is ordered, has two items or more, and the slice of the first item, or
    of the second, or, when the first number is 0 and there is a third item,
    of the third, does not begin with a number and a marker. *)
Theorem hasGitDiffFriendlyOrderedList_throws node options :
  let info item := getOrderedListItemInfo item (originalText options) in
  hasGitDiffFriendlyOrderedList node options = Throws
  <-> isOrdered node = true
      /\ exists item0 item1 more,
          listChildren node = item0 :: item1 :: more
          /\ (info item0 = Throws
              \/ exists info0,
                  info item0 = Returns info0
                  /\ (info item1 = Throws
                      \/ exists info1 item2 more',
                          info item1 = Returns info1
                          /\ Number (numberText info0) = 0%N
                          /\ more = item2 :: more'
                          /\ info item2 = Throws)).
Proof.
  intros info. unfold hasGitDiffFriendlyOrderedList, childAt.
  destruct (isOrdered node); cbn [negb].
  2:{ split; [discriminate|]. now intros [? _]. }
  destruct (listChildren node) as [|item0 [|item1 more]] eqn:Ec;
    cbn [length Nat.ltb Nat.leb].
  - split; [discriminate|]. intros (_ & ? & ? & ? & [=] & _).
  - split; [discriminate|]. intros (_ & ? & ? & ? & [=] & _).
  - cbn [nth_error bind]. fold (info item0). fold (info item1).
    destruct (info item0) as [info0|] eqn:E0; cbn [bind].
    2:{ split; [|reflexivity]. intros _. split; [reflexivity|].
        exists item0, item1, more. split; [reflexivity|]. left.
        exact E0. }
    destruct (info item1) as [info1|] eqn:E1; cbn [bind].
    2:{ split; [|reflexivity]. intros _. split; [reflexivity|].
        exists item0, item1, more. split; [reflexivity|]. right.
        exists info0. split; [exact E0|]. left. exact E1. }
    destruct (N.eqb (Number (numberText info0)) 0) eqn:En; cbn [andb].
    + apply N.eqb_eq in En.
      destruct more as [|item2 more'];
        cbn [length Nat.ltb Nat.leb nth_error bind].
      * split; [discriminate|].
        intros (_ & i0 & i1 & m & [= <- <- <-] & [H|H]).
        -- rewrite E0 in H. discriminate.
        -- destruct H as (? & _ & [H|(? & ? & ? & _ & _ & [=] & _)]).
           rewrite E1 in H. discriminate.
      * fold (info item2). destruct (info item2) as [info2|] eqn:E2;
          cbn [bind].
        -- split; [discriminate|].
           intros (_ & i0 & i1 & m & [= <- <- <-] & [H|H]).
           ++ rewrite E0 in H. discriminate.
           ++ destruct H as (? & _ & [H|(? & ? & ? & _ & _ & [= <- <-] & H)]).
              ** rewrite E1 in H. discriminate.
              ** rewrite E2 in H. discriminate.
        -- split; [|reflexivity]. intros _. split; [reflexivity|].
           exists item0, item1, (item2 :: more').
           split; [reflexivity|]. right. exists info0.
           split; [exact E0|]. right. exists info1, item2, more'. auto.
    + apply N.eqb_neq in En. split; [discriminate|].
      intros (_ & i0 & i1 & m & [= <- <- <-] & [H|H]).
      * rewrite E0 in H. discriminate.
      * destruct H as (i & Hi & [H|(? & ? & ? & _ & Hz & _)]).
        -- rewrite E1 in H. discriminate.
        -- rewrite E0 in Hi. injection Hi as <-. now destruct En.
Qed.

Lemma hasGitDiffFriendlyOrderedList_throws_witness :
  hasGitDiffFriendlyOrderedList
    (orderedListOf [js "1. a"; js "- b"]) (optionsOf [js "1. a"; js "- b"])
  = Throws.
Proof.
  apply (proj2 (hasGitDiffFriendlyOrderedList_throws _ _)).
  split; [reflexivity|].
  eexists. eexists. eexists. split; [reflexivity|]. right.
  eexists. split; [reflexivity|]. left. reflexivity.
Defined.

(** X11: [hasGitDiffFriendlyOrderedList] looks at the first three items at most:
    two lists with the same [ordered] and the same first three items get the
    same answer, whatever follows. *)
Theorem hasGitDiffFriendlyOrderedList_first_three
        node node' options item0 item1 item2 more more' :
  ordered node = ordered node' ->
  listChildren node = item0 :: item1 :: item2 :: more ->
  listChildren node' = item0 :: item1 :: item2 :: more' ->
  hasGitDiffFriendlyOrderedList node options
  = hasGitDiffFriendlyOrderedList node' options.
Proof.
  intros Ho Hc Hc'. unfold hasGitDiffFriendlyOrderedList, childAt, isOrdered.
  rewrite Ho, Hc, Hc'. reflexivity.
Qed.

Lemma hasGitDiffFriendlyOrderedList_first_three_witness :
  hasGitDiffFriendlyOrderedList
    {| ordered := Some true;
       listChildren := itemsOf 0 [js "0. a"; js "1. b"; js "1. c"] |}
    (optionsOf [js "0. a"; js "1. b"; js "1. c"; js "9. d"])
  = hasGitDiffFriendlyOrderedList
      (orderedListOf [js "0. a"; js "1. b"; js "1. c"; js "9. d"])
      (optionsOf [js "0. a"; js "1. b"; js "1. c"; js "9. d"]).
Proof.
  eapply hasGitDiffFriendlyOrderedList_first_three; reflexivity.
Defined.
(** ** Further properties of [mapAst] *)

Lemma childrenOf_leaf (h : heap) l fs c :
  nth_error h l = Some (CObject {| fields := fs; childrenProp := c |}) ->
  notTruthy c -> childrenOf h (VRef l) = [].
Proof.
  intros Hl Hc. cbn [childrenOf]. rewrite Hl. cbn [childrenProp].
  destruct c as [[| | | | |a]|]; try reflexivity. cbn in Hc. discriminate.
Qed.

Lemma childrenOf_branch (h : heap) l a fs items :
  nth_error h l
  = Some (CObject {| fields := fs; childrenProp := Some (VRef a) |}) ->
  nth_error h a = Some (CArray items) ->
  childrenOf h (VRef l) = items.
Proof.
  intros Hl Ha. cbn [childrenOf]. rewrite Hl. cbn [childrenProp].
  now rewrite Ha.
Qed.

Lemma eachChild_extends (h h' : heap) fuel items kids :
  Forall2 (represents 0 h) items kids ->
  Forall (fun t =>
            forall (h h' : heap) v index fuel,
              represents 0 h v t -> extends h h' ->
              preorderCalls h' fuel v index = preorderCalls h fuel v index)
         kids ->
  extends h h' ->
  forall k,
    eachChild (preorderCalls h' fuel) items k
    = eachChild (preorderCalls h fuel) items k.
Proof.
  intros Hitems IH X.
  induction Hitems as [|child kid items kids Hchild Hrest IHitems];
    intros k; [reflexivity|].
  inversion IH as [|? ? Hkid Hkids]; subst. cbn [eachChild].
  rewrite (Hkid h h' child (VNumber (Z.of_nat k)) fuel Hchild X).
  now rewrite (IHitems Hkids).
Qed.

(** The walk reads the cells of the tree only: more cells change nothing. *)
Lemma preorderCalls_extends t :
  forall (h h' : heap) v index fuel,
    represents 0 h v t -> extends h h' ->
    preorderCalls h' fuel v index = preorderCalls h fuel v index.
Proof.
  induction t as [fs c|fs kids IH] using tree_induction;
    intros h h' v index fuel R X;
    (destruct fuel as [|fuel]; [reflexivity|]); cbn [preorderCalls]; f_equal.
  - inversion R as [l ? ? _ Hl Hc|]; subst.
    rewrite (childrenOf_leaf h l fs c Hl Hc).
    rewrite (childrenOf_leaf h' l fs c
               (extends_nth_error _ X Hl) Hc).
    reflexivity.
  - inversion R as [|l a ? items ? _ _ Hl Ha Hitems]; subst.
    rewrite (childrenOf_branch h l a fs items Hl Ha).
    rewrite (childrenOf_branch h' l a fs items
               (extends_nth_error _ X Hl) (extends_nth_error _ X Ha)).
    now apply (eachChild_extends h h' fuel items kids).
Qed.

Lemma mapItems_calls fuel copy parentStack (h0 : heap) :
  forall items kids,
    Forall2 (represents 0 h0) items kids ->
    Forall visitsOnce kids ->
    Forall (fun k => height k <= fuel) kids ->
    forall (h : heap) (log : list visit) k,
      extends h0 h ->
      exists h' more mapped,
        mapItems (fun st child index =>
                    preorder identity fuel st child index
                             (VRef copy :: parentStack))
                 (h, log) items k
        = Some (Returns ((h', log ++ more), mapped))
        /\ extends h h'
        /\ length more = fold_right (fun k n => size k + n) 0 kids
        /\ map called more = eachChild (preorderCalls h0 fuel) items k.
Proof.
  induction 1 as [|child kid items kids Hchild Hrest IH];
    intros Honce Hfuel h log k X.
  - exists h, [], []. cbn [mapItems]. rewrite app_nil_r.
    split; [reflexivity|]. split; [apply extends_refl|].
    split; reflexivity.
  - inversion Honce as [|? ? Hc Hcs]; subst.
    inversion Hfuel as [|? ? Hf Hfs]; subst.
    destruct (Hc fuel h log child (VNumber (Z.of_nat k))
                 (VRef copy :: parentStack))
      as (h1 & more1 & r1 & E1 & X1 & L1 & C1);
      [eapply represents_extends; eassumption|exact Hf|].
    destruct (IH Hcs Hfs h1 (log ++ more1) (S k))
      as (h2 & more2 & mapped & E2 & X2 & L2 & C2);
      [eapply extends_trans; eassumption|].
    exists h2, (more1 ++ more2), (r1 :: mapped). cbn [mapItems].
    rewrite E1. cbn [bindF]. rewrite E2. cbn [bindF].
    rewrite app_assoc. split; [reflexivity|].
    split; [eapply extends_trans; eassumption|]. split.
    + rewrite length_app, L1, L2. reflexivity.
    + rewrite map_app, C1, C2. cbn [eachChild]. f_equal.
      exact (preorderCalls_extends kid h0 h child _ fuel Hchild X).
Qed.

Lemma preorder_visitsOnce t : visitsOnce t.
Proof.
  induction t as [fs c|fs kids IH] using tree_induction;
    intros fuel h log root index parentStack R Hfuel.
  - destruct fuel as [|fuel]; [cbn in Hfuel; lia|].
    inversion R as [l ? ? _ Hl Hc|]; subst.
    cbn [preorder identity preorderCalls].
    rewrite (childrenOf_leaf h l fs c Hl Hc). rewrite app_nil_r.
    cbn [spread]. rewrite Hl.
    eexists. eexists. eexists.
    destruct c as [v|]; cbn [childrenProp notTruthy] in *.
    + rewrite Hc. split; [reflexivity|].
      split; [apply extends_app|]. split; reflexivity.
    + split; [reflexivity|]. split; [apply extends_app|].
      split; reflexivity.
  - destruct fuel as [|fuel]; [cbn in Hfuel; lia|].
    inversion R as [|l a ? items ? _ _ Hl Ha Hitems]; subst.
    pose proof Hfuel as Hkids. apply height_kids in Hkids.
    destruct (mapItems_calls fuel (length h) parentStack h items kids
                Hitems IH Hkids
                (h ++ [CObject {| fields := fs;
                                  childrenProp := Some (VRef a) |}])
                (log ++ [{| visitNode := VRef l; visitIndex := index;
                            visitStack := parentStack;
                            visitCopy := length h;
                            visitChildren := items |}]) 0)
      as (h3 & more & mapped & E & X & L & C); [apply extends_app|].
    rewrite (@preorder_identity_branch fuel h log l index parentStack fs a
               items Hl Ha).
    eexists. exists ({| visitNode := VRef l; visitIndex := index;
                        visitStack := parentStack;
                        visitCopy := length h;
                        visitChildren := items |} :: more). eexists.
    split; [|split; [|split]].
    + eapply bindF_returns; [exact E|].
      rewrite <- app_assoc. reflexivity.
    + destruct X as [m3 ->]. rewrite <- !app_assoc.
      apply setChildren_extends. lia.
    + cbn [length size]. now rewrite L.
    + cbn [map preorderCalls]. unfold called at 1.
      cbn [visitNode visitIndex].
      rewrite (childrenOf_branch h l a fs items Hl Ha). now rewrite C.
Qed.

(** X13: with the handler that returns its node, [mapAst] calls the handler
    for the nodes of the tree as a walk from the root lists them: the
    sequence of its calls, each taken as the node and the index it is given,
    is the root with no index, then the calls for what is under the first
    child of the root, then for what is under the second, and so on, each
    child with its place among the children of its parent.  So every node
    of the tree gets one call, no call is for anything else, and a node comes
    before its children. *)
Theorem mapAst_identity_visits_once (h : heap) ast t :
  represents 0 h ast t ->
  exists h' log r,
    mapAst identity (height t) h ast = Some (Returns ((h', log), r))
    /\ map called log = preorderCalls h (height t) ast VNull
    /\ length log = size t.
Proof.
  intros R.
  destruct (preorder_visitsOnce t (height t) h [] ast VNull [] R (le_n _))
    as (h' & more & r & E & _ & L & C).
  exists h', more, r. unfold mapAst. auto.
Qed.

Lemma mapAst_identity_visits_once_witness :
  exists h' log r,
    mapAst identity (height sampleTree) sampleHeap (VRef 0)
    = Some (Returns ((h', log), r))
    /\ map called log
       = [ (VRef 0, VNull); (VRef 2, VNumber 0); (VRef 3, VNumber 1);
           (VRef 5, VNumber 0) ]
    /\ length log = 4.
Proof.
  exact (mapAst_identity_visits_once sampleHeap (VRef 0) sampleTree
           sampleTree_in_sampleHeap).
Defined.
(** ** [splitText] for any pattern *)





Lemma Supplementary_consumes : consumes Supplementary.cjkExec.
Proof.
  intros [|c s] m after; [discriminate|]. cbn [Supplementary.cjkExec].
  destruct (Sample.isCjk c).
  - intros [= <- <-]. split; [discriminate|reflexivity].
  - destruct s as [|d s]; [discriminate|].
    destruct (Supplementary.isHighSurrogate c
              && Supplementary.isLowSurrogate d); [|discriminate].
    intros [= <- <-]. split; [discriminate|reflexivity].
Qed.

(** *** The tokens of [token.split(cjkPattern)] *)

Lemma unmatched_nil exec rest : unmatched exec [] rest.
Proof. intros [|x u] c v E; discriminate. Qed.

Lemma unmatched_snoc exec pending c rest :
  unmatched exec pending (c :: rest) -> exec (c :: rest) = None ->
  unmatched exec (pending ++ [c]) rest.
Proof.
  intros H N u d v E.
  destruct v as [|e v _] using rev_ind.
  - apply app_inj_tail in E. destruct E as [_ <-]. exact N.
  - change (u ++ d :: v ++ [e]) with (u ++ (d :: v) ++ [e]) in E.
    rewrite app_assoc in E. apply app_inj_tail in E.
    destruct E as [E <-]. rewrite <- app_assoc. cbn [app].
    exact (H u d v E).
Qed.

Lemma chunkPieces_single exec pending :
  unmatched exec pending [] ->
  chunkPieces exec pending (tokenPieces [pending]).
Proof.
  intros H. cbn [tokenPieces]. rewrite app_nil_r.
  destruct pending as [|c pending]; cbn [isEmpty]; [constructor|].
  rewrite <- (app_nil_r (c :: pending)) at 1.
  apply chunkPieces_run; [discriminate|exact H|now intros N|constructor].
Qed.

Lemma splitLoop_pieces exec :
  consumes exec ->
  forall fuel pending rest,
    length rest <= fuel ->
    unmatched exec pending rest ->
    chunkPieces exec (pending ++ rest)
                (tokenPieces (splitLoop exec fuel pending rest))
    /\ capturesFull (splitLoop exec fuel pending rest).
Proof.
  intros Hexec. induction fuel as [|fuel IH]; intros pending rest Hf Hp.
  - destruct rest; [|cbn in Hf; lia]. cbn [splitLoop].
    rewrite app_nil_r. split; [now apply chunkPieces_single|exact I].
  - destruct rest as [|c rest]; cbn [splitLoop].
    + rewrite app_nil_r. split; [now apply chunkPieces_single|exact I].
    + destruct (exec (c :: rest)) as [[m after]|] eqn:E.
      * destruct (Hexec _ _ _ E) as [Hm Hs].
        destruct m as [|x m]; [now destruct Hm|]. cbn [isEmpty andb].
        destruct (IH [] after) as [C F].
        { apply (f_equal (@length _)) in Hs.
          rewrite length_app in Hs. cbn in Hs, Hf. lia. }
        { apply unmatched_nil. }
        split; [|split; [discriminate|exact F]].
        cbn [tokenPieces]. cbn [app] in C.
        assert (chunkPieces exec (c :: rest)
                            (Match (x :: m) :: tokenPieces
                                   (splitLoop exec fuel [] after))) as M.
        { rewrite Hs. apply chunkPieces_match; [now rewrite <- Hs|exact C]. }
        destruct pending as [|p pending]; cbn [isEmpty app]; [exact M|].
        change (p :: pending ++ c :: rest)
          with ((p :: pending) ++ c :: rest).
        apply chunkPieces_run; [discriminate|exact Hp| |exact M].
        intros _. now rewrite E.
      * destruct (IH (pending ++ [c]) rest) as [C F];
          [cbn in Hf; lia|now apply unmatched_snoc|].
        rewrite <- app_assoc in C. split; [exact C|exact F].
Qed.

Lemma split_pieces exec chunk :
  consumes exec ->
  chunkPieces exec chunk (tokenPieces (split exec chunk))
  /\ capturesFull (split exec chunk).
Proof.
  intros Hexec. destruct chunk as [|c chunk].
  - cbn [split]. destruct (exec []) as [[m after]|]; cbn.
    + split; [constructor|exact I].
    + split; [constructor|exact I].
  - unfold split.
    apply (splitLoop_pieces exec Hexec (2 * length (c :: chunk)) []
             (c :: chunk));
      [lia|apply unmatched_nil].
Qed.

(** *** The nodes of the pieces *)

Section PatternNodes.

Variable cjkExec : matcher.
Variables punctuationRegex_test kRegex_test : jsstring -> bool.

#[local] Abbreviation nodeOf :=
  (pieceNode punctuationRegex_test kRegex_test) (only parsing).
#[local] Abbreviation nonCjkWord' :=
  (Pattern.nonCjkWord punctuationRegex_test) (only parsing).
#[local] Abbreviation cjkWord' :=
  (Pattern.cjkWord punctuationRegex_test kRegex_test) (only parsing).
#[local] Abbreviation innerStep' :=
  (Pattern.innerStep punctuationRegex_test kRegex_test) (only parsing).
#[local] Abbreviation innerLoop' :=
  (Pattern.innerLoop punctuationRegex_test kRegex_test) (only parsing).
#[local] Abbreviation chunkNodes' :=
  (Pattern.chunkNodes cjkExec punctuationRegex_test kRegex_test) (only parsing).
#[local] Abbreviation outerStep' :=
  (Pattern.outerStep cjkExec punctuationRegex_test kRegex_test) (only parsing).
#[local] Abbreviation outerLoop' :=
  (Pattern.outerLoop cjkExec punctuationRegex_test kRegex_test) (only parsing).
#[local] Abbreviation buildNodes' :=
  (Pattern.buildNodes cjkExec punctuationRegex_test kRegex_test) (only parsing).

Lemma Pattern_innerStep_even len idx tok nodes :
  Nat.even idx = true ->
  innerStep' len idx tok nodes
  = if isEmpty tok then nodes else appendNode nodes (nonCjkWord' tok).
Proof.
  intros E. unfold Pattern.innerStep. rewrite E.
  destruct (isEmpty tok); cbn [negb andb].
  - now destruct ((idx =? 0) || (idx =? len - 1)).
  - now rewrite andb_false_r.
Qed.

Lemma Pattern_innerStep_odd len idx tok nodes :
  Nat.even idx = false -> tok <> [] ->
  innerStep' len idx tok nodes = appendNode nodes (cjkWord' tok).
Proof.
  intros E Hne. unfold Pattern.innerStep. rewrite E.
  destruct tok; [now destruct Hne|]. cbn [isEmpty].
  now rewrite andb_false_r.
Qed.

Lemma Pattern_innerLoop_pieces len :
  forall n innerTokens,
    length innerTokens <= n ->
    capturesFull innerTokens ->
    forall idx nodes,
      Nat.even idx = true ->
      innerLoop' len idx innerTokens nodes
      = fold_left appendNode (map nodeOf (tokenPieces innerTokens)) nodes.
Proof.
  induction n as [|n IH]; intros its Hn F idx nodes E.
  - destruct its; [reflexivity|cbn in Hn; lia].
  - destruct its as [|r [|m tl]]; [reflexivity| |].
    + cbn [Pattern.innerLoop tokenPieces]. rewrite app_nil_r.
      rewrite (Pattern_innerStep_even len idx r nodes E).
      now destruct (isEmpty r).
    + destruct F as [Hm F]. cbn [Pattern.innerLoop tokenPieces].
      rewrite (Pattern_innerStep_even len idx r nodes E).
      rewrite (Pattern_innerStep_odd len (S idx) m _ (even_S_false _ E) Hm).
      rewrite (IH tl) by (cbn in Hn; try lia; assumption).
      destruct (isEmpty r); reflexivity.
Qed.

Lemma Pattern_chunkNodes_pieces chunk nodes :
  consumes cjkExec ->
  chunkNodes' chunk nodes
  = fold_left appendNode
              (map nodeOf (tokenPieces (split cjkExec chunk))) nodes.
Proof.
  intros Hexec. unfold Pattern.chunkNodes.
  apply (Pattern_innerLoop_pieces _ (length (split cjkExec chunk)));
    [apply Nat.le_refl|now apply split_pieces|reflexivity].
Qed.

Lemma Pattern_outerStep_even len idx tok nodes :
  Nat.even idx = true ->
  outerStep' len idx tok nodes = chunkNodes' tok nodes.
Proof.
  intros E. unfold Pattern.outerStep.
  rewrite <- Nat.negb_even, E. cbn [negb].
  destruct (((idx =? 0) || (idx =? len - 1)) && isEmpty tok) eqn:C;
    [|reflexivity].
  apply andb_prop in C. destruct C as [_ C].
  destruct tok; [|discriminate]. unfold Pattern.chunkNodes. cbn [split].
  destruct (cjkExec []); reflexivity.
Qed.

Lemma Pattern_outerStep_odd len idx tok nodes :
  Nat.even idx = false ->
  outerStep' len idx tok nodes = nodes ++ [blankNode tok].
Proof.
  intros E. unfold Pattern.outerStep. now rewrite <- Nat.negb_even, E.
Qed.

(** *** Zero-width nodes apart *)

Lemma solid_app a b : solid (a ++ b) = solid a ++ solid b.
Proof. apply filter_app. Qed.

Lemma solid_appendNode nodes n :
  isZeroWidth n = false -> solid (appendNode nodes n) = solid nodes ++ [n].
Proof.
  intros Hn. unfold appendNode.
  destruct (at_last nodes) as [lastNode|];
    [destruct (needsBreak lastNode n)|];
    rewrite ?solid_app; cbn [solid filter isZeroWidth isEmpty negb];
    rewrite Hn; cbn [negb]; now rewrite ?app_nil_r.
Qed.

Lemma isZeroWidth_nodeOf p :
  match p with Blanks s => True | _ => isZeroWidth (nodeOf p) = false end.
Proof.
  destruct p as [s|r|m]; [exact I|reflexivity|].
  cbn [pieceNode]. unfold Pattern.cjkWord.
  now destruct (punctuationRegex_test m).
Qed.

Lemma solid_fold ps :
  wordPieces ps ->
  forall nodes,
    solid (fold_left appendNode (map nodeOf ps) nodes)
    = solid nodes ++ map nodeOf ps.
Proof.
  induction 1 as [|p ps Hp _ IH]; intros nodes; cbn [map fold_left].
  - now rewrite app_nil_r.
  - rewrite IH, solid_appendNode, <- app_assoc; [reflexivity|].
    pose proof (isZeroWidth_nodeOf p) as H. now destruct p.
Qed.

Lemma tokenPieces_words innerTokens :
  forall n, length innerTokens <= n -> wordPieces (tokenPieces innerTokens).
Proof.
  intros n. revert innerTokens.
  induction n as [|n IH]; intros its Hn.
  - destruct its; [constructor|cbn in Hn; lia].
  - destruct its as [|r [|m tl]]; [constructor| |]; cbn [tokenPieces].
    + rewrite app_nil_r. destruct (isEmpty r); repeat constructor.
    + assert (wordPieces (Match m :: tokenPieces tl)) as H.
      { constructor; [exact I|]. apply IH. cbn in Hn. lia. }
      destruct (isEmpty r); [exact H|]. constructor; [exact I|exact H].
Qed.

(** *** The assertions pass *)

Lemma assert_snoc nodes n :
  assertNoConsecutiveWhitespace (nodes ++ [n])
  = assertNoConsecutiveWhitespace nodes
    && negb (match at_last nodes with
             | Some lastNode => isWhitespaceNode lastNode && isWhitespaceNode n
             | None => false
             end).
Proof.
  induction nodes as [|a nodes IH]; [reflexivity|].
  destruct nodes as [|b nodes].
  - cbn. now rewrite andb_true_r.
  - change ((a :: b :: nodes) ++ [n]) with (a :: (b :: nodes) ++ [n]).
    change (at_last (a :: b :: nodes)) with (at_last (b :: nodes)).
    change (assertNoConsecutiveWhitespace (a :: (b :: nodes) ++ [n]))
      with (negb (isWhitespaceNode a && isWhitespaceNode b)
            && assertNoConsecutiveWhitespace ((b :: nodes) ++ [n])).
    rewrite IH.
    change (assertNoConsecutiveWhitespace (a :: b :: nodes))
      with (negb (isWhitespaceNode a && isWhitespaceNode b)
            && assertNoConsecutiveWhitespace (b :: nodes)).
    now rewrite andb_assoc.
Qed.

Lemma assert_appendNode nodes n :
  assertNoConsecutiveWhitespace nodes = true -> isWordNode n = true ->
  assertNoConsecutiveWhitespace (appendNode nodes n) = true.
Proof.
  intros Hnodes Hn.
  assert (isWhitespaceNode n = false) as Hw by now destruct n.
  unfold appendNode. destruct (at_last nodes) as [lastNode|] eqn:L.
  - destruct (needsBreak lastNode n) eqn:B.
    + rewrite !assert_snoc, at_last_snoc, L, Hnodes, Hw.
      unfold needsBreak in B. apply andb_prop in B. destruct B as [B _].
      apply andb_prop in B. destruct B as [B _].
      destruct lastNode; [discriminate|]. reflexivity.
    + rewrite assert_snoc, L, Hnodes, Hw. now rewrite andb_false_r.
  - now rewrite assert_snoc, L, Hnodes.
Qed.

Lemma at_last_appendNode nodes n : at_last (appendNode nodes n) = Some n.
Proof.
  unfold appendNode.
  destruct (at_last nodes) as [lastNode|];
    [destruct (needsBreak lastNode n)|]; apply at_last_snoc.
Qed.

Lemma isWordNode_nodeOf p :
  match p with Blanks s => True | _ => isWordNode (nodeOf p) = true end.
Proof.
  destruct p as [s|r|m]; [exact I|reflexivity|].
  cbn [pieceNode]. unfold Pattern.cjkWord.
  now destruct (punctuationRegex_test m).
Qed.

Lemma assert_fold ps :
  wordPieces ps ->
  forall nodes,
    assertNoConsecutiveWhitespace nodes = true ->
    assertNoConsecutiveWhitespace
      (fold_left appendNode (map nodeOf ps) nodes) = true.
Proof.
  induction 1 as [|p ps Hp _ IH]; intros nodes Hnodes; cbn [map fold_left];
    [exact Hnodes|].
  apply IH, assert_appendNode; [exact Hnodes|].
  pose proof (isWordNode_nodeOf p) as H. now destruct p.
Qed.

Lemma endsWithWord_fold ps :
  wordPieces ps ->
  forall nodes,
    (ps = [] -> endsWithWord nodes) ->
    endsWithWord (fold_left appendNode (map nodeOf ps) nodes).
Proof.
  induction 1 as [|p ps Hp _ IH]; intros nodes Hnodes; cbn [map fold_left];
    [now apply Hnodes|].
  apply IH. intros _. unfold endsWithWord. rewrite at_last_appendNode.
  pose proof (isWordNode_nodeOf p) as H. now destruct p.
Qed.

Lemma assert_blank nodes s :
  assertNoConsecutiveWhitespace nodes = true -> endsWithWord nodes ->
  assertNoConsecutiveWhitespace (nodes ++ [blankNode s]) = true.
Proof.
  intros Hnodes Hw. rewrite assert_snoc, Hnodes. unfold endsWithWord in Hw.
  destruct (at_last nodes) as [[v|v k l r]|]; [discriminate| |];
    reflexivity.
Qed.

(** *** The outer loop *)

Lemma blankSplit_tail_start tokens :
  blankSplit false tokens -> startsWith isBlank (concat tokens) = false.
Proof.
  assert (forall w rest, noneOf isBlank w = true -> w <> [] ->
                         startsWith isBlank (w ++ rest) = false) as H.
  { intros [|c w] rest Hw Hne; [now destruct Hne|]. cbn in *.
    apply andb_prop in Hw. destruct Hw as [Hc _].
    now apply negb_true_iff in Hc. }
  inversion 1 as [? w Hw|? w s tl Hw Hne Hs Hsb Htl]; subst;
    cbn [concat].
  - rewrite app_nil_r. destruct w as [|c w]; [reflexivity|].
    rewrite <- (app_nil_r (c :: w)). apply H; [exact Hw|discriminate].
  - apply H; [exact Hw|now apply Hne].
Qed.

Lemma chunkPieces_nil exec chunk : chunkPieces exec chunk [] -> chunk = [].
Proof. now inversion 1. Qed.

Lemma Pattern_outerLoop_pieces :
  consumes cjkExec ->
  forall first tokens,
    blankSplit first tokens ->
    forall len idx nodes,
      Nat.even idx = true ->
      assertNoConsecutiveWhitespace nodes = true ->
      (first = true -> endsWithWord nodes) ->
      exists ps,
        textPieces cjkExec (concat tokens) ps
        /\ solid (outerLoop' len idx tokens nodes)
           = solid nodes ++ map nodeOf ps
        /\ assertNoConsecutiveWhitespace (outerLoop' len idx tokens nodes)
           = true.
Proof.
  intros Hexec.
  induction 1 as [first w Hw|first w s tl Hw Hne Hs Hsb Htl IH];
    intros len idx nodes E Hnodes Hfirst.
  - destruct (split_pieces cjkExec w Hexec) as [C F].
    pose proof (tokenPieces_words (split cjkExec w) _ (Nat.le_refl _)) as W.
    exists (tokenPieces (split cjkExec w)). cbn [Pattern.outerLoop concat].
    rewrite app_nil_r, (Pattern_outerStep_even len idx w nodes E).
    rewrite (Pattern_chunkNodes_pieces w nodes Hexec).
    split; [now apply textPieces_last|].
    split; [now apply solid_fold|now apply assert_fold].
  - destruct (split_pieces cjkExec w Hexec) as [C F].
    pose proof (tokenPieces_words (split cjkExec w) _ (Nat.le_refl _)) as W.
    cbn [Pattern.outerLoop concat].
    rewrite (Pattern_outerStep_even len idx w nodes E).
    rewrite (Pattern_outerStep_odd len (S idx) s _ (even_S_false _ E)).
    rewrite (Pattern_chunkNodes_pieces w nodes Hexec).
    set (ps := tokenPieces (split cjkExec w)) in *.
    set (nodes1 := fold_left appendNode (map nodeOf ps) nodes).
    assert (endsWithWord nodes1) as Hend.
    { apply endsWithWord_fold; [exact W|]. intros Hps.
      rewrite Hps in C. apply chunkPieces_nil in C.
      destruct first; [now apply Hfirst|]. now destruct (Hne eq_refl). }
    assert (assertNoConsecutiveWhitespace nodes1 = true) as Hassert
        by now apply assert_fold.
    destruct (IH len (S (S idx)) (nodes1 ++ [blankNode s]))
      as (qs & T & S & A);
      [exact E|now apply assert_blank|discriminate|].
    exists (ps ++ Blanks s :: qs). split; [|split; [|exact A]].
    + apply textPieces_blanks; auto. now apply blankSplit_tail_start.
    + rewrite S, solid_app. unfold nodes1. rewrite (solid_fold ps W).
      rewrite map_app. cbn [map pieceNode].
      rewrite <- !app_assoc. do 2 f_equal.
      unfold solid, blankNode. cbn [filter isZeroWidth].
      now destruct (hasNewline s).
Qed.

Lemma Pattern_buildNodes_pieces text :
  consumes cjkExec ->
  exists ps,
    textPieces cjkExec text ps
    /\ solid (buildNodes' text) = map nodeOf ps
    /\ assertNoConsecutiveWhitespace (buildNodes' text) = true.
Proof.
  intros Hexec. unfold Pattern.buildNodes.
  destruct (Pattern_outerLoop_pieces Hexec true _ (split_blankSplit text)
              (length (split whitespaceExec text)) 0 [])
    as (ps & T & S & A); [reflexivity|reflexivity|exact (fun _ => I)|].
  rewrite split_blank_concat in T. exists ps. auto.
Qed.


End PatternNodes.

(** *** A text has one list of pieces *)







(** *** What the pieces are *)

Lemma chunkPieces_words exec chunk ps :
  chunkPieces exec chunk ps ->
  (forall m, In (Match m) ps -> exists rest, exec (m ++ rest) = Some (m, rest))
  /\ (forall r, In (Run r) ps -> r <> [])
  /\ (forall s, ~ In (Blanks s) ps).
Proof.
  induction 1 as [|m rest ps Em P (IHm & IHr & IHb)
                  |r rest ps Hr Hu Hnext P (IHm & IHr & IHb)].
  - repeat split; intros ? [].
  - split; [|split].
    + intros m' [[= <-]|H]; [now exists rest|now apply IHm].
    + intros r' [[=]|H]. now apply IHr.
    + intros s [[=]|H]. now apply (IHb s).
  - split; [|split].
    + intros m' [[=]|H]. now apply IHm.
    + intros r' [[= <-]|H]; [exact Hr|now apply IHr].
    + intros s [[=]|H]. now apply (IHb s).
Qed.

Lemma textPieces_words exec text ps :
  textPieces exec text ps ->
  (forall m, In (Match m) ps -> exists rest, exec (m ++ rest) = Some (m, rest))
  /\ (forall r, In (Run r) ps -> r <> []).
Proof.
  induction 1 as [chunk ps Hc C|chunk s rest ps qs Hc C Hne Hs Hr P [IHm IHr]].
  - destruct (chunkPieces_words exec chunk ps C) as (Hm & Hrun & _). auto.
  - destruct (chunkPieces_words exec chunk ps C) as (Hm & Hrun & _).
    split.
    + intros m H. apply in_app_or in H.
      destruct H as [H|[[=]|H]]; [now apply Hm|now apply IHm].
    + intros r H. apply in_app_or in H.
      destruct H as [H|[[=]|H]]; [now apply Hrun|now apply IHr].
Qed.

Lemma word_piece punctuationRegex_test kRegex_test nodes ps v k l r :
  solid nodes = map (pieceNode punctuationRegex_test kRegex_test) ps ->
  In (word v k l r) nodes ->
  (k = KIND_NON_CJK /\ In (Run v) ps
   /\ word v k l r = Pattern.nonCjkWord punctuationRegex_test v)
  \/ (k <> KIND_NON_CJK /\ In (Match v) ps
      /\ word v k l r
         = Pattern.cjkWord punctuationRegex_test kRegex_test v).
Proof.
  intros E Hin.
  assert (In (word v k l r) (solid nodes)) as H
      by (apply filter_In; split; [exact Hin|reflexivity]).
  rewrite E in H. apply in_map_iff in H. destruct H as (p & Hp & Hps).
  destruct p as [s|run|m]; cbn [pieceNode] in Hp.
  - discriminate.
  - left. unfold Pattern.nonCjkWord in Hp. injection Hp as <- <- <- <-.
    repeat split; auto.
  - right. pose proof Hp as Hp'. unfold Pattern.cjkWord in Hp.
    assert (m = v /\ k <> KIND_NON_CJK) as [-> Hk].
    { destruct (punctuationRegex_test m); [|destruct (kRegex_test m)];
        injection Hp as <- <- _ _; split; try reflexivity; discriminate. }
    repeat split; auto.
Qed.





(** X3: the kind and the flags of a word node of the output are what the
    two tests give for its value, whatever the three expressions: the flags
    of a non-cjk word are the punctuation tests of its first and of its last
    code unit; a word for a match of [cjkPattern] is a cjk-punctuation word
    with both flags set when the match passes [punctuationRegex], and
    otherwise a k-letter or a cj-letter word, as the match passes [kRegex]
    or not, with no flag set. *)
Theorem splitText_kinds_and_flags
        cjkExec punctuationRegex_test kRegex_test production text :
  consumes cjkExec ->
  exists nodes,
    Pattern.splitText cjkExec punctuationRegex_test kRegex_test
                      production text = Some nodes
    /\ Forall (classified punctuationRegex_test kRegex_test) nodes.
Proof.
  intros Hexec.
  destruct (Pattern_buildNodes_pieces cjkExec punctuationRegex_test
              kRegex_test text Hexec) as (ps & T & S & A).
  destruct (textPieces_words cjkExec text ps T) as [_ Hr].
  exists (Pattern.buildNodes cjkExec punctuationRegex_test kRegex_test text).
  split; [unfold Pattern.splitText; now rewrite A, andb_false_r|].
  apply Forall_forall. intros [v|v k l r] Hin; [exact I|].
  destruct (word_piece _ _ _ _ v k l r S Hin)
    as [(-> & Hrun & E)|(Hk & _ & E)]; rewrite E.
  - apply Hr in Hrun. unfold Pattern.nonCjkWord. cbn [classified].
    destruct v as [|c v]; [now destruct Hrun|].
    destruct (at_last (c :: v)) as [d|] eqn:L;
      [|now apply at_last_nil_inv in L].
    exists c, d. repeat split; reflexivity.
  - unfold Pattern.cjkWord.
    destruct (punctuationRegex_test v) eqn:P;
      [|destruct (kRegex_test v) eqn:K]; cbn [classified]; auto.
Qed.

Lemma splitText_kinds_and_flags_witness :
  exists nodes,
    Supplementary.splitText false (js "(a)" ++ yoshi ++ [12290; 54620]%N)
    = Some nodes
    /\ Forall (classified (existsb Sample.isPunctuation)
                          (existsb Sample.isK)) nodes.
Proof.
  exact (splitText_kinds_and_flags
           Supplementary.cjkExec (existsb Sample.isPunctuation)
           (existsb Sample.isK) false
           (js "(a)" ++ yoshi ++ [12290; 54620]%N) Supplementary_consumes).
Defined.
